(** * Link scanner of the Real-Debrid manager: a shallow embedding

    The development follows [src/contents/link-scanner.ts]: the pattern cache
    ([getHostsRegex]), the link extraction ([scanTextNodes],
    [scanPageForLinks]), the auto-unrestrict pass ([autoUnrestrictLinks]) and
    the scheduler ([triggerScan], [performAutoScan], [initAutoScan]).

    Module-level variables of the script are the fields of [State]; the
    browser (clock, timers, mutation observers) and the background page
    (replies to messages) are explicit. *)

From stdpp Require Import base gmap strings list fin_maps sorting.
From Stdlib Require Import ZArith Lia Ascii String.

Local Open Scope string_scope.
Local Open Scope list_scope.
Local Open Scope Z_scope.

(** ** JavaScript strings

    A JavaScript string is a sequence of code units; here [string], whose
    characters are the code units below 256. *)

Definition startsWith (s p : string) : bool := String.prefix p s.

Definition endsWith (s p : string) : bool :=
  let n := String.length s in
  let m := String.length p in
  (m <=? n)%nat && String.eqb (String.substring (n - m) m s) p.

(** [s.slice(1, -1)]: from index 1 up to, not including, the last index. *)
Definition slice_1_m1 (s : string) : string :=
  String.substring 1 (String.length s - 2) s.

(** ** Values that travel through [chrome.runtime] messages and
    [chrome.storage]: JSON-like values. Numbers matter only through their
    truthiness, so they are integers here. *)

#[warnings="-register-all"]
Inductive JsVal : Type :=
| JUndefined
| JNull
| JBool (b : bool)
| JNum (n : Z)
| JStr (s : string)
| JArr (xs : list JsVal)
| JObj (fields : list (string * JsVal)).

(** ToBoolean. *)
Definition truthy (v : JsVal) : bool :=
  match v with
  | JUndefined | JNull => false
  | JBool b => b
  | JNum n => negb (n =? 0)
  | JStr s => negb (String.eqb s EmptyString)
  | JArr _ | JObj _ => true
  end.

Fixpoint lookupField (name : string) (fields : list (string * JsVal)) : JsVal :=
  match fields with
  | [] => JUndefined
  | (k, v) :: rest => if String.eqb k name then v else lookupField name rest
  end.

(** [v?.name] for the property names the script reads ([success], [data],
    [preferences], [autoScanEnabled], [autoUnrestrict]): none of them is
    defined on a primitive or on an array, so only a plain object can
    answer with something else than [undefined]. *)
Definition optProp (v : JsVal) (name : string) : JsVal :=
  match v with
  | JObj fields => lookupField name fields
  | _ => JUndefined
  end.

(** Exceptions the script can meet. *)
Inductive Exn : Type :=
| SyntaxError
| TypeError
| Rejection.

(** [v.name] without optional chaining: reading a property of [undefined]
    or [null] throws. *)
Definition getProp (v : JsVal) (name : string) : Exn + JsVal :=
  match v with
  | JUndefined | JNull => inl TypeError
  | _ => inr (optProp v name)
  end.

(** ** Data model *)

Inductive LinkType : Type := hoster | magnet.

#[global] Instance LinkType_eq_dec : EqDecision LinkType.
Proof. solve_decision. Defined.

(** An [UnrestrictedLink] (a type of [lib/api/unrestrict], not part of this
    file) is carried, never inspected: any value will do. *)
Definition UnrestrictedLink : Type := JsVal.

Record DetectedLink : Type := mkLink {
  url : string;
  host : string;
  type : LinkType;
  unrestrictedLink : option UnrestrictedLink
}.

(** Reply to [GET_HOSTS_REGEX] as the callback of
    [chrome.runtime.sendMessage] sees it. *)
Record HostsReply : Type := mkHostsReply {
  lastError : bool;
  response : JsVal
}.

(** What [await sendMessage(...)] gives. [sendMessage] belongs to
    [lib/messaging], not to this file: all that is taken of it is that the
    promise it returns is rejected or resolves to some value. *)
Inductive SendResult : Type :=
| SendRejected
| SendResolved (result : JsVal).

(** Completed exchanges with the background page, oldest first. *)
Inductive Event : Type :=
| GET_HOSTS_REGEX (reply : HostsReply)
| REPORT_DETECTED_LINKS (links : list DetectedLink)
| UNRESTRICT_LINK (link : string) (result : SendResult).

(** A text node as the tree walker of [scanTextNodes] sees it. *)
Record TextNode : Type := mkTextNode {
  parentTagName : option string;
  nodeValue : string
}.

(** What a scan reads of the page: the [href] of every element matched by
    [a[href]], a string as the cast to [HTMLAnchorElement] has it, and the
    text nodes under the body, both in document order. *)
Record Document : Type := mkDocument {
  anchors : list string;
  textNodes : list TextNode
}.

(** The browser side of the scheduler: the clock, the pending timers
    (handle to deadline), the connected mutation observers, and the
    handles to give out next. *)
Record Browser : Type := mkBrowser {
  clock : Z;
  timers : gmap positive Z;
  nextTimer : positive;
  observers : gset positive;
  nextObserver : positive
}.

Definition CACHE_TTL : Z := 5 * 60 * 1000.
Definition SCAN_DEBOUNCE_MS : Z := 1000.

(** ** A small host for the examples

    A regular-expression engine and a URL parser to run the model on: a
    pattern is a literal, found anywhere in the text whatever the case; a
    backslash in it is an escape and is dropped; a pattern with an opening
    bracket does not compile. *)

Definition lowerAscii (c : ascii) : ascii :=
  let n := nat_of_ascii c in
  if ((65 <=? n) && (n <=? 90))%nat then ascii_of_nat (n + 32) else c.

Fixpoint lowerString (s : string) : string :=
  match s with
  | EmptyString => EmptyString
  | String c rest => String (lowerAscii c) (lowerString rest)
  end.

Fixpoint dropBackslashes (s : string) : string :=
  match s with
  | EmptyString => EmptyString
  | String c rest =>
      if Ascii.eqb c (ascii_of_nat 92)
      then dropBackslashes rest
      else String c (dropBackslashes rest)
  end.

Definition contains (needle text : string) : bool :=
  match String.index 0 needle text with
  | Some _ => true
  | None => false
  end.

Definition toyNewRegExp (source : string) : option string :=
  if contains "(" source then None
  else Some (lowerString (dropBackslashes source)).

Definition toyTest (pattern text : string) : bool :=
  contains pattern (lowerString text).

Fixpoint takeHostChars (s : string) : string :=
  match s with
  | EmptyString => EmptyString
  | String c rest =>
      if Ascii.eqb c "/" || Ascii.eqb c "?" || Ascii.eqb c "#" || Ascii.eqb c ":"
      then EmptyString
      else String c (takeHostChars rest)
  end.

Definition toyHostname (u : string) : option string :=
  match String.index 0 "://" u with
  | Some i =>
      Some (lowerString
              (takeHostChars
                 (String.substring (i + 3) (String.length u - (i + 3)) u)))
  | None => None
  end.

(** A background page that answers every [GET_HOSTS_REGEX] with the one
    pattern of the end-to-end example, and unrestricts every link. *)
Definition toyHostsReply (_ : list Event) : HostsReply :=
  mkHostsReply false
    (JObj [("success", JBool true);
           ("data", JArr [JStr "/host-a\.example/"])]).

Definition toyUnrestrictReply (_ : list Event) (link : string) : SendResult :=
  SendResolved
    (JObj [("success", JBool true);
           ("data", JObj [("download", JStr link)])]).

(** A background page that rejects the links with [bad] in them and
    unrestricts the others. *)
Definition flakyUnrestrictReply (_ : list Event) (link : string) : SendResult :=
  if contains "bad" link
  then SendRejected
  else SendResolved
         (JObj [("success", JBool true);
                ("data", JObj [("download", JStr link)])]).

(** Three hoster links; the call for the second one fails. *)
Definition toyLinks : list DetectedLink :=
  [mkLink "https://host-a.example/1" "host-a.example" hoster None;
   mkLink "https://host-a.example/bad" "host-a.example" hoster None;
   mkLink "https://host-a.example/3" "host-a.example" hoster None].

(** A background page whose pattern list holds a pattern that does not
    compile. *)
Definition badHostsReply (_ : list Event) : HostsReply :=
  mkHostsReply false
    (JObj [("success", JBool true);
           ("data", JArr [JStr "/host-a\.example/"; JStr "/(oops/"])]).

(** A page that stays the same, and no stored preferences. *)
Definition toyPageAt (_ : Z) : Document :=
  mkDocument
    ["https://host-a.example/file/1"; "magnet:?xt=abc"]
    [mkTextNode (Some "P") "grab it: https://host-a.example/file/2."].

Definition toyPreferencesAt (_ : Z) : JsVal := JUndefined.

(** A page with one hoster URL in an anchor and twice in text, once with
    a final period, and a magnet anchor. *)
Definition toyPage : Document :=
  mkDocument
    ["https://host-a.example/file/1"; "magnet:?xt=abc"]
    [mkTextNode (Some "P")
       "grab it: https://host-a.example/file/1 or https://host-a.example/file/1.";
     mkTextNode (Some "SCRIPT") "https://host-a.example/file/9"].

(** A reply with an empty list of patterns, a page without links, and
    stored preferences with auto-scan switched off. *)
Definition emptyHostsReply (_ : list Event) : HostsReply :=
  mkHostsReply false (JObj [("success", JBool true); ("data", JArr [])]).

Definition emptyPage : Document :=
  mkDocument [] [mkTextNode (Some "P") "nothing to fetch here"].

Definition autoScanOff : JsVal := JObj [("autoScanEnabled", JBool false)].

Section LinkScanner.

#[local] Set Default Proof Using "Type".

(** The regular-expression engine of the host is a parameter:
    [newRegExp s] is [new RegExp(s, "i")], [None] when it throws a
    [SyntaxError]; [test r s] is [r.test(s)] (no [g] or [y] flag, so it
    keeps no state). *)
Variable RegExp : Type.
Variable newRegExp : string -> option RegExp.
Variable test : RegExp -> string -> bool.

(** [new URL(s).hostname], [None] when the constructor throws. *)
Variable urlHostname : string -> option string.

(** The module-level variables. Timer and observer handles are positive
    numbers, hence truthy. *)
Record State : Type := mkState {
  cachedHostsRegex : option (list RegExp);
  cachedHostsRegexTimestamp : Z;
  scanTimeout : option positive;
  isScanning : bool;
  observer : option positive;
  processedLinks : gset string;
  unrestrictedCache : gmap string UnrestrictedLink
}.

Definition initialState : State :=
  mkState None 0 None false None ∅ ∅.

Definition set_cache (rs : list RegExp) (now : Z) (st : State) : State :=
  mkState (Some rs) now (scanTimeout st) (isScanning st) (observer st)
          (processedLinks st) (unrestrictedCache st).

(** The script and its log of exchanges. *)
Record World : Type := mkWorld {
  state : State;
  trace : list Event
}.

(** Computations that may throw; the state survives a throw. *)
Definition M (A : Type) : Type := World -> (Exn + A) * World.

Definition ret {A} (a : A) : M A := fun w => (inr a, w).
Definition throw {A} (e : Exn) : M A := fun w => (inl e, w).
Definition bind {A B} (m : M A) (k : A -> M B) : M B := fun w =>
  match m w with
  | (inl e, w') => (inl e, w')
  | (inr a, w') => k a w'
  end.
Definition try_catch {A} (m : M A) (handler : Exn -> M A) : M A := fun w =>
  match m w with
  | (inl e, w') => handler e w'
  | (inr a, w') => (inr a, w')
  end.
Definition lift {A} (r : Exn + A) : M A := fun w => (r, w).
Definition modify (f : State -> State) : M unit := fun w =>
  (inr tt, mkWorld (f (state w)) (trace w)).
Definition emit (ev : Event) : M unit := fun w =>
  (inr tt, mkWorld (state w) (trace w ++ [ev])).

Notation "x <- m ;; k" := (bind m (fun x => k))
  (at level 100, m at next level, right associativity).
Notation "m ;;; k" := (bind m (fun _ => k))
  (at level 100, right associativity).

(** ** Pattern cache *)

(** Replies of the background page to the next [GET_HOSTS_REGEX], given
    the exchanges so far. *)
Variable hostsReply : list Event -> HostsReply.

Definition stripDelimiters (pattern : string) : string :=
  if startsWith pattern "/" && endsWith pattern "/"
  then slice_1_m1 pattern
  else pattern.

(** The arrow function given to [map]: only a string has [startsWith]. *)
Definition compilePattern (pattern : JsVal) : Exn + RegExp :=
  match pattern with
  | JStr p =>
      match newRegExp (stripDelimiters p) with
      | Some r => inr r
      | None => inl SyntaxError
      end
  | _ => inl TypeError
  end.

(** [Array.prototype.map], left to right, stopping at the first throw. *)
Fixpoint mapThrow {A B} (f : A -> Exn + B) (xs : list A) : Exn + list B :=
  match xs with
  | [] => inr []
  | x :: rest =>
      match f x with
      | inl e => inl e
      | inr y =>
          match mapThrow f rest with
          | inl e => inl e
          | inr ys => inr (y :: ys)
          end
      end
  end.

(** [response.data.map(...)]: only an array has [map]. *)
Definition mapPatterns (data : JsVal) : Exn + list RegExp :=
  match data with
  | JArr xs => mapThrow compilePattern xs
  | _ => inl TypeError
  end.

(** The callback of [chrome.runtime.sendMessage] in [getHostsRegex]. *)
Definition hostsCallback (now : Z) (reply : HostsReply) : M (list RegExp) :=
  if lastError reply
     || negb (truthy (optProp (response reply) "success"))
     || negb (truthy (optProp (response reply) "data"))
  then ret []
  else
    try_catch
      (rs <- lift (mapPatterns (optProp (response reply) "data")) ;;
       modify (set_cache rs now) ;;;
       ret rs)
      (fun _ => ret []).

Definition fetchHostsRegex (now : Z) : M (list RegExp) := fun w =>
  let reply := hostsReply (trace w) in
  (emit (GET_HOSTS_REGEX reply) ;;; hostsCallback now reply) w.

Definition getHostsRegex (now : Z) : M (list RegExp) := fun w =>
  match cachedHostsRegex (state w) with
  | Some cached =>
      if now - cachedHostsRegexTimestamp (state w) <? CACHE_TTL
      then ret cached w
      else fetchHostsRegex now w
  | None => fetchHostsRegex now w
  end.


(** ** Link extraction *)

(** [urlObj.hostname.replace(/^www\./, ...)]: a leading [www.] removed. *)
Definition stripWww (hostname : string) : string :=
  if startsWith hostname "www."
  then String.substring 4 (String.length hostname - 4) hostname
  else hostname.

Definition extractHost (u : string) : string :=
  if startsWith u "magnet:" then "magnet"
  else
    match urlHostname u with
    | Some hostname => stripWww hostname
    | None => "unknown"
    end.

Definition matchesHosterPattern (u : string) (patterns : list RegExp) : bool :=
  existsb (fun pattern => test pattern u) patterns.

(** The class [\s] on code units below 256. *)
Definition isSpace (c : ascii) : bool :=
  let n := nat_of_ascii c in
  ((9 <=? n) && (n <=? 13) || (n =? 32) || (n =? 160))%nat.

(** The class of the URL regex: anything but white space, the angle
    brackets and the two quotes. *)
Definition isUrlChar (c : ascii) : bool :=
  negb (isSpace c
        || Ascii.eqb c "<" || Ascii.eqb c ">"
        || Ascii.eqb c (ascii_of_nat 34) || Ascii.eqb c "'").

(** One letter under the [i] flag. *)
Definition eqbNoCase (c lower upper : ascii) : bool :=
  Ascii.eqb c lower || Ascii.eqb c upper.

(** The longest run of the class at the head of [s], and what follows. *)
Fixpoint takeUrlChars (s : string) : string * string :=
  match s with
  | EmptyString => (EmptyString, EmptyString)
  | String c rest =>
      if isUrlChar c
      then let '(run, after) := takeUrlChars rest in (String c run, after)
      else (EmptyString, s)
  end.

(** A colon, two slashes and a non-empty run of the class at the head of
    [s]: the run matched after the slashes. *)
Definition matchColonSlashes (s : string) : option string :=
  match s with
  | String c1 (String c2 (String c3 rest)) =>
      if Ascii.eqb c1 ":" && Ascii.eqb c2 "/" && Ascii.eqb c3 "/"
      then
        match takeUrlChars rest with
        | (EmptyString, _) => None
        | (run, _) => Some run
        end
      else None
  | _ => None
  end.

(** The URL regex ([https?] then colon, slashes and run) anchored at the
    head of [s], flag [i]: the text matched. The optional [s] is tried first; without it the next
    character would have to be the colon, so there is nothing to backtrack
    to. *)
Definition matchUrlAt (s : string) : option string :=
  match s with
  | String h (String t1 (String t2 (String p rest))) =>
      if eqbNoCase h "h" "H" && eqbNoCase t1 "t" "T"
         && eqbNoCase t2 "t" "T" && eqbNoCase p "p" "P"
      then
        match rest with
        | String c rest' =>
            if eqbNoCase c "s" "S"
            then
              match matchColonSlashes rest' with
              | Some run =>
                  Some (String h (String t1 (String t2 (String p
                          (String c ("://" +:+ run))))))
              | None => None
              end
            else
              match matchColonSlashes rest with
              | Some run =>
                  Some (String h (String t1 (String t2 (String p
                          ("://" +:+ run)))))
              | None => None
              end
        | EmptyString => None
        end
      else None
  | _ => None
  end.

(** [text.match(urlRegex)] with flag [g]: every match, left to right, the
    search resuming where the last match ended ([skip] characters are
    still inside it). *)
Fixpoint matchAllUrls (skip : nat) (text : string) : list string :=
  match text with
  | EmptyString => []
  | String _ rest =>
      match skip with
      | S k => matchAllUrls k rest
      | O =>
          match matchUrlAt text with
          | Some m => m :: matchAllUrls (String.length m - 1) rest
          | None => matchAllUrls 0 rest
          end
      end
  end.

Definition extractUrlsFromText (text : string) : list string :=
  matchAllUrls 0 text.

Definition isTrailingPunct (c : ascii) : bool :=
  Ascii.eqb c "." || Ascii.eqb c "," || Ascii.eqb c ";" || Ascii.eqb c ")".

(** [url.replace(/[.,;)]+$/, ...)]: [s] without its final run of
    [. , ; )]; the second component tells whether all of [s] is such a
    run. *)
Fixpoint stripTrailing (s : string) : string * bool :=
  match s with
  | EmptyString => (EmptyString, true)
  | String c rest =>
      let '(rest', allPunct) := stripTrailing rest in
      if allPunct && isTrailingPunct c
      then (EmptyString, true)
      else (String c rest', false)
  end.

Definition cleanTrailing (u : string) : string := fst (stripTrailing u).

(** The [acceptNode] filter of the tree walker. *)
Definition acceptNode (node : TextNode) : bool :=
  match parentTagName node with
  | Some tag =>
      negb (String.eqb tag "SCRIPT" || String.eqb tag "STYLE"
            || String.eqb tag "NOSCRIPT")
  | None => true
  end.

(** Body of the [for (const url of urls)] loop of [scanTextNodes]; the
    accumulator is [seenUrls] and [detectedLinks]. *)
Definition scanTextUrl (patterns : list RegExp)
    (cache : gmap string UnrestrictedLink)
    (acc : gset string * list DetectedLink) (u : string)
    : gset string * list DetectedLink :=
  let '(seenUrls, detectedLinks) := acc in
  if decide (u ∈ seenUrls) then acc
  else
    let cleanUrl := cleanTrailing u in
    if matchesHosterPattern cleanUrl patterns
    then ({[cleanUrl]} ∪ seenUrls,
          detectedLinks ++
            [mkLink cleanUrl (extractHost cleanUrl) hoster (cache !! cleanUrl)])
    else acc.

(** Body of the [while] loop of [scanTextNodes]. *)
Definition scanTextNode (patterns : list RegExp)
    (cache : gmap string UnrestrictedLink)
    (acc : gset string * list DetectedLink) (node : TextNode)
    : gset string * list DetectedLink :=
  if negb (acceptNode node) then acc
  else if String.eqb (nodeValue node) EmptyString then acc
  else foldl (scanTextUrl patterns cache) acc
             (extractUrlsFromText (nodeValue node)).

Definition scanTextNodes (patterns : list RegExp)
    (cache : gmap string UnrestrictedLink) (doc : Document)
    : list DetectedLink :=
  snd (foldl (scanTextNode patterns cache) (∅, []) (textNodes doc)).

(** Body of the [for (const anchor of anchors)] loop. *)
Definition scanAnchor (hostsRegex : list RegExp)
    (cache : gmap string UnrestrictedLink)
    (acc : gset string * list DetectedLink) (href : string)
    : gset string * list DetectedLink :=
  let '(seenUrls, detectedLinks) := acc in
  if String.eqb href EmptyString
     || startsWith href "javascript:"
     || bool_decide (href ∈ seenUrls)
  then acc
  else
    let seenUrls := {[href]} ∪ seenUrls in
    if startsWith href "magnet:"
    then (seenUrls, detectedLinks ++ [mkLink href "magnet" magnet None])
    else if matchesHosterPattern href hostsRegex
    then (seenUrls,
          detectedLinks ++
            [mkLink href (extractHost href) hoster (cache !! href)])
    else (seenUrls, detectedLinks).

(** Body of the [for (const link of textLinks)] loop. *)
Definition mergeTextLink (acc : gset string * list DetectedLink)
    (link : DetectedLink) : gset string * list DetectedLink :=
  let '(seenUrls, detectedLinks) := acc in
  if decide (url link ∈ seenUrls) then acc
  else ({[url link]} ∪ seenUrls, detectedLinks ++ [link]).

(** The scan once the patterns are known. *)
Definition scanDocument (hostsRegex : list RegExp)
    (cache : gmap string UnrestrictedLink) (doc : Document)
    : list DetectedLink :=
  let afterAnchors := foldl (scanAnchor hostsRegex cache) (∅, []) (anchors doc) in
  let textLinks := scanTextNodes hostsRegex cache doc in
  snd (foldl mergeTextLink afterAnchors textLinks).

Definition scanPageForLinks (now : Z) (doc : Document) : M (list DetectedLink) :=
  hostsRegex <- getHostsRegex now ;;
  fun w => ret (scanDocument hostsRegex (unrestrictedCache (state w)) doc) w.

(** ** Preferences *)

(** [getPreferences], from the value stored under the key [preferences]
    ([undefined] when there is none). *)
Definition notFalse (v : JsVal) : bool :=
  match v with
  | JBool false => false
  | _ => true
  end.

Definition getPreferences (stored : JsVal) : bool * bool :=
  let prefs := if truthy stored then stored else JObj [] in
  (notFalse (optProp prefs "autoScanEnabled"),
   notFalse (optProp prefs "autoUnrestrict")).

(** ** Auto-unrestrict *)

(** Replies of the background page to [UNRESTRICT_LINK], given the
    exchanges so far. *)
Variable unrestrictReply : list Event -> string -> SendResult.

Definition add_processed (u : string) (st : State) : State :=
  mkState (cachedHostsRegex st) (cachedHostsRegexTimestamp st)
          (scanTimeout st) (isScanning st) (observer st)
          ({[u]} ∪ processedLinks st) (unrestrictedCache st).

Definition cache_unrestricted (u : string) (data : UnrestrictedLink)
    (st : State) : State :=
  mkState (cachedHostsRegex st) (cachedHostsRegexTimestamp st)
          (scanTimeout st) (isScanning st) (observer st)
          (processedLinks st) (<[u := data]> (unrestrictedCache st)).

Definition reportLinksToBackground (links : list DetectedLink) : M unit :=
  emit (REPORT_DETECTED_LINKS links).

(** [await sendMessage({ type: UNRESTRICT_LINK, ... })]: the exchange is
    logged, a rejected promise throws. *)
Definition sendUnrestrict (u : string) : M JsVal := fun w =>
  let r := unrestrictReply (trace w) u in
  let w' := mkWorld (state w) (trace w ++ [UNRESTRICT_LINK u r]) in
  match r with
  | SendRejected => (inl Rejection, w')
  | SendResolved result => (inr result, w')
  end.

(** The [try] block of the loop of [autoUnrestrictLinks]; it gives the
    link as it is afterwards and [hasNewUnrestrictions]. *)
Definition tryUnrestrict (link : DetectedLink) (hasNew : bool)
    : M (DetectedLink * bool) :=
  result <- sendUnrestrict (url link) ;;
  success <- lift (getProp result "success") ;;
  if truthy success && truthy (optProp result "data")
  then
    modify (cache_unrestricted (url link) (optProp result "data")) ;;;
    ret (mkLink (url link) (host link) (type link)
                (Some (optProp result "data")), true)
  else ret (link, hasNew).

(** Body of the loop of [autoUnrestrictLinks] for one hoster link. *)
Definition unrestrictOne (link : DetectedLink) (hasNew : bool)
    : M (DetectedLink * bool) := fun w =>
  if decide (url link ∈ processedLinks (state w))
  then ret (link, hasNew) w
  else
    (modify (add_processed (url link)) ;;;
     try_catch (tryUnrestrict link hasNew)
               (fun _ => ret (link, hasNew))) w.

(** The loop runs over [links.filter(l => l.type === hoster)], whose
    elements are the objects of [links] themselves: an assignment to
    [link.unrestrictedLink] shows in [links]. Every object of a scanned list
    is built by its own object literal, so the loop is a traversal of
    [links] that passes the other links by. *)
Fixpoint unrestrictLoop (links : list DetectedLink) (hasNew : bool)
    : M (list DetectedLink * bool) :=
  match links with
  | [] => ret ([], hasNew)
  | link :: rest =>
      match type link with
      | hoster =>
          r <- unrestrictOne link hasNew ;;
          r' <- unrestrictLoop rest (snd r) ;;
          ret (fst r :: fst r', snd r')
      | magnet =>
          r' <- unrestrictLoop rest hasNew ;;
          ret (link :: fst r', snd r')
      end
  end.

(** [autoUnrestrictLinks]; the result is [links] as the caller sees it
    afterwards and the final [hasNewUnrestrictions]. *)
Definition autoUnrestrictLinks (links : list DetectedLink)
    : M (list DetectedLink * bool) :=
  r <- unrestrictLoop links false ;;
  (if snd r then reportLinksToBackground (fst r) else ret tt) ;;;
  ret r.

(** ** Scheduler *)

Definition set_isScanning (b : bool) (st : State) : State :=
  mkState (cachedHostsRegex st) (cachedHostsRegexTimestamp st)
          (scanTimeout st) b (observer st)
          (processedLinks st) (unrestrictedCache st).

Definition set_scanTimeout (t : option positive) (st : State) : State :=
  mkState (cachedHostsRegex st) (cachedHostsRegexTimestamp st)
          t (isScanning st) (observer st)
          (processedLinks st) (unrestrictedCache st).

Definition set_observer (o : option positive) (st : State) : State :=
  mkState (cachedHostsRegex st) (cachedHostsRegexTimestamp st)
          (scanTimeout st) (isScanning st) o
          (processedLinks st) (unrestrictedCache st).

(** [try { ... } finally { ... }]. *)
Definition finally {A} (m : M A) (cleanup : M unit) : M A := fun w =>
  match m w with
  | (r, w') =>
      match cleanup w' with
      | (inl e, w'') => (inl e, w'')
      | (inr _, w'') => (r, w'')
      end
  end.

(** The [try] block of [performAutoScan]. *)
Definition autoScanBody (now : Z) (stored : JsVal) (doc : Document) : M unit :=
  let '(autoScanEnabled, autoUnrestrict) := getPreferences stored in
  if negb autoScanEnabled
  then modify (set_isScanning false)
  else
    links <- scanPageForLinks now doc ;;
    if (0 <? Z.of_nat (List.length links))
    then
      reportLinksToBackground links ;;;
      if autoUnrestrict
      then autoUnrestrictLinks links ;;; ret tt
      else ret tt
    else ret tt.

Definition performAutoScan (now : Z) (stored : JsVal) (doc : Document)
    : M unit := fun w =>
  if isScanning (state w) then ret tt w
  else
    (modify (set_isScanning true) ;;;
     finally (try_catch (autoScanBody now stored doc) (fun _ => ret tt))
             (modify (set_isScanning false))) w.

(** The page and the stored preferences as they are at each instant. *)
Variable pageAt : Z -> Document.
Variable preferencesAt : Z -> JsVal.

(** The script, the browser, and the instants at which [performAutoScan]
    was called. *)
Record Sched : Type := mkSched {
  world : World;
  browser : Browser;
  scans : list Z
}.

Definition setTimeout (delay : Z) (b : Browser) : positive * Browser :=
  (nextTimer b,
   mkBrowser (clock b) (<[nextTimer b := clock b + delay]> (timers b))
             (Pos.succ (nextTimer b)) (observers b) (nextObserver b)).

Definition clearTimeout (id : positive) (b : Browser) : Browser :=
  mkBrowser (clock b) (delete id (timers b)) (nextTimer b)
            (observers b) (nextObserver b).

(** [new MutationObserver(...)] followed by [observe]. *)
Definition observe (b : Browser) : positive * Browser :=
  (nextObserver b,
   mkBrowser (clock b) (timers b) (nextTimer b)
             ({[nextObserver b]} ∪ observers b) (Pos.succ (nextObserver b))).

Definition disconnect (id : positive) (b : Browser) : Browser :=
  mkBrowser (clock b) (timers b) (nextTimer b)
            (observers b ∖ {[id]}) (nextObserver b).

Definition with_state (f : State -> State) (s : Sched) : Sched :=
  mkSched (mkWorld (f (state (world s))) (trace (world s)))
          (browser s) (scans s).

Definition with_browser (f : Browser -> Browser) (s : Sched) : Sched :=
  mkSched (world s) (f (browser s)) (scans s).

(** A call of [performAutoScan()] at the current instant. The script runs
    on one thread; a scan suspended at an [await] holds [isScanning], so no
    other scan runs meanwhile, and a scan touches neither the timers nor the
    observer. A scan is therefore run here from its first statement to its
    last before the next input is handled. *)
Definition callPerformAutoScan (s : Sched) : Sched :=
  let now := clock (browser s) in
  mkSched (snd (performAutoScan now (preferencesAt now) (pageAt now) (world s)))
          (browser s) (scans s ++ [now]).

Definition triggerScan (s : Sched) : Sched :=
  let s1 :=
    match scanTimeout (state (world s)) with
    | Some id => with_browser (clearTimeout id) s
    | None => s
    end in
  let '(id, b) := setTimeout SCAN_DEBOUNCE_MS (browser s1) in
  with_state (set_scanTimeout (Some id)) (with_browser (fun _ => b) s1).

(** The callback of the mutation observer; [mutations] holds
    [addedNodes.length] of each record. *)
Definition observerCallback (mutations : list nat) (s : Sched) : Sched :=
  if existsb (fun added => (0 <? added)%nat) mutations
  then triggerScan s
  else s.

(** [initAutoScan] once its [getPreferences] has answered with [stored]. *)
Definition initAutoScan (stored : JsVal) (s : Sched) : Sched :=
  let '(autoScanEnabled, _) := getPreferences stored in
  if autoScanEnabled
  then
    let s1 := callPerformAutoScan s in
    match observer (state (world s1)) with
    | Some _ => s1
    | None =>
        let '(id, b) := observe (browser s1) in
        with_state (set_observer (Some id)) (with_browser (fun _ => b) s1)
    end
  else
    let s1 :=
      match observer (state (world s)) with
      | Some id =>
          with_state (set_observer None) (with_browser (disconnect id) s)
      | None => s
      end in
    match scanTimeout (state (world s1)) with
    | Some id =>
        with_state (set_scanTimeout None) (with_browser (clearTimeout id) s1)
    | None => s1
    end.

(** The listener of [chrome.storage.onChanged]. *)
Definition onStorageChanged (areaName : string) (changesPreferences : bool)
    (stored : JsVal) (s : Sched) : Sched :=
  if String.eqb areaName "sync" && changesPreferences
  then initAutoScan stored s
  else s.

(** The listener of [SCAN_PAGE_LINKS]. *)
Definition onScanRequest (s : Sched) : Sched :=
  let now := clock (browser s) in
  match scanPageForLinks now (pageAt now) (world s) with
  | (inr links, w) =>
      mkSched (snd (reportLinksToBackground links w)) (browser s) (scans s)
  | (inl _, w) => mkSched w (browser s) (scans s)
  end.

(** *** The event loop, on a virtual clock *)

(** Timers run by deadline, then by handle. *)
Definition timerBefore (x y : positive * Z) : Prop :=
  x.2 < y.2 ∨ (x.2 = y.2 ∧ (x.1 <= y.1)%positive).

#[local] Instance timerBefore_dec : RelDecision timerBefore.
Proof. intros x y. unfold timerBefore. apply _. Defined.

Definition dueTimers (t : Z) (b : Browser) : list (positive * Z) :=
  merge_sort timerBefore
    (filter (fun timer => timer.2 <= t) (map_to_list (timers b))).

(** A due timer runs its callback, [() => performAutoScan()], at its
    deadline. *)
Definition fireTimer (s : Sched) (timer : positive * Z) : Sched :=
  match timers (browser s) !! timer.1 with
  | Some deadline =>
      callPerformAutoScan
        (with_browser
           (fun b => mkBrowser (Z.max (clock b) deadline)
                               (delete timer.1 (timers b)) (nextTimer b)
                               (observers b) (nextObserver b)) s)
  | None => s
  end.

(** Let time pass until [t]. The callback arms no timer, so the timers due
    are those pending at the start. *)
Definition advanceTo (t : Z) (s : Sched) : Sched :=
  with_browser
    (fun b => mkBrowser (Z.max (clock b) t) (timers b) (nextTimer b)
                        (observers b) (nextObserver b))
    (foldl fireTimer s (dueTimers t (browser s))).

(** Every connected observer is told of the mutations. *)
Definition deliverMutations (mutations : list nat) (s : Sched) : Sched :=
  foldl (fun s' _ => observerCallback mutations s') s
        (elements (observers (browser s))).

(** What happens to the script, each at its instant. *)
Inductive Input : Type :=
| Mutations (t : Z) (mutations : list nat)
| StorageChanged (t : Z) (areaName : string) (changesPreferences : bool)
                 (stored : JsVal)
| ScanRequest (t : Z)
| Elapse (t : Z).

Definition handle (s : Sched) (i : Input) : Sched :=
  match i with
  | Mutations t mutations => deliverMutations mutations (advanceTo t s)
  | StorageChanged t areaName changesPreferences stored =>
      onStorageChanged areaName changesPreferences stored (advanceTo t s)
  | ScanRequest t => onScanRequest (advanceTo t s)
  | Elapse t => advanceTo t s
  end.

Definition run (inputs : list Input) (s : Sched) : Sched :=
  foldl handle s inputs.

(** The script is loaded at instant [t0] into a browser that holds nothing
    of it yet; its last statement is [initAutoScan()]. *)
Definition freshBrowser (t0 : Z) : Browser := mkBrowser t0 ∅ 1%positive ∅ 1%positive.

Definition load (t0 : Z) (stored : JsVal) : Sched :=
  initAutoScan stored
    (mkSched (mkWorld initialState []) (freshBrowser t0) []).

(** ** Vocabulary of the statements *)

(** The cache answers at [now]: it holds a list younger than the TTL. *)
Definition cacheFresh (now : Z) (st : State) : bool :=
  match cachedHostsRegex st with
  | Some _ => now - cachedHostsRegexTimestamp st <? CACHE_TTL
  | None => false
  end.

(** A reply from which no pattern list comes: a remote error, no success,
    no data, or data from which some pattern does not compile. *)
Definition replyFails (reply : HostsReply) : Prop :=
  lastError reply = true
  ∨ truthy (optProp (response reply) "success") = false
  ∨ truthy (optProp (response reply) "data") = false
  ∨ ∃ e, mapPatterns (optProp (response reply) "data") = inl e.

(** A fetch was made between [w] and [w']: one [GET_HOSTS_REGEX] exchange
    more in the log. *)
Definition fetched (w w' : World) : Prop :=
  trace w' = trace w ++ [GET_HOSTS_REGEX (hostsReply (trace w))].

(** An anchor the loop does not skip for being empty or a script link. *)
Definition eligibleAnchor (href : string) : bool :=
  negb (String.eqb href EmptyString) && negb (startsWith href "javascript:").

(** The link an anchor is reported as. *)
Definition anchorLink (patterns : list RegExp)
    (cache : gmap string UnrestrictedLink) (href : string) : DetectedLink :=
  if startsWith href "magnet:"
  then mkLink href "magnet" magnet None
  else mkLink href (extractHost href) hoster (cache !! href).

(** The link a URL found in text is reported as. *)
Definition textLink (cache : gmap string UnrestrictedLink) (u : string)
    : DetectedLink :=
  mkLink u (extractHost u) hoster (cache !! u).

(** The URLs the walker finds in the text it visits, as matched, in
    order, repeats kept; and the same once cleaned. *)
Definition rawTextUrls (nodes : list TextNode) : list string :=
  flat_map
    (fun node =>
       if acceptNode node then extractUrlsFromText (nodeValue node) else [])
    nodes.

Definition textUrls (doc : Document) : list string :=
  cleanTrailing <$> rawTextUrls (textNodes doc).

(** [u] is in the page as a magnet or hoster anchor, or as a hoster URL in
    text. *)
Definition detected (patterns : list RegExp) (doc : Document) (u : string)
    : Prop :=
  (u ∈ anchors doc ∧ eligibleAnchor u = true
   ∧ (startsWith u "magnet:" = true ∨ matchesHosterPattern u patterns = true))
  ∨ (u ∈ textUrls doc ∧ matchesHosterPattern u patterns = true).

(** How many links of a list carry the URL [u]. *)
Definition reports (u : string) (links : list DetectedLink) : nat :=
  List.length (filter (fun l : DetectedLink => url l = u) links).

(** What holds of [seenUrls] and [detectedLinks] in the anchor loop once the
    anchors [hs] are done. *)
Definition anchorsInv (patterns : list RegExp)
    (cache : gmap string UnrestrictedLink) (hs : list string)
    (acc : gset string * list DetectedLink) : Prop :=
  NoDup (url <$> acc.2)
  ∧ (∀ u, u ∈ acc.1 ↔ u ∈ hs ∧ eligibleAnchor u = true)
  ∧ (∀ l, l ∈ acc.2 ->
       url l ∈ acc.1 ∧ l = anchorLink patterns cache (url l)
       ∧ (startsWith (url l) "magnet:" = true
          ∨ matchesHosterPattern (url l) patterns = true))
  ∧ (∀ u, u ∈ acc.1 ->
       startsWith u "magnet:" = true ∨ matchesHosterPattern u patterns = true ->
       u ∈ url <$> acc.2).

(** The same for the text walk once the matches [raws] are done. *)
Definition textInv (patterns : list RegExp)
    (cache : gmap string UnrestrictedLink) (raws : list string)
    (acc : gset string * list DetectedLink) : Prop :=
  (∀ u, u ∈ acc.1 ↔ u ∈ url <$> acc.2)
  ∧ (∀ l, l ∈ acc.2 ->
       l = textLink cache (url l)
       ∧ matchesHosterPattern (url l) patterns = true
       ∧ url l ∈ cleanTrailing <$> raws)
  ∧ (∀ raw, raw ∈ raws ->
       matchesHosterPattern (cleanTrailing raw) patterns = true ->
       cleanTrailing raw ∈ url <$> acc.2).

(** And for the merge of the text links [done] into what the anchor loop
    left, [seenA] and [linksA]. *)
Definition mergeInv (seenA : gset string) (linksA : list DetectedLink)
    (done : list DetectedLink) (acc : gset string * list DetectedLink) : Prop :=
  NoDup (url <$> acc.2)
  ∧ (∀ u, u ∈ acc.1 ↔ u ∈ seenA ∨ u ∈ url <$> acc.2)
  ∧ (∀ l, l ∈ acc.2 -> l ∈ linksA ∨ (l ∈ done ∧ url l ∉ seenA))
  ∧ (∀ l, l ∈ linksA -> l ∈ acc.2)
  ∧ (∀ l, l ∈ done -> url l ∈ seenA ∨ url l ∈ url <$> acc.2).

(** The URLs of the [UNRESTRICT_LINK] exchanges of a log, in order. *)
Fixpoint unrestrictCalls (tr : list Event) : list string :=
  match tr with
  | [] => []
  | UNRESTRICT_LINK u _ :: rest => u :: unrestrictCalls rest
  | _ :: rest => unrestrictCalls rest
  end.

Definition isUnrestrict (ev : Event) : Prop :=
  match ev with
  | UNRESTRICT_LINK _ _ => True
  | _ => False
  end.

(** The result a reply to [UNRESTRICT_LINK] brings, if it brings one: the
    promise resolved, to a value with a truthy [success] and a truthy
    [data]. *)
Definition unrestrictData (r : SendResult) : option UnrestrictedLink :=
  match r with
  | SendRejected => None
  | SendResolved result =>
      match getProp result "success" with
      | inl _ => None
      | inr success =>
          if truthy success && truthy (optProp result "data")
          then Some (optProp result "data")
          else None
      end
  end.

Definition withResult (link : DetectedLink) (data : UnrestrictedLink)
    : DetectedLink :=
  mkLink (url link) (host link) (type link) (Some data).

(** The world once the call for [u] has been made from [w]. *)
Definition afterCall (u : string) (w : World) : World :=
  mkWorld (add_processed u (state w))
          (trace w ++ [UNRESTRICT_LINK u (unrestrictReply (trace w) u)]).

Definition afterSuccess (u : string) (data : UnrestrictedLink) (w : World)
    : World :=
  mkWorld (cache_unrestricted u data (state (afterCall u w)))
          (trace (afterCall u w)).

(** No URL was sent twice to the unrestrict service, every URL sent is
    marked as processed, and so is every URL with a cached result. *)
Definition sessionInv (w : World) : Prop :=
  NoDup (unrestrictCalls (trace w))
  ∧ (∀ u, u ∈ unrestrictCalls (trace w) -> u ∈ processedLinks (state w))
  ∧ ∀ u, is_Some (unrestrictedCache (state w) !! u) ->
         u ∈ processedLinks (state w).

(** The exchanges made between [w] and [w']. *)
Definition newEvents (w w' : World) : list Event :=
  drop (List.length (trace w)) (trace w').

(** The runs of the loop of [autoUnrestrictLinks]: from a list, the flag
    and a world to the list, the flag and the world afterwards. *)
Inductive LoopRun :
  list DetectedLink -> bool -> World ->
  list DetectedLink -> bool -> World -> Prop :=
| run_done hasNew w :
    LoopRun [] hasNew w [] hasNew w
| run_magnet link rest hasNew w rest' hasNew' w' :
    type link = magnet ->
    LoopRun rest hasNew w rest' hasNew' w' ->
    LoopRun (link :: rest) hasNew w (link :: rest') hasNew' w'
| run_skip link rest hasNew w rest' hasNew' w' :
    type link = hoster ->
    url link ∈ processedLinks (state w) ->
    LoopRun rest hasNew w rest' hasNew' w' ->
    LoopRun (link :: rest) hasNew w (link :: rest') hasNew' w'
| run_success link rest hasNew w data rest' hasNew' w' :
    type link = hoster ->
    url link ∉ processedLinks (state w) ->
    unrestrictData (unrestrictReply (trace w) (url link)) = Some data ->
    LoopRun rest true (afterSuccess (url link) data w) rest' hasNew' w' ->
    LoopRun (link :: rest) hasNew w (withResult link data :: rest') hasNew' w'
| run_failure link rest hasNew w rest' hasNew' w' :
    type link = hoster ->
    url link ∉ processedLinks (state w) ->
    unrestrictData (unrestrictReply (trace w) (url link)) = None ->
    LoopRun rest hasNew (afterCall (url link) w) rest' hasNew' w' ->
    LoopRun (link :: rest) hasNew w (link :: rest') hasNew' w'.

(** Some call among [evs] brought a result. *)
Definition gained (evs : list Event) : Prop :=
  ∃ u r data, UNRESTRICT_LINK u r ∈ evs ∧ unrestrictData r = Some data.

(** The world in which the [try] block of the loop starts for a link that
    was not processed: the link is marked, nothing is sent yet. *)
Definition marked (u : string) (w : World) : World :=
  mkWorld (add_processed u (state w)) (trace w).

(** What the scan and the reports leave alone: the scheduler's variables,
    the session sets, and the calls of the log. *)
Definition scanFrame (w w' : World) : Prop :=
  scanTimeout (state w') = scanTimeout (state w)
  ∧ observer (state w') = observer (state w)
  ∧ isScanning (state w') = isScanning (state w)
  ∧ processedLinks (state w') = processedLinks (state w)
  ∧ unrestrictedCache (state w') = unrestrictedCache (state w)
  ∧ unrestrictCalls (trace w') = unrestrictCalls (trace w).

Definition scanning (b : bool) (w : World) : World :=
  mkWorld (set_isScanning b (state w)) (trace w).

Definition reported (links : list DetectedLink) (w : World) : World :=
  mkWorld (state w) (trace w ++ [REPORT_DETECTED_LINKS links]).

(** The timers and observers of the browser are those the script holds in
    [scanTimeout] and [observer]. *)
Definition schedInv (s : Sched) : Prop :=
  (∀ id d, timers (browser s) !! id = Some d ->
           scanTimeout (state (world s)) = Some id)
  ∧ (∀ id, id ∈ observers (browser s) <->
           observer (state (world s)) = Some id).

(** What holds of every state the script can be in. *)
Definition reachInv (s : Sched) : Prop :=
  schedInv s ∧ sessionInv (world s).

(** A burst of change notifications: each comes with its instant and its
    mutation records. *)
Definition notifications (burst : list (Z * list nat)) : list Input :=
  map (fun n => Mutations n.1 n.2) burst.

Definition addsNodes (mutations : list nat) : Prop :=
  existsb (fun added => (0 <? added)%nat) mutations = true.

(** Each notification adds nodes and comes less than a debounce interval
    after the one before, the first of them after [t]. *)
Fixpoint withinWindow (t : Z) (burst : list (Z * list nat)) : Prop :=
  match burst with
  | [] => True
  | n :: rest =>
      t <= n.1 < t + SCAN_DEBOUNCE_MS ∧ addsNodes n.2 ∧ withinWindow n.1 rest
  end.

Fixpoint lastNotification (t : Z) (burst : list (Z * list nat)) : Z :=
  match burst with
  | [] => t
  | n :: rest => lastNotification n.1 rest
  end.

(** The debounce timer was armed at [t], an observer is connected, and
    nothing else is pending. *)
Definition armed (t : Z) (s : Sched) : Prop :=
  schedInv s
  ∧ clock (browser s) = t
  ∧ (∃ id, timers (browser s) = {[id := t + SCAN_DEBOUNCE_MS]})
  ∧ ∃ o, observer (state (world s)) = Some o.

(** Every character of [s] satisfies [f]. *)
Fixpoint allChars (f : ascii -> bool) (s : string) : bool :=
  match s with
  | EmptyString => true
  | String c rest => f c && allChars f rest
  end.

Fixpoint lastChar (s : string) : option ascii :=
  match s with
  | EmptyString => None
  | String c EmptyString => Some c
  | String _ rest => lastChar rest
  end.

(** A reply from which the list [rs] comes. *)
Definition replyOk (reply : HostsReply) (rs : list RegExp) : Prop :=
  lastError reply = false
  ∧ truthy (optProp (response reply) "success") = true
  ∧ truthy (optProp (response reply) "data") = true
  ∧ mapPatterns (optProp (response reply) "data") = inr rs.

(** [r] is what the wire-format pattern [x] compiles to. *)
Definition compilesTo (x : JsVal) (r : RegExp) : Prop :=
  ∃ p, x = JStr p ∧ newRegExp (stripDelimiters p) = Some r.

(** What the URL regex can match: a scheme that is [http] or [https] up to
    case, a colon and two slashes, and at least one more character, none of
    the characters being white space, an angle bracket or a quote. *)
Definition httpUrl (m : string) : Prop :=
  allChars isUrlChar m = true
  ∧ ∃ scheme rest,
      m = scheme +:+ "://" +:+ rest
      ∧ (lowerString scheme = "http" ∨ lowerString scheme = "https")
      ∧ rest ≠ EmptyString.


(** What every link of a scan result is like. *)
Definition wellFormed (patterns : list RegExp)
    (cache : gmap string UnrestrictedLink) (l : DetectedLink) : Prop :=
  url l ≠ EmptyString
  ∧ startsWith (url l) "javascript:" = false
  ∧ host l = extractHost (url l)
  ∧ (type l = magnet ↔ startsWith (url l) "magnet:" = true)
  ∧ (type l = magnet -> unrestrictedLink l = None)
  ∧ (type l = hoster ->
     matchesHosterPattern (url l) patterns = true
     ∧ unrestrictedLink l = cache !! url l).

(** A link with what [cache] holds for it: a hoster link carries the entry
    of its URL, a magnet link is as it is. *)
Definition relink (cache : gmap string UnrestrictedLink) (l : DetectedLink)
    : DetectedLink :=
  match type l with
  | hoster => mkLink (url l) (host l) hoster (cache !! url l)
  | magnet => l
  end.

(** The URLs of the hoster links of a list, in order. *)
Definition hosterUrls (links : list DetectedLink) : list string :=
  url <$> filter (fun l : DetectedLink => type l = hoster) links.

(** A link after a pass of the loop: the same link, with a result or as it
    was. *)
Definition sameLink (l l' : DetectedLink) : Prop :=
  url l' = url l ∧ host l' = host l ∧ type l' = type l
  ∧ (type l = magnet -> l' = l)
  ∧ (l' = l ∨ ∃ data, l' = withResult l data).

(** Two accumulators of a scan loop that differ by the cache only. *)
Definition relinked (cache : gmap string UnrestrictedLink)
    (acc acc' : gset string * list DetectedLink) : Prop :=
  acc' = (acc.1, relink cache <$> acc.2).

(** An exchange that asks for the patterns. *)
Definition isHostsRequest (ev : Event) : Prop :=
  match ev with
  | GET_HOSTS_REGEX _ => True
  | _ => False
  end.

(** An input that does not switch auto-scan on: anything but a change of
    the preferences in the [sync] area. *)
Definition keepsPreferences (i : Input) : Prop :=
  match i with
  | StorageChanged _ areaName changesPreferences _ =>
      String.eqb areaName "sync" && changesPreferences = false
  | _ => True
  end.

(** Where a match of the URL regex has to stop: at the end of the text or
    at a character outside the class. *)
Definition urlStops (tail : string) : Prop :=
  match tail with
  | EmptyString => True
  | String c _ => isUrlChar c = false
  end.

(** The session only grows from [w] to [w']: the processed set and the
    unrestrict cache keep what they hold, the log is continued. *)
Definition grows (w w' : World) : Prop :=
  processedLinks (state w) ⊆ processedLinks (state w')
  ∧ unrestrictedCache (state w) ⊆ unrestrictedCache (state w')
  ∧ trace w `prefix_of` trace w'.

(** An exchange that, if it is a report, carries no URL twice. *)
Definition reportOk (ev : Event) : Prop :=
  match ev with
  | REPORT_DETECTED_LINKS links => NoDup (url <$> links)
  | _ => True
  end.

(** * Properties *)

Ltac unfold_M :=
  unfold bind, ret, lift, modify, emit, try_catch, throw in *; simpl in *.

(** [tauto] on the propositions only: the functions of the context are no
    implications to reason with. *)
Ltac taut :=
  repeat match goal with
         | f : ?A -> _ |- _ =>
             lazymatch type of A with
             | Prop => fail
             | _ => clear f
             end
         end;
  tauto.

(** Induction on a run of the loop of [autoUnrestrictLinks], with the
    names the proofs below use. *)
Ltac loop_induction H :=
  induction H as [h w|l rest h w rest' h' w' Ht Hrun IH
                 |l rest h w rest' h' w' Ht Hin Hrun IH
                 |l rest h w d rest' h' w' Ht Hin Hd Hrun IH
                 |l rest h w rest' h' w' Ht Hin Hd Hrun IH].

(** ** Pattern cache *)

Lemma mapThrow_bad {A B} (f : A -> Exn + B) (xs : list A) (x : A) (e : Exn) :
  In x xs -> f x = inl e -> ∃ e', mapThrow f xs = inl e'.
Proof.
  induction xs as [|y ys IH]; intros Hin Hx; [destruct Hin|].
  simpl. destruct (f y) as [e1|b] eqn:Hy; [eauto|].
  destruct Hin as [->|Hin]; [congruence|].
  destruct (IH Hin Hx) as [e' ->]. eauto.
Qed.

(** One pattern that does not compile spoils the batch. *)
Lemma bad_pattern_fails (reply : HostsReply) (xs : list JsVal) (bad : string) :
  optProp (response reply) "data" = JArr xs ->
  In (JStr bad) xs ->
  newRegExp (stripDelimiters bad) = None ->
  replyFails reply.
Proof.
  intros Hdata Hin Hbad. do 3 right. rewrite Hdata. simpl.
  apply (mapThrow_bad compilePattern xs (JStr bad) SyntaxError Hin).
  simpl. now rewrite Hbad.
Qed.

Lemma hostsCallback_fails (now : Z) (reply : HostsReply) (w : World) :
  replyFails reply -> hostsCallback now reply w = (inr [], w).
Proof.
  intros Hfail. unfold hostsCallback.
  destruct (lastError reply) eqn:Herr; [reflexivity|].
  destruct (truthy (optProp (response reply) "success")) eqn:Hs; [|reflexivity].
  destruct (truthy (optProp (response reply) "data")) eqn:Hd; [|reflexivity].
  simpl.
  destruct Hfail as [?|[?|[?|[e He]]]]; try congruence.
  unfold_M. now rewrite He.
Qed.

Lemma hostsCallback_total (now : Z) (reply : HostsReply) (w : World) :
  ∃ ps w', hostsCallback now reply w = (inr ps, w').
Proof.
  unfold hostsCallback.
  destruct (_ || _ || _); [unfold ret; eauto|].
  unfold_M. destruct (mapPatterns _); eauto.
Qed.

Lemma getHostsRegex_stale (now : Z) (w : World) :
  cacheFresh now (state w) = false ->
  getHostsRegex now w = fetchHostsRegex now w.
Proof.
  unfold cacheFresh, getHostsRegex.
  destruct (cachedHostsRegex (state w)); [|reflexivity].
  now intros ->.
Qed.

Lemma fetchHostsRegex_callback (now : Z) (w : World) :
  fetchHostsRegex now w =
  hostsCallback now (hostsReply (trace w))
    (mkWorld (state w) (trace w ++ [GET_HOSTS_REGEX (hostsReply (trace w))])).
Proof. reflexivity. Qed.

Lemma getHostsRegex_total (now : Z) (w : World) :
  ∃ ps w', getHostsRegex now w = (inr ps, w').
Proof.
  unfold getHostsRegex.
  destruct (cachedHostsRegex (state w)) as [cached|].
  - destruct (_ <? _); [unfold ret; eauto|].
    rewrite fetchHostsRegex_callback. apply hostsCallback_total.
  - rewrite fetchHostsRegex_callback. apply hostsCallback_total.
Qed.

Lemma getHostsRegex_failure (now : Z) (w : World) :
  cacheFresh now (state w) = false ->
  replyFails (hostsReply (trace w)) ->
  getHostsRegex now w =
    (inr [], mkWorld (state w)
               (trace w ++ [GET_HOSTS_REGEX (hostsReply (trace w))])).
Proof.
  intros Hstale Hfail.
  rewrite (getHostsRegex_stale _ _ Hstale), fetchHostsRegex_callback.
  now apply hostsCallback_fails.
Qed.

(** C2. [getHostsRegex] never throws: whatever the reply, it resolves to a
    list; when the fetch is made and the reply is a failure (remote error,
    no success, no data, a pattern that does not compile) the list is empty
    and the state is as before; one pattern that does not compile among the
    data is such a failure. *)
Theorem getHostsRegex_never_fails (now : Z) (w : World) :
  (∃ ps w', getHostsRegex now w = (inr ps, w'))
  ∧ (cacheFresh now (state w) = false ->
     replyFails (hostsReply (trace w)) ->
     getHostsRegex now w =
       (inr [], mkWorld (state w)
                  (trace w ++ [GET_HOSTS_REGEX (hostsReply (trace w))])))
  ∧ (∀ (xs : list JsVal) (bad : string),
       optProp (response (hostsReply (trace w))) "data" = JArr xs ->
       In (JStr bad) xs ->
       newRegExp (stripDelimiters bad) = None ->
       replyFails (hostsReply (trace w))).
Proof.
  split; [apply getHostsRegex_total|]. split.
  - apply getHostsRegex_failure.
  - intros xs bad. apply bad_pattern_fails.
Qed.

(** C3. With a list recorded at [T], a call at [T + TTL - 1] gives that list
    and makes no exchange; a call at [T + TTL + 1] makes a fetch. *)
Theorem ttl_expiry (T : Z) (w : World) (ps : list RegExp) :
  cachedHostsRegex (state w) = Some ps ->
  cachedHostsRegexTimestamp (state w) = T ->
  getHostsRegex (T + CACHE_TTL - 1) w = (inr ps, w)
  ∧ fetched w (snd (getHostsRegex (T + CACHE_TTL + 1) w)).
Proof.
  intros Hc Ht. split.
  - unfold getHostsRegex. rewrite Hc, Ht.
    replace (T + CACHE_TTL - 1 - T <? CACHE_TTL) with true
      by (symmetry; apply Z.ltb_lt; lia).
    reflexivity.
  - rewrite getHostsRegex_stale.
    + rewrite fetchHostsRegex_callback. unfold fetched.
      destruct (hostsCallback_total (T + CACHE_TTL + 1) (hostsReply (trace w))
                  (mkWorld (state w)
                     (trace w ++ [GET_HOSTS_REGEX (hostsReply (trace w))])))
        as (qs & w' & Hcb).
      rewrite Hcb. simpl.
      revert Hcb. unfold hostsCallback.
      destruct (_ || _ || _); unfold_M.
      * now intros [= _ <-].
      * destruct (mapPatterns _); now intros [= _ <-].
    + unfold cacheFresh. rewrite Hc, Ht. apply Z.ltb_ge. lia.
Qed.

(** C10. A refresh that fails changes nothing but the log: the caller gets
    the empty list, the cached list and its timestamp are as before, and a
    later call fetches again. *)
Theorem failed_refresh_keeps_cache (now now' : Z) (w : World) :
  cacheFresh now (state w) = false ->
  replyFails (hostsReply (trace w)) ->
  now <= now' ->
  fst (getHostsRegex now w) = inr []
  ∧ state (snd (getHostsRegex now w)) = state w
  ∧ cachedHostsRegex (state (snd (getHostsRegex now w)))
    = cachedHostsRegex (state w)
  ∧ cachedHostsRegexTimestamp (state (snd (getHostsRegex now w)))
    = cachedHostsRegexTimestamp (state w)
  ∧ fetched (snd (getHostsRegex now w))
            (snd (getHostsRegex now' (snd (getHostsRegex now w)))).
Proof.
  intros Hstale Hfail Hle.
  rewrite (getHostsRegex_failure now w Hstale Hfail). simpl.
  repeat split.
  set (w1 := mkWorld _ _).
  assert (Hstale' : cacheFresh now' (state w1) = false).
  { subst w1. simpl. revert Hstale. unfold cacheFresh.
    destruct (cachedHostsRegex (state w)); [|reflexivity].
    rewrite !Z.ltb_ge. lia. }
  rewrite (getHostsRegex_stale _ _ Hstale'), fetchHostsRegex_callback.
  unfold fetched.
  destruct (hostsCallback_total now' (hostsReply (trace w1))
              (mkWorld (state w1)
                 (trace w1 ++ [GET_HOSTS_REGEX (hostsReply (trace w1))])))
    as (qs & w' & Hcb).
  rewrite Hcb. simpl. revert Hcb. unfold hostsCallback.
  destruct (_ || _ || _); unfold_M.
  - now intros [= _ <-].
  - destruct (mapPatterns _); now intros [= _ <-].
Qed.

(** ** Link extraction *)

Lemma foldl_invariant {A B} (P : list B -> A -> Prop) (f : A -> B -> A)
    (a : A) (l : list B) :
  P [] a ->
  (∀ pre x acc, P pre acc -> P (pre ++ [x]) (f acc x)) ->
  P l (foldl f a l).
Proof.
  intros H0 Hstep.
  cut (∀ pre acc, P pre acc -> P (pre ++ l) (foldl f acc l)).
  { intros H. apply (H [] a H0). }
  induction l as [|x l IH]; intros pre acc Hacc; simpl.
  - now rewrite app_nil_r.
  - replace (pre ++ x :: l) with ((pre ++ [x]) ++ l)
      by now rewrite <- app_assoc.
    apply IH, Hstep, Hacc.
Qed.

Lemma startsWith_cons (c a : ascii) (rest p : string) :
  startsWith (String c rest) (String a p) = Ascii.eqb a c && startsWith rest p.
Proof.
  unfold startsWith. cbn [String.prefix].
  destruct (ascii_dec a c) as [->|Hne].
  - now rewrite Ascii.eqb_refl.
  - apply Ascii.eqb_neq in Hne. now rewrite Hne.
Qed.

Lemma startsWith_magnet (href : string) :
  startsWith href "magnet:" = true -> eligibleAnchor href = true.
Proof.
  unfold eligibleAnchor.
  destruct href as [|c rest]; [intros H; discriminate H|].
  rewrite !startsWith_cons.
  intros H. apply andb_true_iff in H as [Hc _].
  apply Ascii.eqb_eq in Hc. subst c. reflexivity.
Qed.

Lemma matchUrlAt_head (s m : string) :
  matchUrlAt s = Some m ->
  ∃ c rest, m = String c rest ∧ eqbNoCase c "h" "H" = true.
Proof.
  unfold matchUrlAt.
  destruct s as [|h [|t1 [|t2 [|p rest]]]]; try discriminate.
  destruct (eqbNoCase h "h" "H") eqn:Hh; simpl; [|discriminate].
  destruct (_ && _); [|discriminate].
  destruct rest as [|c rest']; [discriminate|].
  destruct (eqbNoCase c "s" "S").
  - destruct (matchColonSlashes rest'); intros [= <-]; eauto.
  - destruct (matchColonSlashes (String c rest')); intros [= <-]; eauto.
Qed.

Lemma matchAllUrls_matched (text : string) (skip : nat) (m : string) :
  m ∈ matchAllUrls skip text -> ∃ s, matchUrlAt s = Some m.
Proof.
  revert skip. induction text as [|c rest IH]; intros skip;
    cbn [matchAllUrls].
  - intros H. inversion H.
  - destruct skip as [|k]; [|apply IH].
    destruct (matchUrlAt (String c rest)) as [m'|] eqn:Hm; [|apply IH].
    rewrite elem_of_cons. intros [->|H]; [eauto|]. eapply IH, H.
Qed.

Lemma stripTrailing_idem (s : string) :
  stripTrailing (fst (stripTrailing s)) = stripTrailing s.
Proof.
  induction s as [|c rest IH]; [reflexivity|].
  simpl. destruct (stripTrailing rest) as [rest' allPunct] eqn:Hrest.
  destruct (allPunct && isTrailingPunct c) eqn:Hc; [reflexivity|].
  simpl in *. now rewrite IH, Hc.
Qed.

Lemma cleanTrailing_idem (u : string) :
  cleanTrailing (cleanTrailing u) = cleanTrailing u.
Proof. unfold cleanTrailing. now rewrite stripTrailing_idem. Qed.

(** A URL found in text never starts with the magnet scheme. *)
Lemma text_url_not_magnet (text raw : string) :
  raw ∈ extractUrlsFromText text ->
  startsWith (cleanTrailing raw) "magnet:" = false.
Proof.
  intros Hin. apply matchAllUrls_matched in Hin as [s Hs].
  apply matchUrlAt_head in Hs as (c & rest & -> & Hc).
  unfold cleanTrailing. cbn [stripTrailing].
  destruct (stripTrailing rest) as [rest' allPunct].
  unfold eqbNoCase in Hc. apply orb_true_iff in Hc.
  destruct Hc as [Hc|Hc]; apply Ascii.eqb_eq in Hc; subst c;
    rewrite andb_false_r; cbn [fst]; now rewrite startsWith_cons.
Qed.

Lemma anchorsInv_skip (patterns : list RegExp)
    (cache : gmap string UnrestrictedLink) (hs : list string) (href : string)
    (acc : gset string * list DetectedLink) :
  anchorsInv patterns cache hs acc ->
  (eligibleAnchor href = true -> href ∈ acc.1) ->
  anchorsInv patterns cache (hs ++ [href]) acc.
Proof.
  intros (Hnd & Hseen & Hlinks & Hall) Hskip.
  split; [exact Hnd|]. split; [|split; [exact Hlinks|exact Hall]].
  intros u. rewrite Hseen, elem_of_app, list_elem_of_singleton. split.
  - intros [? ?]. auto.
  - intros [[?| ->] He]; [auto|]. apply Hseen. auto.
Qed.

Lemma anchorsInv_see (patterns : list RegExp)
    (cache : gmap string UnrestrictedLink) (hs : list string) (href : string)
    (seen : gset string) (links : list DetectedLink) :
  anchorsInv patterns cache hs (seen, links) ->
  eligibleAnchor href = true ->
  startsWith href "magnet:" = false ->
  matchesHosterPattern href patterns = false ->
  anchorsInv patterns cache (hs ++ [href]) ({[href]} ∪ seen, links).
Proof.
  intros (Hnd & Hseen & Hlinks & Hall) Helig Hmag Hmatch. simpl in *.
  split; [exact Hnd|]. split; [|split]; simpl.
  - intros u. rewrite elem_of_union, elem_of_singleton, elem_of_app,
      list_elem_of_singleton, Hseen. split.
    + intros [->|[? ?]]; auto.
    + intros [[?| ->] ?]; auto.
  - intros l Hl. destruct (Hlinks l Hl) as (? & ? & ?).
    split; [apply elem_of_union; auto|auto].
  - intros u Hu Hd. apply elem_of_union in Hu as [Hu|Hu].
    + apply elem_of_singleton in Hu. subst u. destruct Hd; congruence.
    + now apply Hall.
Qed.

Lemma anchorsInv_push (patterns : list RegExp)
    (cache : gmap string UnrestrictedLink) (hs : list string) (href : string)
    (seen : gset string) (links : list DetectedLink) :
  anchorsInv patterns cache hs (seen, links) ->
  eligibleAnchor href = true ->
  href ∉ seen ->
  startsWith href "magnet:" = true
  ∨ matchesHosterPattern href patterns = true ->
  anchorsInv patterns cache (hs ++ [href])
    ({[href]} ∪ seen, links ++ [anchorLink patterns cache href]).
Proof.
  intros (Hnd & Hseen & Hlinks & Hall) Helig Hin Hdet. simpl in *.
  assert (Hurl : url (anchorLink patterns cache href) = href).
  { unfold anchorLink. now destruct (startsWith href "magnet:"). }
  split; [|split; [|split]]; simpl.
  - rewrite fmap_app. apply NoDup_app. split; [exact Hnd|]. split.
    + intros u Hu Hu'. simpl in Hu'. apply list_elem_of_singleton in Hu'.
      rewrite Hurl in Hu'. subst u.
      apply list_elem_of_fmap in Hu as (l & -> & Hl).
      apply Hin. now apply Hlinks.
    + simpl. apply NoDup_singleton.
  - intros u. rewrite elem_of_union, elem_of_singleton, elem_of_app,
      list_elem_of_singleton, Hseen. split.
    + intros [->|[? ?]]; auto.
    + intros [[?| ->] ?]; auto.
  - intros l Hl. apply elem_of_app in Hl as [Hl|Hl].
    + destruct (Hlinks l Hl) as (? & ? & ?).
      split; [apply elem_of_union; auto|auto].
    + apply list_elem_of_singleton in Hl. subst l. rewrite Hurl.
      split; [apply elem_of_union; left; now apply elem_of_singleton|auto].
  - intros u Hu Hd. rewrite fmap_app, elem_of_app.
    apply elem_of_union in Hu as [Hu|Hu].
    + apply elem_of_singleton in Hu. subst u. right. simpl.
      rewrite Hurl. now apply list_elem_of_singleton.
    + left. now apply Hall.
Qed.

Lemma scanAnchor_step (patterns : list RegExp)
    (cache : gmap string UnrestrictedLink) (hs : list string) (href : string)
    (acc : gset string * list DetectedLink) :
  anchorsInv patterns cache hs acc ->
  anchorsInv patterns cache (hs ++ [href]) (scanAnchor patterns cache acc href).
Proof.
  destruct acc as [seen links]. intros Hinv. unfold scanAnchor.
  destruct (String.eqb href EmptyString) eqn:Hempty; simpl.
  { apply anchorsInv_skip; [exact Hinv|].
    unfold eligibleAnchor. rewrite Hempty. intros H; discriminate H. }
  destruct (startsWith href "javascript:") eqn:Hjs; simpl.
  { apply anchorsInv_skip; [exact Hinv|].
    unfold eligibleAnchor. rewrite Hjs, andb_false_r. intros H; discriminate H. }
  assert (Helig : eligibleAnchor href = true).
  { unfold eligibleAnchor. now rewrite Hempty, Hjs. }
  case_bool_decide as Hin; simpl.
  { apply anchorsInv_skip; [exact Hinv|]. auto. }
  destruct (startsWith href "magnet:") eqn:Hmag.
  { pose proof (anchorsInv_push _ _ _ href _ _ Hinv Helig Hin) as Hp.
    unfold anchorLink in Hp. rewrite Hmag in Hp. apply Hp. auto. }
  destruct (matchesHosterPattern href patterns) eqn:Hmatch.
  { pose proof (anchorsInv_push _ _ _ href _ _ Hinv Helig Hin) as Hp.
    unfold anchorLink in Hp. rewrite Hmag in Hp. apply Hp. auto. }
  now apply anchorsInv_see.
Qed.

Lemma scanAnchors_inv (patterns : list RegExp)
    (cache : gmap string UnrestrictedLink) (hs : list string) :
  anchorsInv patterns cache hs (foldl (scanAnchor patterns cache) (∅, []) hs).
Proof.
  apply (foldl_invariant (anchorsInv patterns cache)).
  - split; [apply NoDup_nil_2|]. split; [|split]; simpl.
    + intros u. split; [set_solver|]. intros [H _]. inversion H.
    + intros l H. inversion H.
    + intros u H. set_solver.
  - intros pre x acc. apply scanAnchor_step.
Qed.

Lemma textInv_skip (patterns : list RegExp)
    (cache : gmap string UnrestrictedLink) (raws : list string) (raw : string)
    (acc : gset string * list DetectedLink) :
  textInv patterns cache raws acc ->
  (matchesHosterPattern (cleanTrailing raw) patterns = true ->
   cleanTrailing raw ∈ url <$> acc.2) ->
  textInv patterns cache (raws ++ [raw]) acc.
Proof.
  intros (Hseen & Hlinks & Hall) Hskip.
  split; [exact Hseen|]. split.
  - intros l Hl. destruct (Hlinks l Hl) as (? & ? & ?).
    split; [auto|]. split; [auto|].
    rewrite fmap_app. apply elem_of_app. auto.
  - intros r Hr Hm. apply elem_of_app in Hr as [Hr|Hr]; [now apply Hall|].
    apply list_elem_of_singleton in Hr. subst r. auto.
Qed.

Lemma scanTextUrl_step (patterns : list RegExp)
    (cache : gmap string UnrestrictedLink) (raws : list string) (raw : string)
    (acc : gset string * list DetectedLink) :
  textInv patterns cache raws acc ->
  textInv patterns cache (raws ++ [raw]) (scanTextUrl patterns cache acc raw).
Proof.
  destruct acc as [seen links]. intros Hinv. unfold scanTextUrl.
  destruct (decide (raw ∈ seen)) as [Hin|Hin].
  { apply textInv_skip; [exact Hinv|]. intros _.
    destruct Hinv as (Hseen & Hlinks & _). simpl in *.
    apply Hseen in Hin.
    pose proof Hin as Hin'.
    apply list_elem_of_fmap in Hin' as (l & Hraw & Hl).
    destruct (Hlinks l Hl) as (_ & _ & Hclean).
    apply list_elem_of_fmap in Hclean as (r & Hr & _).
    rewrite Hraw, Hr, cleanTrailing_idem, <- Hr, <- Hraw. exact Hin. }
  destruct (matchesHosterPattern (cleanTrailing raw) patterns) eqn:Hmatch.
  2:{ apply textInv_skip; [exact Hinv|].
      intros H. rewrite Hmatch in H. discriminate H. }
  destruct Hinv as (Hseen & Hlinks & Hall). simpl in *.
  split; [|split]; simpl.
  - intros u. rewrite elem_of_union, elem_of_singleton, fmap_app, elem_of_app,
      Hseen. simpl. rewrite list_elem_of_singleton. taut.
  - intros l Hl. rewrite fmap_app, elem_of_app.
    apply elem_of_app in Hl as [Hl|Hl].
    + destruct (Hlinks l Hl) as (? & ? & ?). auto.
    + apply list_elem_of_singleton in Hl. subst l. simpl.
      split; [reflexivity|]. split; [exact Hmatch|]. right.
      now apply list_elem_of_singleton.
  - intros r Hr Hm. rewrite fmap_app, elem_of_app.
    apply elem_of_app in Hr as [Hr|Hr]; [left; now apply Hall|].
    apply list_elem_of_singleton in Hr. subst r. right. simpl.
    now apply list_elem_of_singleton.
Qed.

Lemma rawTextUrls_snoc (pre : list TextNode) (node : TextNode) :
  rawTextUrls (pre ++ [node]) =
  rawTextUrls pre
    ++ (if acceptNode node then extractUrlsFromText (nodeValue node) else []).
Proof. unfold rawTextUrls. now rewrite flat_map_app; simpl; rewrite app_nil_r. Qed.

Lemma scanTextNode_step (patterns : list RegExp)
    (cache : gmap string UnrestrictedLink) (pre : list TextNode)
    (node : TextNode) (acc : gset string * list DetectedLink) :
  textInv patterns cache (rawTextUrls pre) acc ->
  textInv patterns cache (rawTextUrls (pre ++ [node]))
    (scanTextNode patterns cache acc node).
Proof.
  intros Hinv. rewrite rawTextUrls_snoc. unfold scanTextNode.
  destruct (acceptNode node); simpl; [|now rewrite app_nil_r].
  destruct (String.eqb (nodeValue node) EmptyString) eqn:Hempty.
  { apply String.eqb_eq in Hempty. rewrite Hempty. simpl.
    now rewrite app_nil_r. }
  apply (foldl_invariant
           (fun us => textInv patterns cache (rawTextUrls pre ++ us))).
  - now rewrite app_nil_r.
  - intros us u acc' Hacc. rewrite app_assoc. now apply scanTextUrl_step.
Qed.

Lemma scanTextNodes_inv (patterns : list RegExp)
    (cache : gmap string UnrestrictedLink) (doc : Document) :
  textInv patterns cache (rawTextUrls (textNodes doc))
    (foldl (scanTextNode patterns cache) (∅, []) (textNodes doc)).
Proof.
  apply (foldl_invariant
           (fun nodes => textInv patterns cache (rawTextUrls nodes))).
  - split; [|split]; simpl.
    + intros u. split; intros H; [set_solver|inversion H].
    + intros l H. inversion H.
    + intros r H. inversion H.
  - intros pre node acc. apply scanTextNode_step.
Qed.

Lemma mergeTextLink_step (seenA : gset string) (linksA : list DetectedLink)
    (done : list DetectedLink) (link : DetectedLink)
    (acc : gset string * list DetectedLink) :
  mergeInv seenA linksA done acc ->
  mergeInv seenA linksA (done ++ [link]) (mergeTextLink acc link).
Proof.
  destruct acc as [seen links].
  intros (Hnd & Hin & Hsrc & HA & Hdone). simpl in *.
  unfold mergeTextLink.
  destruct (decide (url link ∈ seen)) as [Hseen|Hseen];
    (split; [|split; [|split; [|split]]]); simpl; auto.
  - intros l Hl. destruct (Hsrc l Hl) as [?|[? ?]]; [auto|].
    right. split; [apply elem_of_app|]; auto.
  - intros l Hl. apply elem_of_app in Hl as [Hl|Hl]; [auto|].
    apply list_elem_of_singleton in Hl. subst l. now apply Hin.
  - rewrite fmap_app. apply NoDup_app. split; [exact Hnd|]. split.
    + intros u Hu Hu'. simpl in Hu'. apply list_elem_of_singleton in Hu'.
      subst u. apply Hseen, Hin. auto.
    + simpl. apply NoDup_singleton.
  - intros u. rewrite elem_of_union, elem_of_singleton, fmap_app, elem_of_app,
      Hin. simpl. rewrite list_elem_of_singleton. taut.
  - intros l Hl. apply elem_of_app in Hl as [Hl|Hl].
    + destruct (Hsrc l Hl) as [?|[? ?]]; [auto|].
      right. split; [apply elem_of_app|]; auto.
    + apply list_elem_of_singleton in Hl. subst l. right.
      split; [apply elem_of_app; right; now apply list_elem_of_singleton|].
      intros HA'. apply Hseen, Hin. auto.
  - intros l Hl. apply elem_of_app. auto.
  - intros l Hl. rewrite fmap_app, elem_of_app.
    apply elem_of_app in Hl as [Hl|Hl].
    + destruct (Hdone l Hl); auto.
    + apply list_elem_of_singleton in Hl. subst l. right. right. simpl.
      now apply list_elem_of_singleton.
Qed.

Lemma reports_one (u : string) (links : list DetectedLink) :
  NoDup (url <$> links) -> u ∈ url <$> links -> reports u links = 1%nat.
Proof.
  unfold reports. induction links as [|l links IH]; simpl.
  - intros _ H. inversion H.
  - rewrite NoDup_cons, elem_of_cons. intros [Hl Hnd] Hu.
    rewrite filter_cons. destruct (decide (url l = u)) as [<-|Hne].
    + simpl. f_equal.
      clear IH Hu. induction links as [|l' links IH]; [reflexivity|].
      rewrite filter_cons. simpl in Hl. rewrite not_elem_of_cons in Hl.
      destruct Hl as [Hne Hl]. apply NoDup_cons in Hnd as [_ Hnd].
      destruct (decide (url l' = url l)); [congruence|]. now apply IH.
    + destruct Hu as [?|Hu]; [congruence|]. now apply IH.
Qed.

Lemma reports_none (u : string) (links : list DetectedLink) :
  u ∉ url <$> links -> reports u links = 0%nat.
Proof.
  unfold reports. induction links as [|l links IH]; [reflexivity|].
  simpl. rewrite not_elem_of_cons. intros [Hne Hu].
  rewrite filter_cons. destruct (decide (url l = u)); [congruence|].
  now apply IH.
Qed.

(** What a scan yields once the patterns are known. *)
Lemma scanDocument_spec (patterns : list RegExp)
    (cache : gmap string UnrestrictedLink) (doc : Document) :
  NoDup (url <$> scanDocument patterns cache doc)
  ∧ (∀ u, u ∈ url <$> scanDocument patterns cache doc
          ↔ detected patterns doc u)
  ∧ (∀ l, l ∈ scanDocument patterns cache doc ->
       (url l ∈ anchors doc ∧ eligibleAnchor (url l) = true
        ∧ l = anchorLink patterns cache (url l))
       ∨ (url l ∈ textUrls doc ∧ l = textLink cache (url l))).
Proof.
  unfold scanDocument, scanTextNodes.
  pose proof (scanAnchors_inv patterns cache (anchors doc)) as HA.
  pose proof (scanTextNodes_inv patterns cache doc) as HT.
  destruct (foldl (scanAnchor patterns cache) (∅, []) (anchors doc))
    as [seenA linksA].
  destruct (foldl (scanTextNode patterns cache) (∅, []) (textNodes doc))
    as [seenT textLinks].
  simpl.
  destruct HA as (HAnd & HAseen & HAlinks & HAall).
  destruct HT as (HTseen & HTlinks & HTall). simpl in *.
  assert (HM : mergeInv seenA linksA textLinks
                 (foldl mergeTextLink (seenA, linksA) textLinks)).
  { apply (foldl_invariant (mergeInv seenA linksA)).
    - split; [exact HAnd|]. split; [|split; [|split]]; simpl; auto.
      + intros u. split; [auto|]. intros [?|Hu]; [auto|].
        apply list_elem_of_fmap in Hu as (l & -> & Hl). now apply HAlinks.
      + intros l H. inversion H.
    - intros pre x acc. apply mergeTextLink_step. }
  destruct (foldl mergeTextLink (seenA, linksA) textLinks) as [seen links].
  destruct HM as (Hnd & Hin & Hsrc & Hkeep & Hdone). simpl in *.
  split; [exact Hnd|]. split.
  - intros u. split.
    + intros Hu. apply list_elem_of_fmap in Hu as (l & -> & Hl).
      destruct (Hsrc l Hl) as [HlA|[HlT _]].
      * destruct (HAlinks l HlA) as (Hs & _ & Hd). apply HAseen in Hs as [? ?].
        left. auto.
      * destruct (HTlinks l HlT) as (_ & Hm & Hc). right. auto.
    + intros [(Hu & He & Hd)|(Hu & Hm)].
      * assert (Hs : u ∈ seenA) by (apply HAseen; auto).
        pose proof (HAall u Hs Hd) as HuA.
        apply list_elem_of_fmap in HuA as (l & -> & Hl).
        apply list_elem_of_fmap. eauto.
      * unfold textUrls in Hu. apply list_elem_of_fmap in Hu as (raw & -> & Hraw).
        pose proof (HTall raw Hraw Hm) as HuT.
        apply list_elem_of_fmap in HuT as (l & Hurl & Hl).
        rewrite Hurl. destruct (Hdone l Hl) as [Hs|?]; [|auto].
        rewrite Hurl in Hm.
        pose proof (HAall _ Hs (or_intror Hm)) as HuA.
        apply list_elem_of_fmap in HuA as (l' & -> & Hl').
        apply list_elem_of_fmap. eauto.
  - intros l Hl. destruct (Hsrc l Hl) as [HlA|[HlT _]].
    + destruct (HAlinks l HlA) as (Hs & Heq & _). apply HAseen in Hs as [? ?].
      left. auto.
    + destruct (HTlinks l HlT) as (Heq & _ & Hc). right. auto.
Qed.


Lemma scanPageForLinks_eq (now : Z) (doc : Document) (w : World) :
  ∃ patterns w',
    getHostsRegex now w = (inr patterns, w')
    ∧ scanPageForLinks now doc w =
        (inr (scanDocument patterns (unrestrictedCache (state w')) doc), w').
Proof.
  destruct (getHostsRegex_total now w) as (ps & w' & Hg).
  exists ps, w'. split; [exact Hg|].
  unfold scanPageForLinks, bind. now rewrite Hg.
Qed.

(** C1. A full scan reports every URL it detects exactly once, and no
    other: the list has no two links with one URL, be the URL in an
    anchor, in text, or in both. *)
Theorem scan_reports_each_url_once (now : Z) (doc : Document) (w : World) :
  ∃ patterns links w',
    getHostsRegex now w = (inr patterns, w')
    ∧ scanPageForLinks now doc w = (inr links, w')
    ∧ NoDup (url <$> links)
    ∧ (∀ u, detected patterns doc u -> reports u links = 1%nat)
    ∧ (∀ u, ¬ detected patterns doc u -> reports u links = 0%nat).
Proof.
  destruct (scanPageForLinks_eq now doc w) as (ps & w' & Hg & Hs).
  exists ps, (scanDocument ps (unrestrictedCache (state w')) doc), w'.
  split; [exact Hg|]. split; [exact Hs|].
  destruct (scanDocument_spec ps (unrestrictedCache (state w')) doc)
    as (Hnd & Hdet & _).
  split; [exact Hnd|]. split.
  - intros u Hu. apply reports_one; [exact Hnd|]. now apply Hdet.
  - intros u Hu. apply reports_none. intros Hin. now apply Hu, Hdet.
Qed.

(** C7. An anchor whose URL starts with the magnet scheme is reported as a
    magnet link with host [magnet], once, whatever the patterns are. *)
Theorem magnet_anchor_classified (patterns : list RegExp)
    (cache : gmap string UnrestrictedLink) (now : Z) (doc : Document)
    (w : World) (href : string) :
  href ∈ anchors doc ->
  startsWith href "magnet:" = true ->
  (mkLink href "magnet" magnet None ∈ scanDocument patterns cache doc
   ∧ ∀ l, l ∈ scanDocument patterns cache doc -> url l = href ->
          l = mkLink href "magnet" magnet None)
  ∧ ∃ links w',
      scanPageForLinks now doc w = (inr links, w')
      ∧ mkLink href "magnet" magnet None ∈ links
      ∧ reports href links = 1%nat
      ∧ ∀ l, l ∈ links -> url l = href -> l = mkLink href "magnet" magnet None.
Proof.
  intros Hin Hmag.
  assert (Hscan : ∀ ps c,
            mkLink href "magnet" magnet None ∈ scanDocument ps c doc
            ∧ reports href (scanDocument ps c doc) = 1%nat
            ∧ ∀ l, l ∈ scanDocument ps c doc -> url l = href ->
                   l = mkLink href "magnet" magnet None).
  { intros ps c.
    destruct (scanDocument_spec ps c doc) as (Hnd & Hdet & Hshape).
    assert (Hd : href ∈ url <$> scanDocument ps c doc).
    { apply Hdet. left. split; [exact Hin|].
      split; [now apply startsWith_magnet|auto]. }
    assert (Hl : ∀ l, l ∈ scanDocument ps c doc -> url l = href ->
                      l = mkLink href "magnet" magnet None).
    { intros l Hl Hurl.
      destruct (Hshape l Hl) as [(_ & _ & Heq)|(Htext & _)].
      - rewrite Heq, Hurl. unfold anchorLink. now rewrite Hmag.
      - exfalso. rewrite Hurl in Htext. unfold textUrls in Htext.
        apply list_elem_of_fmap in Htext as (raw & Hraw & Hin').
        unfold rawTextUrls in Hin'. apply list_elem_of_In, in_flat_map in Hin'.
        destruct Hin' as (node & _ & Hnode).
        destruct (acceptNode node); [|destruct Hnode].
        apply list_elem_of_In in Hnode.
        pose proof (text_url_not_magnet _ _ Hnode) as Hno.
        rewrite <- Hraw in Hno. congruence. }
    split; [|split; [now apply reports_one|exact Hl]].
    apply list_elem_of_fmap in Hd as (l & Hurl & Hl').
    now rewrite <- (Hl l Hl' (eq_sym Hurl)). }
  split.
  - destruct (Hscan patterns cache) as (? & _ & ?). auto.
  - destruct (scanPageForLinks_eq now doc w) as (ps & w' & _ & Hs).
    destruct (Hscan ps (unrestrictedCache (state w'))) as (? & ? & ?).
    eauto 10.
Qed.


(** ** Auto-unrestrict *)

Lemma unrestrictCalls_app (tr1 tr2 : list Event) :
  unrestrictCalls (tr1 ++ tr2) = unrestrictCalls tr1 ++ unrestrictCalls tr2.
Proof.
  induction tr1 as [|ev tr1 IH]; [reflexivity|].
  destruct ev; simpl; now rewrite IH.
Qed.

(** The loop body, case by case. *)
Lemma unrestrictOne_spec (link : DetectedLink) (hasNew : bool) (w : World) :
  unrestrictOne link hasNew w =
  if decide (url link ∈ processedLinks (state w))
  then (inr (link, hasNew), w)
  else
    match unrestrictData (unrestrictReply (trace w) (url link)) with
    | Some data =>
        (inr (withResult link data, true), afterSuccess (url link) data w)
    | None => (inr (link, hasNew), afterCall (url link) w)
    end.
Proof.
  unfold unrestrictOne.
  destruct (decide (url link ∈ processedLinks (state w))); [reflexivity|].
  unfold bind, modify, try_catch, tryUnrestrict, bind, sendUnrestrict. simpl.
  unfold afterSuccess, afterCall, unrestrictData.
  destruct (unrestrictReply (trace w) (url link)) as [|result]; [reflexivity|].
  unfold lift. destruct (getProp result "success") as [e|success];
    [reflexivity|].
  destruct (truthy success && truthy (optProp result "data")); reflexivity.
Qed.


(** The loop never throws, and runs as [LoopRun] says. *)
Lemma unrestrictLoop_run (links : list DetectedLink) (hasNew : bool)
    (w : World) :
  ∃ links' hasNew' w',
    unrestrictLoop links hasNew w = (inr (links', hasNew'), w')
    ∧ LoopRun links hasNew w links' hasNew' w'.
Proof.
  revert hasNew w. induction links as [|link rest IH]; intros hasNew w.
  - exists [], hasNew, w. split; [reflexivity|constructor].
  - cbn [unrestrictLoop]. destruct (type link) eqn:Htype.
    + unfold bind. rewrite unrestrictOne_spec.
      destruct (decide (url link ∈ processedLinks (state w))) as [Hin|Hin].
      * destruct (IH hasNew w) as (rest' & h' & w' & Heq & Hrun).
        cbn [snd fst]. rewrite Heq. exists (link :: rest'), h', w'.
        split; [reflexivity|]. now apply run_skip.
      * destruct (unrestrictData (unrestrictReply (trace w) (url link)))
          as [data|] eqn:Hdata.
        -- destruct (IH true (afterSuccess (url link) data w))
             as (rest' & h' & w' & Heq & Hrun).
           cbn [snd fst]. rewrite Heq.
           exists (withResult link data :: rest'), h', w'.
           split; [reflexivity|]. now apply run_success.
        -- destruct (IH hasNew (afterCall (url link) w))
             as (rest' & h' & w' & Heq & Hrun).
           cbn [snd fst]. rewrite Heq. exists (link :: rest'), h', w'.
           split; [reflexivity|]. now apply run_failure.
    + unfold bind.
      destruct (IH hasNew w) as (rest' & h' & w' & Heq & Hrun).
      rewrite Heq. exists (link :: rest'), h', w'.
      split; [reflexivity|]. now apply run_magnet.
Qed.

Lemma newEvents_app (w w' : World) (evs : list Event) :
  trace w' = trace w ++ evs -> newEvents w w' = evs.
Proof.
  intros H. unfold newEvents. rewrite H. apply drop_app_length.
Qed.

Lemma newEvents_refl (w : World) : newEvents w w = [].
Proof. apply newEvents_app. now rewrite app_nil_r. Qed.

(** A run only adds [UNRESTRICT_LINK] exchanges to the log. *)
Lemma LoopRun_trace links hasNew w links' hasNew' w' :
  LoopRun links hasNew w links' hasNew' w' ->
  trace w' = trace w ++ newEvents w w'
  ∧ Forall isUnrestrict (newEvents w w').
Proof.
  induction 1 as [h w|l rest h w rest' h' w' Ht Hrun IH
                 |l rest h w rest' h' w' Ht Hin Hrun IH
                 |l rest h w d rest' h' w' Ht Hin Hd Hrun IH
                 |l rest h w rest' h' w' Ht Hin Hd Hrun IH]; auto.
  - rewrite newEvents_refl, app_nil_r. auto.
  - destruct IH as [Htr Hall]. simpl in Htr. rewrite <- app_assoc in Htr.
    rewrite (newEvents_app _ _ _ Htr). split; [exact Htr|].
    constructor; [exact I|exact Hall].
  - destruct IH as [Htr Hall]. simpl in Htr. rewrite <- app_assoc in Htr.
    rewrite (newEvents_app _ _ _ Htr). split; [exact Htr|].
    constructor; [exact I|exact Hall].
Qed.

(** The first step of a run that makes a call: the exchanges of the run
    are that call, then those of the rest. *)
Lemma newEvents_call (u : string) (w w1 w' : World) :
  trace w1 = trace w ++ [UNRESTRICT_LINK u (unrestrictReply (trace w) u)] ->
  trace w' = trace w1 ++ newEvents w1 w' ->
  newEvents w w' =
  UNRESTRICT_LINK u (unrestrictReply (trace w) u) :: newEvents w1 w'.
Proof.
  intros H1 H'. apply newEvents_app. rewrite H', H1, <- app_assoc. reflexivity.
Qed.


Lemma LoopRun_events_success l w d w' :
  trace w' = trace (afterSuccess (url l) d w)
             ++ newEvents (afterSuccess (url l) d w) w' ->
  newEvents w w' =
  UNRESTRICT_LINK (url l) (unrestrictReply (trace w) (url l))
    :: newEvents (afterSuccess (url l) d w) w'.
Proof. intros H. now apply newEvents_call. Qed.

Lemma LoopRun_events_failure l w w' :
  trace w' = trace (afterCall (url l) w)
             ++ newEvents (afterCall (url l) w) w' ->
  newEvents w w' =
  UNRESTRICT_LINK (url l) (unrestrictReply (trace w) (url l))
    :: newEvents (afterCall (url l) w) w'.
Proof. intros H. now apply newEvents_call. Qed.

Lemma event_in_calls (u : string) (r : SendResult) (evs : list Event) :
  UNRESTRICT_LINK u r ∈ evs -> u ∈ unrestrictCalls evs.
Proof.
  induction evs as [|ev evs IH]; intros H; [inversion H|].
  apply elem_of_cons in H as [<-|H].
  - simpl. apply elem_of_cons. auto.
  - destruct ev; simpl; try apply elem_of_cons; auto.
Qed.

(** Which calls a run makes: one for each URL of a hoster link that was not
    processed before, and no URL twice; these URLs are processed
    afterwards. *)
Lemma LoopRun_calls links hasNew w links' hasNew' w' :
  LoopRun links hasNew w links' hasNew' w' ->
  NoDup (unrestrictCalls (newEvents w w'))
  ∧ (∀ u, u ∈ unrestrictCalls (newEvents w w')
          ↔ (u ∉ processedLinks (state w))
            ∧ ∃ l, l ∈ links ∧ type l = hoster ∧ url l = u)
  ∧ (∀ u, u ∈ processedLinks (state w')
          ↔ u ∈ processedLinks (state w)
            ∨ u ∈ unrestrictCalls (newEvents w w')).
Proof.
  intros Hrun0. pose proof Hrun0 as Hrun1. loop_induction Hrun0.
  - rewrite newEvents_refl. simpl. split; [apply NoDup_nil_2|]. split.
    + intros u. split; [intros H; inversion H|].
      intros (_ & l & H & _). inversion H.
    + intros u. split; [auto|]. intros [?|H]; [auto|inversion H].
  - destruct (IH Hrun) as (Hnd & Hcalls & Hproc).
    split; [exact Hnd|]. split; [|exact Hproc].
    intros u. rewrite Hcalls. split.
    + intros (? & l' & ? & ? & ?). split; [auto|].
      exists l'. rewrite elem_of_cons. auto.
    + intros (? & l' & Hl' & Hh & ?). split; [auto|].
      apply elem_of_cons in Hl' as [->|?]; [congruence|eauto].
  - destruct (IH Hrun) as (Hnd & Hcalls & Hproc).
    split; [exact Hnd|]. split; [|exact Hproc].
    intros u. rewrite Hcalls. split.
    + intros (? & l' & ? & ? & ?). split; [auto|].
      exists l'. rewrite elem_of_cons. auto.
    + intros (Hu & l' & Hl' & Hh & Hurl). split; [auto|].
      apply elem_of_cons in Hl' as [->|?]; [congruence|eauto].
  - destruct (IH Hrun) as (Hnd & Hcalls & Hproc).
    destruct (LoopRun_trace _ _ _ _ _ _ Hrun) as [Htr _].
    rewrite (LoopRun_events_success _ _ _ _ Htr). simpl.
    assert (Hp1 : ∀ u, u ∈ processedLinks (state (afterSuccess (url l) d w))
                       ↔ u = url l ∨ u ∈ processedLinks (state w)).
    { intros u. simpl. rewrite elem_of_union, elem_of_singleton. taut. }
    split; [|split].
    + apply NoDup_cons. split; [|exact Hnd].
      intros Hu. apply Hcalls in Hu as [Hu _]. apply Hu, Hp1. auto.
    + intros u. rewrite elem_of_cons, Hcalls, Hp1. split.
      * intros [->|(Hu & l' & ? & ? & ?)].
        -- split; [exact Hin|]. exists l. rewrite elem_of_cons. auto.
        -- split; [taut|]. exists l'. rewrite elem_of_cons. auto.
      * intros (Hu & l' & Hl' & Hh & Hurl).
        destruct (decide (u = url l)) as [?|Hne]; [auto|]. right.
        split; [taut|].
        apply elem_of_cons in Hl' as [->|?]; [congruence|eauto].
    + intros u. rewrite Hproc, Hp1, elem_of_cons. taut.
  - destruct (IH Hrun) as (Hnd & Hcalls & Hproc).
    destruct (LoopRun_trace _ _ _ _ _ _ Hrun) as [Htr _].
    rewrite (LoopRun_events_failure _ _ _ Htr). simpl.
    assert (Hp1 : ∀ u, u ∈ processedLinks (state (afterCall (url l) w))
                       ↔ u = url l ∨ u ∈ processedLinks (state w)).
    { intros u. simpl. rewrite elem_of_union, elem_of_singleton. taut. }
    split; [|split].
    + apply NoDup_cons. split; [|exact Hnd].
      intros Hu. apply Hcalls in Hu as [Hu _]. apply Hu, Hp1. auto.
    + intros u. rewrite elem_of_cons, Hcalls, Hp1. split.
      * intros [->|(Hu & l' & ? & ? & ?)].
        -- split; [exact Hin|]. exists l. rewrite elem_of_cons. auto.
        -- split; [taut|]. exists l'. rewrite elem_of_cons. auto.
      * intros (Hu & l' & Hl' & Hh & Hurl).
        destruct (decide (u = url l)) as [?|Hne]; [auto|]. right.
        split; [taut|].
        apply elem_of_cons in Hl' as [->|?]; [congruence|eauto].
    + intros u. rewrite Hproc, Hp1, elem_of_cons. taut.
Qed.

(** The flag is raised exactly when a call of the run brought a result. *)
Lemma LoopRun_flag links hasNew w links' hasNew' w' :
  LoopRun links hasNew w links' hasNew' w' ->
  hasNew' = true
  ↔ hasNew = true
    ∨ ∃ u r d, UNRESTRICT_LINK u r ∈ newEvents w w' ∧ unrestrictData r = Some d.
Proof.
  intros Hrun0. loop_induction Hrun0; auto.
  - rewrite newEvents_refl. split; [auto|].
    intros [?|(u & r & d & H & _)]; [auto|inversion H].
  - destruct (LoopRun_trace _ _ _ _ _ _ Hrun) as [Htr _].
    rewrite (LoopRun_events_success _ _ _ _ Htr). rewrite IH.
    split; intros _.
    + right. exists (url l), (unrestrictReply (trace w) (url l)), d.
      split; [apply elem_of_cons; auto|exact Hd].
    + auto.
  - destruct (LoopRun_trace _ _ _ _ _ _ Hrun) as [Htr _].
    rewrite (LoopRun_events_failure _ _ _ Htr). rewrite IH.
    split; (intros [?|(u & r & d & Hev & Hdata)]; [auto|right]).
    + exists u, r, d. split; [apply elem_of_cons; auto|exact Hdata].
    + apply elem_of_cons in Hev as [Heq|Hev]; [|eauto].
      injection Heq as -> ->. congruence.
Qed.


(** What a run does to the links, place by place: a link is left as it is,
    or it is a hoster link that was not processed and gets the result its
    call brought. *)
Lemma LoopRun_links links hasNew w links' hasNew' w' :
  LoopRun links hasNew w links' hasNew' w' ->
  List.length links' = List.length links
  ∧ ∀ (i : nat) (l : DetectedLink), links !! i = Some l ->
      ∃ l', links' !! i = Some l'
        ∧ (l' = l
           ∨ (type l = hoster ∧ (url l ∉ processedLinks (state w))
              ∧ ∃ r d, UNRESTRICT_LINK (url l) r ∈ newEvents w w'
                       ∧ unrestrictData r = Some d ∧ l' = withResult l d))
        ∧ (url l ∈ processedLinks (state w) -> l' = l)
        ∧ (type l = magnet -> l' = l)
        ∧ (∀ r, UNRESTRICT_LINK (url l) r ∈ newEvents w w' ->
                unrestrictData r = None -> l' = l).
Proof.
  intros Hrun0. loop_induction Hrun0.
  - split; [reflexivity|]. intros i l H. destruct i; inversion H.
  - destruct IH as [Hlen IH]. split; [simpl; now rewrite Hlen|].
    intros [|i] x Hx; simpl in *; [|now apply IH].
    injection Hx as <-. exists l. auto.
  - destruct IH as [Hlen IH]. split; [simpl; now rewrite Hlen|].
    intros [|i] x Hx; simpl in *; [|now apply IH].
    injection Hx as <-. exists l. auto.
  - destruct IH as [Hlen IH]. split; [simpl; now rewrite Hlen|].
    destruct (LoopRun_trace _ _ _ _ _ _ Hrun) as [Htr _].
    destruct (LoopRun_calls _ _ _ _ _ _ Hrun) as (_ & Hcalls & _).
    rewrite (LoopRun_events_success _ _ _ _ Htr).
    assert (Hp1 : ∀ u, u ∈ processedLinks (state (afterSuccess (url l) d w))
                       ↔ u = url l ∨ u ∈ processedLinks (state w)).
    { intros u. simpl. rewrite elem_of_union, elem_of_singleton. taut. }
    intros [|i] x Hx; simpl in Hx |- *.
    + injection Hx as <-. exists (withResult l d).
      split; [reflexivity|]. split; [|split; [|split]].
      * right. split; [exact Ht|]. split; [exact Hin|].
        exists (unrestrictReply (trace w) (url l)), d.
        split; [apply elem_of_cons; auto|auto].
      * intros H. now destruct Hin.
      * congruence.
      * intros r Hev Hr. apply elem_of_cons in Hev as [Heq|Hev].
        -- injection Heq as ->. congruence.
        -- apply event_in_calls, Hcalls in Hev as [Hno _].
           destruct Hno. apply Hp1. auto.
    + destruct (IH i x Hx) as (x' & Hx' & Hcase & Hproc & Hmag & Hfail).
      exists x'. split; [exact Hx'|]. split; [|split; [|split]].
      * destruct Hcase as [?|(? & Hno & r & d' & ? & ? & ?)]; [auto|].
        right. split; [auto|]. split; [rewrite Hp1 in Hno; taut|].
        exists r, d'. split; [apply elem_of_cons; auto|auto].
      * intros H. apply Hproc, Hp1. auto.
      * exact Hmag.
      * intros r Hev Hr. apply elem_of_cons in Hev as [Heq|Hev].
        -- injection Heq as Hu _. apply Hproc, Hp1. auto.
        -- now apply (Hfail r).
  - destruct IH as [Hlen IH]. split; [simpl; now rewrite Hlen|].
    destruct (LoopRun_trace _ _ _ _ _ _ Hrun) as [Htr _].
    rewrite (LoopRun_events_failure _ _ _ Htr).
    assert (Hp1 : ∀ u, u ∈ processedLinks (state (afterCall (url l) w))
                       ↔ u = url l ∨ u ∈ processedLinks (state w)).
    { intros u. simpl. rewrite elem_of_union, elem_of_singleton. taut. }
    intros [|i] x Hx; simpl in Hx |- *.
    + injection Hx as <-. exists l. auto.
    + destruct (IH i x Hx) as (x' & Hx' & Hcase & Hproc & Hmag & Hfail).
      exists x'. split; [exact Hx'|]. split; [|split; [|split]].
      * destruct Hcase as [?|(? & Hno & r & d' & ? & ? & ?)]; [auto|].
        right. split; [auto|]. split; [rewrite Hp1 in Hno; taut|].
        exists r, d'. split; [apply elem_of_cons; auto|auto].
      * intros H. apply Hproc, Hp1. auto.
      * exact Hmag.
      * intros r Hev Hr. apply elem_of_cons in Hev as [Heq|Hev].
        -- injection Heq as Hu _. apply Hproc, Hp1. auto.
        -- now apply (Hfail r).
Qed.

(** A run leaves the pattern cache, the scheduler's variables and the
    older results alone; a new result is under a URL the run called. *)
Lemma LoopRun_frame links hasNew w links' hasNew' w' :
  LoopRun links hasNew w links' hasNew' w' ->
  cachedHostsRegex (state w') = cachedHostsRegex (state w)
  ∧ cachedHostsRegexTimestamp (state w') = cachedHostsRegexTimestamp (state w)
  ∧ scanTimeout (state w') = scanTimeout (state w)
  ∧ isScanning (state w') = isScanning (state w)
  ∧ observer (state w') = observer (state w)
  ∧ ∀ u, is_Some (unrestrictedCache (state w') !! u) ->
         is_Some (unrestrictedCache (state w) !! u)
         ∨ u ∈ unrestrictCalls (newEvents w w').
Proof.
  intros Hrun0. loop_induction Hrun0; auto.
  - repeat (split; [reflexivity|]). auto.
  - destruct IH as (-> & -> & -> & -> & -> & Hc).
    destruct (LoopRun_trace _ _ _ _ _ _ Hrun) as [Htr _].
    rewrite (LoopRun_events_success _ _ _ _ Htr).
    repeat (split; [reflexivity|]).
    intros u Hu. simpl. rewrite elem_of_cons.
    destruct (Hc u Hu) as [Hs|?]; [|auto]. simpl in Hs.
    destruct (decide (url l = u)) as [?|Hne]; [auto|].
    rewrite lookup_insert_ne in Hs by exact Hne. auto.
  - destruct IH as (-> & -> & -> & -> & -> & Hc).
    destruct (LoopRun_trace _ _ _ _ _ _ Hrun) as [Htr _].
    rewrite (LoopRun_events_failure _ _ _ Htr).
    repeat (split; [reflexivity|]).
    intros u Hu. simpl. rewrite elem_of_cons.
    destruct (Hc u Hu) as [Hs|?]; auto.
Qed.


(** A successful call of a run shows in the list: some link with that URL
    carries the result afterwards. *)
Lemma LoopRun_gained links hasNew w links' hasNew' w' u r data :
  LoopRun links hasNew w links' hasNew' w' ->
  UNRESTRICT_LINK u r ∈ newEvents w w' ->
  unrestrictData r = Some data ->
  ∃ (i : nat) (l : DetectedLink),
    links !! i = Some l ∧ url l = u ∧ links' !! i = Some (withResult l data).
Proof.
  intros Hrun0 Hev Hr. loop_induction Hrun0.
  - rewrite newEvents_refl in Hev. inversion Hev.
  - destruct (IH Hev) as (i & x & ? & ? & ?). exists (S i), x. auto.
  - destruct (IH Hev) as (i & x & ? & ? & ?). exists (S i), x. auto.
  - destruct (LoopRun_trace _ _ _ _ _ _ Hrun) as [Htr _].
    rewrite (LoopRun_events_success _ _ _ _ Htr) in Hev.
    apply elem_of_cons in Hev as [Heq|Hev].
    + injection Heq as -> ->. exists 0%nat, l.
      split; [reflexivity|]. split; [reflexivity|]. simpl. congruence.
    + destruct (IH Hev) as (i & x & ? & ? & ?). exists (S i), x. auto.
  - destruct (LoopRun_trace _ _ _ _ _ _ Hrun) as [Htr _].
    rewrite (LoopRun_events_failure _ _ _ Htr) in Hev.
    apply elem_of_cons in Hev as [Heq|Hev].
    + injection Heq as -> ->. congruence.
    + destruct (IH Hev) as (i & x & ? & ? & ?). exists (S i), x. auto.
Qed.

(** [autoUnrestrictLinks] is the loop, then the report if the flag is
    raised. *)
Lemma autoUnrestrictLinks_run (links : list DetectedLink) (w : World) :
  ∃ links' hasNew w1,
    LoopRun links false w links' hasNew w1
    ∧ autoUnrestrictLinks links w =
        (inr (links', hasNew),
         if hasNew
         then mkWorld (state w1) (trace w1 ++ [REPORT_DETECTED_LINKS links'])
         else w1).
Proof.
  destruct (unrestrictLoop_run links false w) as (links' & h & w1 & Heq & Hrun).
  exists links', h, w1. split; [exact Hrun|].
  unfold autoUnrestrictLinks, bind. rewrite Heq. simpl.
  destruct h; reflexivity.
Qed.

Lemma newEvents_report (w w1 : World) (links : list DetectedLink) :
  trace w1 = trace w ++ newEvents w w1 ->
  newEvents w (mkWorld (state w1) (trace w1 ++ [REPORT_DETECTED_LINKS links]))
  = newEvents w w1 ++ [REPORT_DETECTED_LINKS links].
Proof.
  intros H. apply newEvents_app. simpl. rewrite H at 1. now rewrite app_assoc.
Qed.

Lemma not_unrestrict_report (links : list DetectedLink) (evs : list Event) :
  Forall isUnrestrict evs -> REPORT_DETECTED_LINKS links ∉ evs.
Proof.
  intros Hall Hin. rewrite Forall_forall in Hall. exact (Hall _ Hin).
Qed.


(** In a sound session a scanned link whose URL is not processed carries no
    result yet. *)
Lemma scanned_links_fresh (patterns : list RegExp) (doc : Document) (w : World) :
  sessionInv w ->
  ∀ l, l ∈ scanDocument patterns (unrestrictedCache (state w)) doc ->
       url l ∉ processedLinks (state w) ->
       unrestrictedLink l = None.
Proof.
  intros (_ & _ & Hcache) l Hl Hno.
  destruct (scanDocument_spec patterns (unrestrictedCache (state w)) doc)
    as (_ & _ & Hshape).
  assert (Hnone : unrestrictedCache (state w) !! url l = None).
  { destruct (unrestrictedCache (state w) !! url l) eqn:Hc; [|reflexivity].
    destruct Hno. apply Hcache. rewrite Hc. eauto. }
  destruct (Hshape l Hl) as [(_ & _ & ->)|(_ & ->)].
  - unfold anchorLink.
    destruct (startsWith (url l) "magnet:"); [reflexivity|exact Hnone].
  - exact Hnone.
Qed.

(** C8. After the pass the list is reported again exactly when some call of
    the pass brought a result, that is, for a scanned list, when some link
    gained one; the report is the last exchange of the pass and carries the
    list with the results in it. *)
Theorem second_report_iff_gained (links : list DetectedLink) (w : World) :
  ∃ links' hasNew w' calls,
    autoUnrestrictLinks links w = (inr (links', hasNew), w')
    ∧ Forall isUnrestrict calls
    ∧ newEvents w w' =
        calls ++ (if hasNew then [REPORT_DETECTED_LINKS links'] else [])
    ∧ (hasNew = true ↔ gained calls)
    ∧ ((∃ ls, REPORT_DETECTED_LINKS ls ∈ newEvents w w') ↔ gained calls)
    ∧ (∀ ls, REPORT_DETECTED_LINKS ls ∈ newEvents w w' -> ls = links')
    ∧ ((∃ (i : nat) l l',
          links !! i = Some l ∧ links' !! i = Some l'
          ∧ unrestrictedLink l = None ∧ is_Some (unrestrictedLink l'))
       -> gained calls)
    ∧ ((∀ l, l ∈ links -> url l ∉ processedLinks (state w) ->
             unrestrictedLink l = None) ->
       gained calls ->
       ∃ (i : nat) l l',
         links !! i = Some l ∧ links' !! i = Some l'
         ∧ unrestrictedLink l = None ∧ is_Some (unrestrictedLink l'))
    ∧ (∀ patterns doc,
         sessionInv w ->
         links = scanDocument patterns (unrestrictedCache (state w)) doc ->
         gained calls
         ↔ ∃ (i : nat) l l',
             links !! i = Some l ∧ links' !! i = Some l'
             ∧ unrestrictedLink l = None ∧ is_Some (unrestrictedLink l')).
Proof.
  destruct (autoUnrestrictLinks_run links w) as (links' & h & w1 & Hrun & Heq).
  destruct (LoopRun_trace _ _ _ _ _ _ Hrun) as [Htr Hall].
  pose proof (LoopRun_flag _ _ _ _ _ _ Hrun) as Hflag.
  assert (Hflag' : h = true ↔ gained (newEvents w w1)).
  { rewrite Hflag. unfold gained. split; [|auto].
    intros [H|H]; [discriminate H|exact H]. }
  exists links', h, (if h
                     then mkWorld (state w1)
                            (trace w1 ++ [REPORT_DETECTED_LINKS links'])
                     else w1), (newEvents w w1).
  split; [exact Heq|]. split; [exact Hall|].
  assert (Hnew : newEvents w
                   (if h
                    then mkWorld (state w1)
                           (trace w1 ++ [REPORT_DETECTED_LINKS links'])
                    else w1)
                 = newEvents w w1
                   ++ (if h then [REPORT_DETECTED_LINKS links'] else [])).
  { destruct h; [now apply newEvents_report|now rewrite app_nil_r]. }
  rewrite Hnew. split; [reflexivity|]. split; [exact Hflag'|].
  assert (Hback : (∃ (i : nat) l l',
                     links !! i = Some l ∧ links' !! i = Some l'
                     ∧ unrestrictedLink l = None
                     ∧ is_Some (unrestrictedLink l'))
                  -> gained (newEvents w w1)).
  { intros (i & l & l' & Hl & Hl' & Hnone & Hsome).
    destruct (LoopRun_links _ _ _ _ _ _ Hrun) as [_ Hpos].
    destruct (Hpos i l Hl) as (x & Hx & Hcase & _).
    rewrite Hl' in Hx. injection Hx as <-.
    destruct Hcase as [->|(_ & _ & r & d & Hev & Hd & _)].
    - rewrite Hnone in Hsome. now destruct Hsome.
    - exists (url l), r, d. auto. }
  assert (Hforth : (∀ l, l ∈ links -> url l ∉ processedLinks (state w) ->
                         unrestrictedLink l = None) ->
                   gained (newEvents w w1) ->
                   ∃ (i : nat) l l',
                     links !! i = Some l ∧ links' !! i = Some l'
                     ∧ unrestrictedLink l = None
                     ∧ is_Some (unrestrictedLink l')).
  { intros Hfresh (u & r & d & Hev & Hd).
    destruct (LoopRun_gained _ _ _ _ _ _ _ _ _ Hrun Hev Hd)
      as (i & l & Hl & Hurl & Hl').
    destruct (LoopRun_calls _ _ _ _ _ _ Hrun) as (_ & Hcalls & _).
    apply event_in_calls, Hcalls in Hev as [Hno _].
    exists i, l, (withResult l d). split; [exact Hl|]. split; [exact Hl'|].
    split; [|simpl; eauto].
    apply Hfresh; [|now rewrite Hurl].
    apply list_elem_of_lookup. eauto. }
  split; [|split; [|split; [|split]]].
  - rewrite <- Hflag'. split.
    + intros (ls & Hls). apply elem_of_app in Hls as [Hls|Hls].
      * now apply not_unrestrict_report in Hls.
      * destruct h; [reflexivity|inversion Hls].
    + intros ->. exists links'. apply elem_of_app. right.
      now apply list_elem_of_singleton.
  - intros ls Hls. apply elem_of_app in Hls as [Hls|Hls].
    + now apply not_unrestrict_report in Hls.
    + destruct h; [|inversion Hls].
      apply list_elem_of_singleton in Hls. congruence.
  - exact Hback.
  - exact Hforth.
  - intros patterns doc Hs ->. split; [|exact Hback].
    apply Hforth. exact (scanned_links_fresh patterns doc w Hs).
Qed.

(** C5. Whatever the replies, the pass does not throw, every hoster link of
    the list is processed, with a call of its own if it was not processed
    before, and a link whose call fails is left as it was. *)
Theorem unrestrict_failure_isolated (links : list DetectedLink) (w : World) :
  ∃ links' hasNew w',
    autoUnrestrictLinks links w = (inr (links', hasNew), w')
    ∧ List.length links' = List.length links
    ∧ (∀ l, l ∈ links -> type l = hoster ->
         url l ∈ processedLinks (state w')
         ∧ (url l ∉ processedLinks (state w) ->
            url l ∈ unrestrictCalls (newEvents w w')))
    ∧ (∀ (i : nat) l r,
         links !! i = Some l ->
         UNRESTRICT_LINK (url l) r ∈ newEvents w w' ->
         unrestrictData r = None ->
         links' !! i = Some l).
Proof.
  destruct (autoUnrestrictLinks_run links w) as (links' & h & w1 & Hrun & Heq).
  destruct (LoopRun_trace _ _ _ _ _ _ Hrun) as [Htr Hall].
  destruct (LoopRun_calls _ _ _ _ _ _ Hrun) as (_ & Hcalls & Hproc).
  destruct (LoopRun_links _ _ _ _ _ _ Hrun) as [Hlen Hpos].
  exists links', h, (if h
                     then mkWorld (state w1)
                            (trace w1 ++ [REPORT_DETECTED_LINKS links'])
                     else w1).
  split; [exact Heq|]. split; [exact Hlen|].
  assert (Hst : processedLinks
                  (state (if h
                          then mkWorld (state w1)
                                 (trace w1 ++ [REPORT_DETECTED_LINKS links'])
                          else w1))
                = processedLinks (state w1)) by now destruct h.
  assert (Hnew : newEvents w
                   (if h
                    then mkWorld (state w1)
                           (trace w1 ++ [REPORT_DETECTED_LINKS links'])
                    else w1)
                 = newEvents w w1
                   ++ (if h then [REPORT_DETECTED_LINKS links'] else [])).
  { destruct h; [now apply newEvents_report|now rewrite app_nil_r]. }
  rewrite Hst, Hnew. split.
  - intros l Hl Hh.
    assert (Hcall : url l ∉ processedLinks (state w) ->
                    url l ∈ unrestrictCalls (newEvents w w1)).
    { intros Hno. apply Hcalls. eauto. }
    split.
    + apply Hproc.
      destruct (decide (url l ∈ processedLinks (state w))); auto.
    + intros Hno. rewrite unrestrictCalls_app. apply elem_of_app. auto.
  - intros i l r Hl Hev Hr.
    destruct (Hpos i l Hl) as (x & Hx & _ & _ & _ & Hfail).
    rewrite Hx. f_equal. apply (Hfail r); [|exact Hr].
    apply elem_of_app in Hev as [Hev|Hev]; [exact Hev|].
    destruct h; [|inversion Hev].
    apply list_elem_of_singleton in Hev. discriminate Hev.
Qed.


(** ** Scheduler *)

Lemma hostsCallback_frame (now : Z) (reply : HostsReply) (w : World) :
  scanFrame w (snd (hostsCallback now reply w))
  ∧ trace (snd (hostsCallback now reply w)) = trace w.
Proof.
  unfold hostsCallback, scanFrame.
  destruct (_ || _ || _); [simpl; taut|].
  unfold_M. destruct (mapPatterns _); simpl; taut.
Qed.

Lemma getHostsRegex_frame (now : Z) (w : World) :
  scanFrame w (snd (getHostsRegex now w)).
Proof.
  assert (Hfetch : scanFrame w (snd (fetchHostsRegex now w))).
  { rewrite fetchHostsRegex_callback.
    destruct (hostsCallback_frame now (hostsReply (trace w))
                (mkWorld (state w)
                   (trace w ++ [GET_HOSTS_REGEX (hostsReply (trace w))])))
      as [(H1 & H2 & H3 & H4 & H5 & H6) _].
    simpl in *. rewrite unrestrictCalls_app in H6. simpl in H6.
    rewrite app_nil_r in H6. unfold scanFrame. taut. }
  unfold getHostsRegex.
  destruct (cachedHostsRegex (state w)); [|exact Hfetch].
  destruct (_ <? _); [|exact Hfetch].
  unfold scanFrame. simpl. taut.
Qed.


Lemma scanFrame_reported (links : list DetectedLink) (w : World) :
  scanFrame w (reported links w).
Proof.
  unfold scanFrame, reported. simpl. rewrite unrestrictCalls_app. simpl.
  rewrite app_nil_r. taut.
Qed.

Lemma scanFrame_session (w w' : World) :
  scanFrame w w' -> sessionInv w -> sessionInv w'.
Proof.
  unfold scanFrame, sessionInv.
  intros (_ & _ & _ & -> & -> & ->). taut.
Qed.

(** The isScanning flag is no part of the session. *)
Lemma sessionInv_scanning (b : bool) (w : World) :
  sessionInv w <-> sessionInv (scanning b w).
Proof. unfold sessionInv, scanning. simpl. taut. Qed.

(** A scan under way makes a new call a no-op. *)
Lemma performAutoScan_busy (now : Z) (stored : JsVal) (doc : Document)
    (w : World) :
  isScanning (state w) = true ->
  performAutoScan now stored doc w = (inr tt, w).
Proof. intros H. unfold performAutoScan. now rewrite H. Qed.

Lemma performAutoScan_disabled (now : Z) (stored : JsVal) (doc : Document)
    (w : World) :
  isScanning (state w) = false ->
  fst (getPreferences stored) = false ->
  performAutoScan now stored doc w = (inr tt, scanning false w).
Proof.
  intros Hidle Hoff. unfold performAutoScan, autoScanBody. rewrite Hidle.
  destruct (getPreferences stored) as [enabled au]. simpl in Hoff. subst.
  reflexivity.
Qed.

(** The course of a scan that takes place. *)
Lemma performAutoScan_enabled (now : Z) (stored : JsVal) (doc : Document)
    (w : World) (autoUnrestrict : bool) :
  isScanning (state w) = false ->
  getPreferences stored = (true, autoUnrestrict) ->
  ∃ patterns w1,
    getHostsRegex now (scanning true w) = (inr patterns, w1)
    ∧ performAutoScan now stored doc w =
        (inr tt,
         scanning false
           (match scanDocument patterns (unrestrictedCache (state w1)) doc with
            | [] => w1
            | links =>
                if autoUnrestrict
                then snd (autoUnrestrictLinks links (reported links w1))
                else reported links w1
            end)).
Proof.
  intros Hidle Hprefs.
  destruct (scanPageForLinks_eq now doc (scanning true w))
    as (ps & w1 & Hg & Hs).
  exists ps, w1. split; [exact Hg|].
  unfold performAutoScan, autoScanBody. rewrite Hidle, Hprefs.
  unfold bind at 1. unfold modify at 1. cbn [negb].
  fold (scanning true w).
  unfold finally, try_catch, bind at 1. rewrite Hs.
  destruct (scanDocument ps (unrestrictedCache (state w1)) doc)
    as [|link rest] eqn:Hlinks; [reflexivity|].
  replace (0 <? Z.of_nat (List.length (link :: rest))) with true
    by reflexivity.
  unfold bind at 1, reportLinksToBackground at 1, emit at 1.
  destruct autoUnrestrict; [|reflexivity].
  unfold bind.
  destruct (autoUnrestrictLinks_run (link :: rest)
              (reported (link :: rest) w1))
    as (links' & h & w2 & _ & Heq).
  unfold reported in *. rewrite Heq. reflexivity.
Qed.


Lemma autoUnrestrictLinks_handles (links : list DetectedLink) (w : World) :
  scanTimeout (state (snd (autoUnrestrictLinks links w)))
  = scanTimeout (state w)
  ∧ observer (state (snd (autoUnrestrictLinks links w))) = observer (state w).
Proof.
  destruct (autoUnrestrictLinks_run links w) as (links' & h & w1 & Hrun & ->).
  destruct (LoopRun_frame _ _ _ _ _ _ Hrun) as (_ & _ & Ht & _ & Ho & _).
  destruct h; simpl; auto.
Qed.

(** A pass keeps the session sound: it calls only for URLs that were not
    processed, hence not called before. *)
Lemma autoUnrestrictLinks_session (links : list DetectedLink) (w : World) :
  sessionInv w -> sessionInv (snd (autoUnrestrictLinks links w)).
Proof.
  intros (Hnd & Hsub & Hcache).
  destruct (autoUnrestrictLinks_run links w) as (links' & h & w1 & Hrun & ->).
  destruct (LoopRun_trace _ _ _ _ _ _ Hrun) as [Htr _].
  destruct (LoopRun_calls _ _ _ _ _ _ Hrun) as (Hnd' & Hcalls & Hproc).
  destruct (LoopRun_frame _ _ _ _ _ _ Hrun) as (_ & _ & _ & _ & _ & Hnew).
  assert (Hs1 : sessionInv w1).
  { unfold sessionInv. rewrite Htr, unrestrictCalls_app. split; [|split].
    - apply NoDup_app. split; [exact Hnd|]. split; [|exact Hnd'].
      intros u Hu Hu'. apply Hcalls in Hu' as [Hno _]. auto.
    - intros u Hu. apply Hproc. apply elem_of_app in Hu as [?|?]; auto.
    - intros u Hu. apply Hproc. destruct (Hnew u Hu); auto. }
  destruct h; [|exact Hs1]. simpl.
  apply (scanFrame_session w1); [apply scanFrame_reported|exact Hs1].
Qed.

Lemma performAutoScan_cases (now : Z) (stored : JsVal) (doc : Document)
    (w : World) :
  ∃ w', performAutoScan now stored doc w = (inr tt, w')
        ∧ scanTimeout (state w') = scanTimeout (state w)
        ∧ observer (state w') = observer (state w)
        ∧ (sessionInv w -> sessionInv w').
Proof.
  destruct (isScanning (state w)) eqn:Hidle.
  { exists w. rewrite performAutoScan_busy by exact Hidle. auto. }
  destruct (getPreferences stored) as [[|] au] eqn:Hprefs.
  2:{ exists (scanning false w).
      rewrite performAutoScan_disabled by (try rewrite Hprefs; auto).
      split; [reflexivity|]. split; [reflexivity|]. split; [reflexivity|].
      apply sessionInv_scanning. }
  destruct (performAutoScan_enabled now stored doc w au Hidle Hprefs)
    as (ps & w1 & Hg & ->).
  pose proof (getHostsRegex_frame now (scanning true w)) as Hf.
  rewrite Hg in Hf. simpl in Hf.
  assert (Ht : scanTimeout (state w1) = scanTimeout (state w))
    by (destruct Hf as (H1 & _); exact H1).
  assert (Ho : observer (state w1) = observer (state w))
    by (destruct Hf as (_ & H2 & _); exact H2).
  assert (Hs : sessionInv w -> sessionInv w1).
  { intros Hs0. apply (scanFrame_session (scanning true w)); [exact Hf|].
    now apply sessionInv_scanning. }
  eexists. split; [reflexivity|].
  destruct (scanDocument ps (unrestrictedCache (state w1)) doc)
    as [|link rest]; simpl.
  - split; [exact Ht|]. split; [exact Ho|].
    intros Hs0. now apply (sessionInv_scanning false w1), Hs.
  - destruct au.
    + destruct (autoUnrestrictLinks_handles (link :: rest)
                  (reported (link :: rest) w1)) as [-> ->].
      simpl. split; [exact Ht|]. split; [exact Ho|].
      intros Hs0.
      apply (sessionInv_scanning false
               (snd (autoUnrestrictLinks (link :: rest)
                       (reported (link :: rest) w1)))).
      apply (autoUnrestrictLinks_session (link :: rest)
               (reported (link :: rest) w1)).
      apply (scanFrame_session w1); [apply scanFrame_reported|auto].
    + simpl. split; [exact Ht|]. split; [exact Ho|].
      intros Hs0. apply (sessionInv_scanning false (reported (link :: rest) w1)).
      apply (scanFrame_session w1 (reported (link :: rest) w1));
        [apply scanFrame_reported|auto].
Qed.


Lemma callPerformAutoScan_spec (s : Sched) :
  ∃ w', callPerformAutoScan s
        = mkSched w' (browser s) (scans s ++ [clock (browser s)])
        ∧ scanTimeout (state w') = scanTimeout (state (world s))
        ∧ observer (state w') = observer (state (world s))
        ∧ (sessionInv (world s) -> sessionInv w').
Proof.
  unfold callPerformAutoScan.
  destruct (performAutoScan_cases (clock (browser s))
              (preferencesAt (clock (browser s)))
              (pageAt (clock (browser s))) (world s))
    as (w' & -> & ? & ? & ?).
  exists w'. auto.
Qed.

Lemma callPerformAutoScan_inv (s : Sched) :
  reachInv s -> reachInv (callPerformAutoScan s).
Proof.
  intros [[Ht Ho] Hs].
  destruct (callPerformAutoScan_spec s) as (w' & -> & Et & Eo & Es).
  split; [split|]; simpl.
  - intros id d. rewrite Et. apply Ht.
  - intros id. rewrite Eo. apply Ho.
  - auto.
Qed.

(** Under the invariant, clearing the timer of [scanTimeout] leaves no
    timer pending. *)
Lemma timers_cleared (s : Sched) :
  schedInv s ->
  match scanTimeout (state (world s)) with
  | Some id => delete id (timers (browser s))
  | None => timers (browser s)
  end = ∅.
Proof.
  intros [Ht _]. apply map_empty. intros k.
  destruct (scanTimeout (state (world s))) as [id|] eqn:Hid.
  - destruct (decide (id = k)) as [->|Hne]; [apply lookup_delete_eq|].
    rewrite lookup_delete_ne by exact Hne.
    destruct (timers (browser s) !! k) as [d|] eqn:Hk; [|reflexivity].
    apply Ht in Hk. congruence.
  - destruct (timers (browser s) !! k) as [d|] eqn:Hk; [|reflexivity].
    apply Ht in Hk. congruence.
Qed.

(** [triggerScan] leaves exactly one timer pending, due one debounce
    interval from now, whatever was pending before. *)
Lemma triggerScan_armed (s : Sched) :
  schedInv s ->
  timers (browser (triggerScan s))
  = {[nextTimer (browser s) := clock (browser s) + SCAN_DEBOUNCE_MS]}
  ∧ scanTimeout (state (world (triggerScan s))) = Some (nextTimer (browser s))
  ∧ clock (browser (triggerScan s)) = clock (browser s)
  ∧ observers (browser (triggerScan s)) = observers (browser s)
  ∧ observer (state (world (triggerScan s))) = observer (state (world s))
  ∧ scans (triggerScan s) = scans s
  ∧ trace (world (triggerScan s)) = trace (world s)
  ∧ processedLinks (state (world (triggerScan s)))
    = processedLinks (state (world s))
  ∧ unrestrictedCache (state (world (triggerScan s)))
    = unrestrictedCache (state (world s)).
Proof.
  intros Hinv. pose proof (timers_cleared s Hinv) as Hclear.
  unfold triggerScan.
  destruct (scanTimeout (state (world s))) as [id|]; simpl;
    rewrite Hclear, insert_empty; auto 10.
Qed.

Lemma triggerScan_inv (s : Sched) : reachInv s -> reachInv (triggerScan s).
Proof.
  intros [Hinv Hs].
  destruct (triggerScan_armed s Hinv)
    as (Ht & Hst & _ & Hos & Ho & _ & Htr & Hp & Hc).
  split; [split|].
  - intros id d. rewrite Ht, Hst. intros H.
    apply lookup_singleton_Some in H as [<- _]. reflexivity.
  - intros id. rewrite Hos, Ho. apply Hinv.
  - unfold sessionInv. rewrite Htr, Hp, Hc. exact Hs.
Qed.

Lemma observerCallback_inv (mutations : list nat) (s : Sched) :
  reachInv s -> reachInv (observerCallback mutations s).
Proof.
  unfold observerCallback. destruct (existsb _ _); [apply triggerScan_inv|auto].
Qed.

Lemma deliverMutations_inv (mutations : list nat) (s : Sched) :
  reachInv s -> reachInv (deliverMutations mutations s).
Proof.
  intros Hinv. unfold deliverMutations.
  apply (foldl_invariant (fun _ s' => reachInv s')); [exact Hinv|].
  intros _ _ acc. apply observerCallback_inv.
Qed.

Lemma fireTimer_inv (s : Sched) (timer : positive * Z) :
  reachInv s -> reachInv (fireTimer s timer).
Proof.
  intros Hinv. destruct timer as [tid due]. unfold fireTimer. cbn [fst].
  destruct (timers (browser s) !! tid) as [deadline|]; [|exact Hinv].
  apply callPerformAutoScan_inv.
  destruct Hinv as [[Ht Ho] Hs]. split; [split|]; simpl; auto.
  intros id d Hid. apply (Ht id d).
  destruct (decide (tid = id)) as [->|Hne].
  - rewrite lookup_delete_eq in Hid. discriminate Hid.
  - now rewrite lookup_delete_ne in Hid by exact Hne.
Qed.

Lemma advanceTo_inv (t : Z) (s : Sched) : reachInv s -> reachInv (advanceTo t s).
Proof.
  intros Hinv. unfold advanceTo.
  assert (H : reachInv (foldl fireTimer s (dueTimers t (browser s)))).
  { apply (foldl_invariant (fun _ s' => reachInv s')); [exact Hinv|].
    intros _ timer acc. apply fireTimer_inv. }
  destruct H as [[Ht Ho] Hs]. split; [split|]; simpl; auto.
Qed.

(** Enabled: the observer at hand is kept, a new one is made only when
    there is none. Disabled: the observer and the timer are released. *)
Lemma initAutoScan_inv (stored : JsVal) (s : Sched) :
  reachInv s -> reachInv (initAutoScan stored s).
Proof.
  intros Hinv. unfold initAutoScan.
  destruct (getPreferences stored) as [[|] au].
  - pose proof (callPerformAutoScan_inv s Hinv) as Hinv1.
    destruct (observer (state (world (callPerformAutoScan s)))) as [o|] eqn:Hobs;
      [exact Hinv1|].
    destruct Hinv1 as [[Ht Ho] Hs].
    split; [split|]; simpl; auto.
    intros id. rewrite elem_of_union, elem_of_singleton. split.
    + intros [->|Hid]; [reflexivity|]. apply Ho in Hid. congruence.
    + intros [= <-]. auto.
  - destruct Hinv as [[Ht Ho] Hs].
    set (s1 := match observer (state (world s)) with
               | Some id =>
                   with_state (set_observer None)
                     (with_browser (disconnect id) s)
               | None => s
               end).
    assert (Hinv1 : reachInv s1).
    { subst s1. destruct (observer (state (world s))) as [o|] eqn:Hobs.
      - split; [split|]; simpl; auto.
        intros id. rewrite elem_of_difference, elem_of_singleton, Ho.
        split; [intros [[= ->] Hne]; now destruct Hne|intros H; discriminate H].
      - split; [split|]; auto. intros id. rewrite Hobs. apply Ho. }
    clearbody s1. destruct Hinv1 as [Hinv1 Hs1].
    pose proof (timers_cleared s1 Hinv1) as Hclear.
    destruct Hinv1 as [Ht1 Ho1].
    destruct (scanTimeout (state (world s1))) as [id|] eqn:Hid.
    + split; [split|]; simpl; auto.
      intros id' d. rewrite Hclear, lookup_empty. intros H; discriminate H.
    + split; [split|]; auto. intros id' d. rewrite Hid. apply Ht1.
Qed.

Lemma onScanRequest_inv (s : Sched) : reachInv s -> reachInv (onScanRequest s).
Proof.
  intros [[Ht Ho] Hs]. unfold onScanRequest.
  destruct (scanPageForLinks_eq (clock (browser s)) (pageAt (clock (browser s)))
              (world s)) as (ps & w1 & Hg & ->).
  pose proof (getHostsRegex_frame (clock (browser s)) (world s)) as Hf.
  rewrite Hg in Hf. simpl in Hf.
  pose proof (scanFrame_session _ _ Hf Hs) as Hs1.
  destruct Hf as (Et & Eo & _).
  split; [split|]; simpl.
  - intros id d. rewrite Et. apply Ht.
  - intros id. rewrite Eo. apply Ho.
  - apply (scanFrame_session w1); [apply scanFrame_reported|exact Hs1].
Qed.

Lemma handle_inv (s : Sched) (i : Input) : reachInv s -> reachInv (handle s i).
Proof.
  intros Hinv. destruct i as [t ms|t area ch stored|t|t]; simpl.
  - now apply deliverMutations_inv, advanceTo_inv.
  - unfold onStorageChanged. destruct (_ && _).
    + now apply initAutoScan_inv, advanceTo_inv.
    + now apply advanceTo_inv.
  - now apply onScanRequest_inv, advanceTo_inv.
  - now apply advanceTo_inv.
Qed.

Lemma sessionInv_initial : sessionInv (mkWorld initialState []).
Proof.
  split; [apply NoDup_nil_2|]. split; intros u H; [inversion H|].
  destruct H as [x Hx]. cbn [state unrestrictedCache initialState] in Hx.
  rewrite lookup_empty in Hx. discriminate Hx.
Qed.

Lemma load_inv (t0 : Z) (stored : JsVal) : reachInv (load t0 stored).
Proof.
  apply initAutoScan_inv. split; [split|apply sessionInv_initial]; simpl.
  - intros id d H. rewrite lookup_empty in H. discriminate H.
  - intros id. split; [intros H; now apply not_elem_of_empty in H|].
    intros H; discriminate H.
Qed.

(** Every state the script reaches satisfies the invariant. *)
Lemma run_inv (inputs : list Input) (s : Sched) :
  reachInv s -> reachInv (run inputs s).
Proof.
  intros Hinv. unfold run.
  apply (foldl_invariant (fun _ s' => reachInv s')); [exact Hinv|].
  intros _ i acc. apply handle_inv.
Qed.


Lemma LoopRun_all_processed links hasNew w links' hasNew' w' :
  LoopRun links hasNew w links' hasNew' w' ->
  (∀ l, l ∈ links -> type l = hoster -> url l ∈ processedLinks (state w)) ->
  links' = links ∧ hasNew' = hasNew ∧ w' = w.
Proof.
  intros Hrun0 Hall. loop_induction Hrun0; auto.
  - destruct IH as (-> & -> & ->); auto.
    intros x Hx. apply Hall, elem_of_cons. auto.
  - destruct IH as (-> & -> & ->); auto.
    intros x Hx. apply Hall, elem_of_cons. auto.
  - destruct Hin. apply Hall; [apply elem_of_cons|]; auto.
  - destruct Hin. apply Hall; [apply elem_of_cons|]; auto.
Qed.

Lemma tryUnrestrict_trace (link : DetectedLink) (hasNew : bool) (w : World) :
  trace (snd (tryUnrestrict link hasNew w))
  = trace w ++ [UNRESTRICT_LINK (url link) (unrestrictReply (trace w) (url link))].
Proof.
  unfold tryUnrestrict, bind, sendUnrestrict.
  destruct (unrestrictReply (trace w) (url link)) as [|result]; [reflexivity|].
  unfold lift. destruct (getProp result "success") as [e|success];
    [reflexivity|].
  destruct (truthy success && truthy (optProp result "data")); reflexivity.
Qed.

(** C4. In a session no URL is sent twice to the unrestrict service,
    however the script is driven; a pass makes no call for a URL that is
    already processed, and none at all when every hoster link is; and when
    the call for a link is made the link is already marked as processed. *)
Theorem unrestrict_at_most_once (inputs : list Input) (t0 : Z) (stored0 : JsVal) :
  NoDup (unrestrictCalls (trace (world (run inputs (load t0 stored0)))))
  ∧ (∀ (passes : list (list DetectedLink)) w,
       sessionInv w ->
       sessionInv
         (foldl (fun w' links => snd (autoUnrestrictLinks links w')) w passes))
  ∧ (∀ links w u,
       u ∈ processedLinks (state w) ->
       u ∉ unrestrictCalls (newEvents w (snd (autoUnrestrictLinks links w))))
  ∧ (∀ links w,
       (∀ l, l ∈ links -> type l = hoster ->
             url l ∈ processedLinks (state w)) ->
       autoUnrestrictLinks links w = (inr (links, false), w))
  ∧ (∀ link hasNew w,
       url link ∉ processedLinks (state w) ->
       unrestrictOne link hasNew w
       = try_catch (tryUnrestrict link hasNew)
           (fun _ => ret (link, hasNew)) (marked (url link) w)
       ∧ url link ∈ processedLinks (state (marked (url link) w))
       ∧ unrestrictCalls (trace (marked (url link) w))
         = unrestrictCalls (trace w)
       ∧ unrestrictCalls
           (trace (snd (tryUnrestrict link hasNew (marked (url link) w))))
         = unrestrictCalls (trace w) ++ [url link]).
Proof.
  split; [|split; [|split; [|split]]].
  - apply (run_inv inputs (load t0 stored0) (load_inv t0 stored0)).
  - intros passes w Hinv.
    apply (foldl_invariant (fun _ w' => sessionInv w')); [exact Hinv|].
    intros _ links acc. apply autoUnrestrictLinks_session.
  - intros links w u Hu.
    destruct (autoUnrestrictLinks_run links w) as (links' & h & w1 & Hrun & ->).
    destruct (LoopRun_trace _ _ _ _ _ _ Hrun) as [Htr _].
    destruct (LoopRun_calls _ _ _ _ _ _ Hrun) as (_ & Hcalls & _).
    assert (Hno : u ∉ unrestrictCalls (newEvents w w1)).
    { intros Hin. apply Hcalls in Hin as [Hno _]. auto. }
    destruct h; [|exact Hno]. simpl.
    rewrite (newEvents_report _ _ _ Htr), unrestrictCalls_app. simpl.
    now rewrite app_nil_r.
  - intros links w Hall.
    destruct (autoUnrestrictLinks_run links w) as (links' & h & w1 & Hrun & ->).
    destruct (LoopRun_all_processed _ _ _ _ _ _ Hrun Hall) as (-> & -> & ->).
    reflexivity.
  - intros link hasNew w Hno. split; [|split; [|split]].
    + unfold unrestrictOne.
      destruct (decide (url link ∈ processedLinks (state w))); [taut|].
      reflexivity.
    + simpl. apply elem_of_union. left. now apply elem_of_singleton.
    + reflexivity.
    + rewrite tryUnrestrict_trace, unrestrictCalls_app. reflexivity.
Qed.

Lemma observers_at_most_one (s : Sched) :
  schedInv s ->
  (∀ id1 id2, id1 ∈ observers (browser s) -> id2 ∈ observers (browser s) ->
              id1 = id2)
  ∧ (size (observers (browser s)) <= 1)%nat.
Proof.
  intros [_ Ho]. split.
  - intros id1 id2 H1 H2. apply Ho in H1, H2. congruence.
  - destruct (observer (state (world s))) as [o|] eqn:Hobs.
    + assert (Heq : observers (browser s) = {[o]}).
      { apply set_eq. intros x. rewrite Ho, elem_of_singleton.
        split; [intros [= ->]|intros ->]; reflexivity. }
      rewrite Heq, size_singleton. lia.
    + assert (Heq : observers (browser s) = ∅).
      { apply set_eq. intros x. rewrite Ho. split; [intros H; discriminate H|].
        intros H. now apply not_elem_of_empty in H. }
      rewrite Heq, size_empty. lia.
Qed.

Lemma initAutoScan_reuses (stored : JsVal) (s : Sched) (o : positive) :
  fst (getPreferences stored) = true ->
  observer (state (world s)) = Some o ->
  browser (initAutoScan stored s) = browser s
  ∧ observer (state (world (initAutoScan stored s))) = Some o.
Proof.
  intros Hon Hobs. unfold initAutoScan.
  destruct (getPreferences stored) as [enabled au]. simpl in Hon. subst enabled.
  destruct (callPerformAutoScan_spec s) as (w' & -> & _ & Eo & _).
  simpl. rewrite Eo, Hobs. simpl. split; [reflexivity|congruence].
Qed.

Lemma initAutoScan_releases (stored : JsVal) (s : Sched) :
  schedInv s ->
  fst (getPreferences stored) = false ->
  observer (state (world (initAutoScan stored s))) = None
  ∧ scanTimeout (state (world (initAutoScan stored s))) = None
  ∧ observers (browser (initAutoScan stored s)) = ∅
  ∧ timers (browser (initAutoScan stored s)) = ∅.
Proof.
  intros Hinv Hoff. unfold initAutoScan.
  destruct (getPreferences stored) as [enabled au]. simpl in Hoff. subst enabled.
  set (s1 := match observer (state (world s)) with
             | Some id =>
                 with_state (set_observer None)
                   (with_browser (disconnect id) s)
             | None => s
             end).
  assert (H1 : schedInv s1 ∧ observer (state (world s1)) = None
               ∧ observers (browser s1) = ∅).
  { subst s1. destruct Hinv as [Ht Ho].
    destruct (observer (state (world s))) as [o|] eqn:Hobs.
    - assert (Hempty : observers (browser s) ∖ {[o]} = (∅ : gset positive)).
      { apply set_eq. intros x.
        rewrite elem_of_difference, elem_of_singleton, Ho. split.
        - intros [[= ->] Hne]. now destruct Hne.
        - intros H. now apply not_elem_of_empty in H. }
      split; [split|]; simpl; auto.
      intros id. rewrite Hempty. split; [|intros H; discriminate H].
      intros H. now apply not_elem_of_empty in H.
    - split; [split; [exact Ht|]|split; [exact Hobs|]].
      + intros id. rewrite Hobs. apply Ho.
      + apply set_eq. intros x. rewrite Ho. split; [intros H; discriminate H|].
        intros H. now apply not_elem_of_empty in H. }
  clearbody s1. destruct H1 as (Hinv1 & Hobs1 & Hos1).
  pose proof (timers_cleared s1 Hinv1) as Hclear.
  destruct (scanTimeout (state (world s1))) as [id|] eqn:Hid; simpl; auto.
Qed.

(** C9. However the script is driven, at most one mutation observer is
    connected; [initAutoScan] with auto-scan enabled keeps the observer at
    hand and makes no other; with auto-scan disabled it leaves no observer
    connected and no timer pending, and both variables are null. *)
Theorem one_observer_at_most (inputs : list Input) (t0 : Z)
    (stored0 stored : JsVal) :
  (∀ id1 id2,
     id1 ∈ observers (browser (run inputs (load t0 stored0))) ->
     id2 ∈ observers (browser (run inputs (load t0 stored0))) ->
     id1 = id2)
  ∧ (size (observers (browser (run inputs (load t0 stored0)))) <= 1)%nat
  ∧ (fst (getPreferences stored) = true ->
     ∀ o, observer (state (world (run inputs (load t0 stored0)))) = Some o ->
          browser (initAutoScan stored (run inputs (load t0 stored0)))
          = browser (run inputs (load t0 stored0))
          ∧ observer (state (world (initAutoScan stored
                                      (run inputs (load t0 stored0)))))
            = Some o)
  ∧ (fst (getPreferences stored) = false ->
     observer (state (world (initAutoScan stored
                               (run inputs (load t0 stored0))))) = None
     ∧ scanTimeout (state (world (initAutoScan stored
                                    (run inputs (load t0 stored0))))) = None
     ∧ observers (browser (initAutoScan stored
                             (run inputs (load t0 stored0)))) = ∅
     ∧ timers (browser (initAutoScan stored
                          (run inputs (load t0 stored0)))) = ∅).
Proof.
  destruct (run_inv inputs (load t0 stored0) (load_inv t0 stored0))
    as [Hinv _].
  destruct (observers_at_most_one _ Hinv) as [Hone Hsize].
  split; [exact Hone|]. split; [exact Hsize|]. split.
  - intros Hon o Hobs. now apply initAutoScan_reuses.
  - intros Hoff. now apply initAutoScan_releases.
Qed.


Lemma filter_none {A} (P : A -> Prop) `{∀ x, Decision (P x)} (l : list A) :
  (∀ x, x ∈ l -> ¬ P x) -> filter P l = [].
Proof.
  induction l as [|x l IH]; intros Hall; [reflexivity|].
  rewrite filter_cons. destruct (decide (P x)) as [HP|_].
  - destruct (Hall x); [apply elem_of_cons; auto|exact HP].
  - apply IH. intros y Hy. apply Hall, elem_of_cons. auto.
Qed.

Lemma dueTimers_none (t : Z) (b : Browser) :
  (∀ id d, timers b !! id = Some d -> t < d) -> dueTimers t b = [].
Proof.
  intros Hlate. unfold dueTimers. rewrite filter_none; [reflexivity|].
  intros [id d] Hin. apply elem_of_map_to_list in Hin. simpl.
  apply Hlate in Hin. lia.
Qed.

Lemma dueTimers_one (t : Z) (b : Browser) (id : positive) (d : Z) :
  timers b = {[id := d]} ->
  dueTimers t b = if decide (d <= t) then [(id, d)] else [].
Proof.
  intros Htimers. unfold dueTimers. rewrite Htimers, map_to_list_singleton.
  rewrite filter_cons, filter_nil. simpl.
  destruct (decide (d <= t)); reflexivity.
Qed.

Lemma advanceTo_idle (t : Z) (s : Sched) :
  (∀ id d, timers (browser s) !! id = Some d -> t < d) ->
  clock (browser s) <= t ->
  world (advanceTo t s) = world s
  ∧ scans (advanceTo t s) = scans s
  ∧ clock (browser (advanceTo t s)) = t
  ∧ timers (browser (advanceTo t s)) = timers (browser s)
  ∧ observers (browser (advanceTo t s)) = observers (browser s).
Proof.
  intros Hlate Hclock. unfold advanceTo. rewrite dueTimers_none by exact Hlate.
  simpl. repeat split; auto. lia.
Qed.

(** A notification that adds nodes, with an observer connected and nothing
    due yet, arms the timer anew. *)
Lemma notification_arms (t : Z) (mutations : list nat) (s : Sched) :
  schedInv s ->
  (∃ o, observer (state (world s)) = Some o) ->
  clock (browser s) <= t ->
  (∀ id d, timers (browser s) !! id = Some d -> t < d) ->
  addsNodes mutations ->
  armed t (handle s (Mutations t mutations))
  ∧ scans (handle s (Mutations t mutations)) = scans s.
Proof.
  intros [Ht Ho] [o Hobs] Hclock Hlate Hadds. cbn [handle].
  destruct (advanceTo_idle t s Hlate Hclock) as (Ew & Es & Ec & Et & Eo).
  set (s1 := advanceTo t s) in *.
  assert (Hinv1 : schedInv s1).
  { split.
    - intros id d. rewrite Et, Ew. apply Ht.
    - intros id. rewrite Eo, Ew. apply Ho. }
  assert (Hone : observers (browser s1) = {[o]}).
  { rewrite Eo. apply set_eq. intros x. rewrite Ho, Hobs, elem_of_singleton.
    split; [intros [= ->]|intros ->]; reflexivity. }
  unfold deliverMutations. rewrite Hone, elements_singleton. cbn [foldl].
  unfold observerCallback. unfold addsNodes in Hadds. rewrite Hadds.
  destruct (triggerScan_armed s1 Hinv1)
    as (Ht' & Hst' & Hc' & Hos' & Ho' & Hs' & _ & _ & _).
  split; [|now rewrite Hs', Es].
  assert (Hreach : schedInv (triggerScan s1)).
  { split.
    - intros id d. rewrite Ht', Hst'. intros H.
      apply lookup_singleton_Some in H as [<- _]. reflexivity.
    - intros id. rewrite Hos', Ho'. apply Hinv1. }
  split; [exact Hreach|]. split; [now rewrite Hc'|].
  split.
  - exists (nextTimer (browser s1)). now rewrite Ht', Ec.
  - exists o. now rewrite Ho', Ew.
Qed.

Lemma armed_next (t t' : Z) (mutations : list nat) (s : Sched) :
  armed t s ->
  t <= t' < t + SCAN_DEBOUNCE_MS ->
  addsNodes mutations ->
  armed t' (handle s (Mutations t' mutations))
  ∧ scans (handle s (Mutations t' mutations)) = scans s.
Proof.
  intros (Hinv & Hclock & [id Htimers] & Hobs) Hwin Hadds.
  apply notification_arms; auto; [lia|].
  intros id' d. rewrite Htimers. intros H.
  apply lookup_singleton_Some in H as [_ <-]. lia.
Qed.

Lemma burst_keeps_armed (burst : list (Z * list nat)) (t : Z) (s : Sched) :
  armed t s ->
  withinWindow t burst ->
  armed (lastNotification t burst) (run (notifications burst) s)
  ∧ scans (run (notifications burst) s) = scans s.
Proof.
  revert t s. induction burst as [|[t' ms] rest IH]; intros t s Harmed Hwin.
  - simpl. auto.
  - destruct Hwin as (Hwin & Hadds & Hrest). simpl in Hwin, Hadds, Hrest.
    destruct (armed_next t t' ms s Harmed Hwin Hadds) as [Harmed' Hscans].
    destruct (IH t' _ Harmed' Hrest) as [Hfinal Hscans'].
    change (run (notifications ((t', ms) :: rest)) s)
      with (run (notifications rest) (handle s (Mutations t' ms))).
    split; [exact Hfinal|]. now rewrite Hscans', Hscans.
Qed.

(** Once armed at [t] and left alone, the timer fires at [t] plus the
    debounce interval, once, and not before. *)
Lemma armed_fires (t T : Z) (s : Sched) :
  armed t s ->
  scans (advanceTo T s)
  = scans s ++ (if decide (t + SCAN_DEBOUNCE_MS <= T)
                then [t + SCAN_DEBOUNCE_MS] else []).
Proof.
  intros (Hinv & Hclock & [id Htimers] & Hobs). unfold advanceTo.
  rewrite (dueTimers_one T _ id _ Htimers).
  destruct (decide (t + SCAN_DEBOUNCE_MS <= T)); simpl.
  - unfold fireTimer. simpl. rewrite Htimers, lookup_singleton_eq.
    destruct (callPerformAutoScan_spec
                (with_browser
                   (fun b => mkBrowser (Z.max (clock b) (t + SCAN_DEBOUNCE_MS))
                               (delete id (timers b)) (nextTimer b)
                               (observers b) (nextObserver b)) s))
      as (w' & -> & _).
    simpl. rewrite Hclock. f_equal. f_equal. unfold SCAN_DEBOUNCE_MS. lia.
  - now rewrite app_nil_r.
Qed.

(** C6. A burst of notifications, each less than a debounce interval after
    the one before, then silence until [T]: the burst triggers one scan, at
    the debounce interval after its last notification, and none if [T] is
    earlier than that. *)
Theorem debounce_one_scan (s : Sched) (t1 : Z) (mutations1 : list nat)
    (burst : list (Z * list nat)) (T : Z) :
  schedInv s ->
  (∃ o, observer (state (world s)) = Some o) ->
  clock (browser s) <= t1 ->
  (∀ id d, timers (browser s) !! id = Some d -> t1 < d) ->
  addsNodes mutations1 ->
  withinWindow t1 burst ->
  scans (run (Mutations t1 mutations1 :: notifications burst ++ [Elapse T]) s)
  = scans s
    ++ (if decide (lastNotification t1 burst + SCAN_DEBOUNCE_MS <= T)
        then [lastNotification t1 burst + SCAN_DEBOUNCE_MS]
        else []).
Proof.
  intros Hinv Hobs Hclock Hlate Hadds Hwin.
  destruct (notification_arms t1 mutations1 s Hinv Hobs Hclock Hlate Hadds)
    as [Harmed Hscans].
  destruct (burst_keeps_armed burst t1 _ Harmed Hwin) as [Hfinal Hscans'].
  change (run (Mutations t1 mutations1 :: notifications burst ++ [Elapse T]) s)
    with (foldl handle (handle s (Mutations t1 mutations1))
            (notifications burst ++ [Elapse T])).
  rewrite foldl_app.
  change (foldl handle (handle s (Mutations t1 mutations1))
            (notifications burst))
    with (run (notifications burst) (handle s (Mutations t1 mutations1))).
  change (foldl handle ?s' [Elapse T]) with (advanceTo T s').
  rewrite (armed_fires _ T _ Hfinal), Hscans', Hscans. reflexivity.
Qed.


(** * Further properties of the script *)

(** ** Strings *)

Lemma substring_whole (s : string) :
  String.substring 0 (String.length s) s = s.
Proof. induction s as [|c s IH]; [reflexivity|]. simpl. now rewrite IH. Qed.

Lemma substring_prefix (p q : string) :
  String.substring 0 (String.length p) (p +:+ q) = p.
Proof.
  induction p as [|c p IH]; simpl.
  - now destruct q.
  - now rewrite IH.
Qed.

Lemma substring_last (p : string) (c : ascii) :
  String.substring (String.length p) 1 (p +:+ String c EmptyString)
  = String c EmptyString.
Proof. induction p as [|a p IH]; [reflexivity|]. simpl. exact IH. Qed.

Lemma length_snoc (p : string) (c : ascii) :
  String.length (p +:+ String c EmptyString) = S (String.length p).
Proof. induction p as [|a p IH]; [reflexivity|]. simpl. now rewrite IH. Qed.

Lemma startsWith_empty (s : string) : startsWith s EmptyString = true.
Proof. now destruct s. Qed.

(** X1. A pattern in wire format, between two slashes, is compiled from
    what is between them, whatever that is; a lone slash counts as both
    delimiters and leaves the empty pattern. *)
Theorem stripDelimiters_unwraps (p : string) :
  stripDelimiters ("/" +:+ p +:+ "/") = p
  ∧ stripDelimiters "/" = EmptyString.
Proof.
  split; [|reflexivity].
  unfold stripDelimiters, endsWith, slice_1_m1.
  change ("/" +:+ p +:+ "/") with (String "/" (p +:+ "/")).
  rewrite startsWith_cons, startsWith_empty.
  cbn [String.length]. rewrite length_snoc.
  replace (S (S (String.length p)) - 1)%nat with (S (String.length p)) by lia.
  replace (S (S (String.length p)) - 2)%nat with (String.length p) by lia.
  cbn [String.substring]. rewrite substring_last, substring_prefix.
  reflexivity.
Qed.

(** ** Pattern cache *)

(** X2. The patterns compile all or none: the list comes out exactly when
    every entry of the data is a string that compiles once unwrapped, and
    then it has the entries' order and number. *)
Theorem mapPatterns_all_or_nothing (xs : list JsVal) (rs : list RegExp) :
  mapPatterns (JArr xs) = inr rs ↔ Forall2 compilesTo xs rs.
Proof.
  simpl. revert rs. induction xs as [|x xs IH]; intros rs; simpl.
  - split.
    + intros [= <-]. constructor.
    + intros H. inversion H. reflexivity.
  - split.
    + destruct x as [| |b|n|p|ys|fs]; simpl; try discriminate.
      destruct (newRegExp (stripDelimiters p)) as [r|] eqn:Hr; [|discriminate].
      destruct (mapThrow compilePattern xs) as [e|rs'] eqn:Hrest;
        [discriminate|].
      intros [= <-]. constructor; [exists p; auto|]. now apply IH.
    + intros H. inversion H as [|x' r xs' rs' (p & -> & Hp) Hrest]; subst.
      simpl. rewrite Hp. apply IH in Hrest. now rewrite Hrest.
Qed.

Lemma hostsCallback_ok (now : Z) (reply : HostsReply) (rs : list RegExp)
    (w : World) :
  replyOk reply rs ->
  hostsCallback now reply w
  = (inr rs, mkWorld (set_cache rs now (state w)) (trace w)).
Proof.
  intros (Herr & Hs & Hd & Hmap). unfold hostsCallback.
  rewrite Herr, Hs, Hd. simpl. unfold try_catch, bind, lift.
  rewrite Hmap. reflexivity.
Qed.

(** X3. A fetch that succeeds at [now] records its list with [now] as its
    timestamp, and every call before [now + TTL] gets that list back
    without another exchange; a list that is empty is recorded like any
    other. *)
Theorem fetch_then_cached (now now' : Z) (w : World) (rs : list RegExp) :
  cacheFresh now (state w) = false ->
  replyOk (hostsReply (trace w)) rs ->
  now' < now + CACHE_TTL ->
  getHostsRegex now w
  = (inr rs,
     mkWorld (set_cache rs now (state w))
       (trace w ++ [GET_HOSTS_REGEX (hostsReply (trace w))]))
  ∧ getHostsRegex now' (snd (getHostsRegex now w))
    = (inr rs, snd (getHostsRegex now w)).
Proof.
  intros Hstale Hok Hlt.
  assert (Heq : getHostsRegex now w
                = (inr rs,
                   mkWorld (set_cache rs now (state w))
                     (trace w ++ [GET_HOSTS_REGEX (hostsReply (trace w))]))).
  { rewrite (getHostsRegex_stale _ _ Hstale), fetchHostsRegex_callback.
    now apply hostsCallback_ok. }
  split; [exact Heq|]. rewrite Heq. simpl.
  unfold getHostsRegex. simpl.
  replace (now' - now <? CACHE_TTL) with true
    by (symmetry; apply Z.ltb_lt; lia).
  reflexivity.
Qed.

(** ** Host names and preferences *)

(** X4. The host shown for a link: [magnet] for a magnet URL, whether or
    not it parses; [unknown] for any other URL that does not parse; else the
    host name, less one leading [www.] and no more. *)
Theorem extractHost_cases (u : string) :
  (startsWith u "magnet:" = true -> extractHost u = "magnet")
  ∧ (startsWith u "magnet:" = false -> urlHostname u = None ->
     extractHost u = "unknown")
  ∧ (∀ h, startsWith u "magnet:" = false ->
          urlHostname u = Some ("www." +:+ h) -> extractHost u = h)
  ∧ (∀ h, startsWith u "magnet:" = false ->
          urlHostname u = Some h -> startsWith h "www." = false ->
          extractHost u = h).
Proof.
  unfold extractHost. split; [intros ->; reflexivity|].
  split; [intros -> ->; reflexivity|]. split.
  - intros h -> ->. unfold stripWww.
    change ("www." +:+ h)
      with (String "w" (String "w" (String "w" (String "." h)))).
    rewrite !startsWith_cons, startsWith_empty. cbn [andb Ascii.eqb Bool.eqb].
    cbn [String.length String.substring].
    replace (S (S (S (S (String.length h)))) - 4)%nat with (String.length h)
      by lia.
    apply substring_whole.
  - intros h -> -> Hno. unfold stripWww. now rewrite Hno.
Qed.

Lemma notFalse_false (v : JsVal) : notFalse v = false ↔ v = JBool false.
Proof.
  destruct v as [| |[|]|n|s|xs|fs]; simpl; split; intros H;
    try reflexivity; try discriminate H.
Qed.

Lemma preference_off (stored : JsVal) (key : string) :
  notFalse (optProp (if truthy stored then stored else JObj []) key) = false
  ↔ ∃ fields, stored = JObj fields ∧ lookupField key fields = JBool false.
Proof.
  rewrite notFalse_false. split.
  - destruct stored as [| |b|n|s|xs|fs]; simpl.
    + intros H; discriminate H.
    + intros H; discriminate H.
    + destruct b; intros H; discriminate H.
    + destruct (n =? 0); intros H; discriminate H.
    + destruct (String.eqb s EmptyString); intros H; discriminate H.
    + intros H; discriminate H.
    + intros H. exists fs. auto.
  - intros (fields & -> & H). exact H.
Qed.

(** X5. Only a stored record whose field is the boolean [false] switches a
    preference off: with no record, a record without the field, or a field
    that is null, zero or a string, auto-scan and auto-unrestrict are
    on. *)
Theorem preferences_default_on (stored : JsVal) :
  (fst (getPreferences stored) = false
   ↔ ∃ fields, stored = JObj fields
               ∧ lookupField "autoScanEnabled" fields = JBool false)
  ∧ (snd (getPreferences stored) = false
     ↔ ∃ fields, stored = JObj fields
                 ∧ lookupField "autoUnrestrict" fields = JBool false).
Proof.
  unfold getPreferences. cbn [fst snd]. split; apply preference_off.
Qed.


(** ** URLs in text *)

Lemma append_nil_l (s : string) : EmptyString +:+ s = s.
Proof. reflexivity. Qed.

Lemma append_cons (c : ascii) (a b : string) :
  String c a +:+ b = String c (a +:+ b).
Proof. reflexivity. Qed.

Lemma allChars_app (f : ascii -> bool) (a b : string) :
  allChars f (a +:+ b) = allChars f a && allChars f b.
Proof.
  induction a as [|c a IH]; [reflexivity|]. simpl.
  now rewrite IH, andb_assoc.
Qed.

Lemma takeUrlChars_run (s : string) :
  allChars isUrlChar (takeUrlChars s).1 = true.
Proof.
  induction s as [|c rest IH]; [reflexivity|]. cbn [takeUrlChars].
  destruct (isUrlChar c) eqn:Hc; [|reflexivity].
  destruct (takeUrlChars rest) as [run after]. simpl in *.
  now rewrite Hc, IH.
Qed.

Lemma matchColonSlashes_run (s run : string) :
  matchColonSlashes s = Some run ->
  run ≠ EmptyString ∧ allChars isUrlChar run = true.
Proof.
  unfold matchColonSlashes.
  destruct s as [|c1 [|c2 [|c3 rest]]]; try (intros H; discriminate H).
  destruct (_ && _); [|intros H; discriminate H].
  pose proof (takeUrlChars_run rest) as Hrun.
  destruct (takeUrlChars rest) as [[|c run'] after];
    [intros H; discriminate H|].
  intros [= <-]. split; [intros H; discriminate H|exact Hrun].
Qed.

Lemma eqbNoCase_true (c lower upper : ascii) :
  eqbNoCase c lower upper = true -> c = lower ∨ c = upper.
Proof.
  unfold eqbNoCase. intros H. apply orb_true_iff in H.
  destruct H as [H|H]; apply Ascii.eqb_eq in H; auto.
Qed.

Lemma matchUrlAt_http (s m : string) : matchUrlAt s = Some m -> httpUrl m.
Proof.
  unfold matchUrlAt.
  destruct s as [|h [|t1 [|t2 [|p rest]]]]; try (intros H; discriminate H).
  destruct (eqbNoCase h "h" "H") eqn:Hh; [|intros H; discriminate H].
  destruct (eqbNoCase t1 "t" "T") eqn:Ht1; [|intros H; discriminate H].
  destruct (eqbNoCase t2 "t" "T") eqn:Ht2; [|intros H; discriminate H].
  destruct (eqbNoCase p "p" "P") eqn:Hp; [|intros H; discriminate H].
  cbn [andb].
  apply eqbNoCase_true in Hh, Ht1, Ht2, Hp.
  destruct rest as [|c rest']; [intros H; discriminate H|].
  destruct (eqbNoCase c "s" "S") eqn:Hc.
  - apply eqbNoCase_true in Hc.
    destruct (matchColonSlashes rest') as [run|] eqn:Hrun;
      [|intros H; discriminate H].
    apply matchColonSlashes_run in Hrun as [Hne Hall].
    intros [= <-]. split.
    + cbn [allChars]. rewrite allChars_app, Hall.
      destruct Hh, Ht1, Ht2, Hp, Hc; subst; reflexivity.
    + exists (String h (String t1 (String t2 (String p (String c EmptyString))))),
        run.
      split; [reflexivity|]. split; [|exact Hne]. right.
      destruct Hh, Ht1, Ht2, Hp, Hc; subst; reflexivity.
  - destruct (matchColonSlashes (String c rest')) as [run|] eqn:Hrun;
      [|intros H; discriminate H].
    apply matchColonSlashes_run in Hrun as [Hne Hall].
    intros [= <-]. split.
    + cbn [allChars]. rewrite allChars_app, Hall.
      destruct Hh, Ht1, Ht2, Hp; subst; reflexivity.
    + exists (String h (String t1 (String t2 (String p EmptyString)))), run.
      split; [reflexivity|]. split; [|exact Hne]. left.
      destruct Hh, Ht1, Ht2, Hp; subst; reflexivity.
Qed.

(** X6. Whatever the text, each URL taken from it is an [http] or [https]
    URL, the scheme in any case, with something after the slashes and no
    white space, angle bracket or quote in it: no magnet, ftp or
    scheme-less link is ever taken from text. *)
Theorem text_urls_are_http (text : string) :
  Forall httpUrl (extractUrlsFromText text).
Proof.
  apply Forall_forall. intros m Hm.
  apply matchAllUrls_matched in Hm as [s Hs]. eapply matchUrlAt_http, Hs.
Qed.

Lemma stripTrailing_spec (s : string) :
  ∃ tail,
    s = (stripTrailing s).1 +:+ tail
    ∧ allChars isTrailingPunct tail = true
    ∧ ((stripTrailing s).2 = true -> (stripTrailing s).1 = EmptyString)
    ∧ ((stripTrailing s).2 = false -> (stripTrailing s).1 ≠ EmptyString)
    ∧ ∀ c, lastChar (stripTrailing s).1 = Some c -> isTrailingPunct c = false.
Proof.
  induction s as [|c rest IH].
  - exists EmptyString. simpl. repeat split; try discriminate; auto.
  - destruct IH as (tail & Heq & Htail & Hall & Hsome & Hlast).
    cbn [stripTrailing].
    destruct (stripTrailing rest) as [rest' allPunct]. cbn [fst snd] in *.
    destruct allPunct; cbn [andb].
    + specialize (Hall eq_refl). subst rest'. rewrite append_nil_l in Heq.
      subst tail.
      destruct (isTrailingPunct c) eqn:Hc; cbn [fst snd].
      * exists (String c rest). rewrite append_nil_l. cbn [allChars].
        rewrite Hc, Htail. repeat split; try discriminate; auto.
      * exists rest. rewrite append_cons, append_nil_l. cbn [lastChar].
        repeat split; try discriminate; auto.
        intros c' [= <-]. exact Hc.
    + specialize (Hsome eq_refl). exists tail. cbn [fst snd].
      rewrite append_cons.
      rewrite <- Heq. repeat split; try discriminate; auto.
      intros c'. destruct rest' as [|c2 rest2]; [now destruct Hsome|].
      cbn [lastChar]. apply Hlast.
Qed.

(** X7. Cleaning a URL found in text removes its whole final run of full
    stops, commas, semicolons and closing brackets, and nothing else: the
    URL is the cleaned one followed by such characters only, and the
    cleaned one does not end in one of them. *)
Theorem cleanTrailing_strips_run (u : string) :
  ∃ tail,
    u = cleanTrailing u +:+ tail
    ∧ allChars isTrailingPunct tail = true
    ∧ ∀ c, lastChar (cleanTrailing u) = Some c -> isTrailingPunct c = false.
Proof.
  destruct (stripTrailing_spec u) as (tail & Heq & Htail & _ & _ & Hlast).
  exists tail. unfold cleanTrailing. auto.
Qed.

(** ** Shape and order of the result *)





Lemma scanAnchor_order (patterns : list RegExp)
    (cache : gmap string UnrestrictedLink) (hs : list string) (href : string)
    (acc : gset string * list DetectedLink) :
  url <$> acc.2 `sublist_of` hs ->
  url <$> (scanAnchor patterns cache acc href).2 `sublist_of` hs ++ [href].
Proof.
  destruct acc as [seen links]. unfold scanAnchor. cbn [snd]. intros Hsub.
  destruct (_ || _ || _); [now apply sublist_inserts_r|].
  assert (Hpush : ∀ l, url l = href ->
            url <$> links ++ [l] `sublist_of` hs ++ [href]).
  { intros l Hl. rewrite fmap_app. apply sublist_app; [exact Hsub|].
    simpl. now rewrite Hl. }
  destruct (startsWith href "magnet:"); [now apply Hpush|].
  destruct (matchesHosterPattern href patterns); [now apply Hpush|].
  now apply sublist_inserts_r.
Qed.

Lemma scanTextUrl_order (patterns : list RegExp)
    (cache : gmap string UnrestrictedLink) (raws : list string) (raw : string)
    (acc : gset string * list DetectedLink) :
  url <$> acc.2 `sublist_of` cleanTrailing <$> raws ->
  url <$> (scanTextUrl patterns cache acc raw).2
    `sublist_of` cleanTrailing <$> (raws ++ [raw]).
Proof.
  destruct acc as [seen links]. unfold scanTextUrl. cbn [snd]. intros Hsub.
  rewrite (fmap_app cleanTrailing).
  destruct (decide (raw ∈ seen)); [now apply sublist_inserts_r|].
  destruct (matchesHosterPattern (cleanTrailing raw) patterns);
    [|now apply sublist_inserts_r].
  cbn [snd]. rewrite fmap_app. now apply sublist_app.
Qed.

Lemma scanTextNodes_order (patterns : list RegExp)
    (cache : gmap string UnrestrictedLink) (doc : Document) :
  url <$> scanTextNodes patterns cache doc `sublist_of` textUrls doc.
Proof.
  unfold scanTextNodes, textUrls.
  apply (foldl_invariant
           (fun nodes acc =>
              url <$> acc.2 `sublist_of` cleanTrailing <$> rawTextUrls nodes)).
  - apply sublist_nil_l.
  - intros pre node acc Hacc. rewrite rawTextUrls_snoc. unfold scanTextNode.
    destruct (acceptNode node); cbn [negb];
      [|rewrite app_nil_r; exact Hacc].
    destruct (String.eqb (nodeValue node) EmptyString) eqn:Hempty.
    { apply String.eqb_eq in Hempty. rewrite Hempty. simpl.
      rewrite app_nil_r. exact Hacc. }
    apply (foldl_invariant
             (fun us acc' =>
                url <$> acc'.2
                  `sublist_of` cleanTrailing <$> (rawTextUrls pre ++ us))).
    + now rewrite app_nil_r.
    + intros us u acc' Hacc'. rewrite app_assoc.
      now apply scanTextUrl_order.
Qed.

Lemma mergeTextLink_order (linksA : list DetectedLink)
    (done : list DetectedLink) (link : DetectedLink)
    (acc : gset string * list DetectedLink) :
  (∃ extra, acc.2 = linksA ++ extra ∧ extra `sublist_of` done) ->
  ∃ extra, (mergeTextLink acc link).2 = linksA ++ extra
           ∧ extra `sublist_of` done ++ [link].
Proof.
  destruct acc as [seen links]. intros (extra & Heq & Hsub). simpl in Heq.
  unfold mergeTextLink. destruct (decide (url link ∈ seen)); cbn [snd].
  - exists extra. split; [exact Heq|]. now apply sublist_inserts_r.
  - exists (extra ++ [link]). rewrite Heq, app_assoc.
    split; [reflexivity|]. now apply sublist_app.
Qed.

(** X9. The links of a scan come in page order: first those of the
    anchors, in document order, then those found in text only, in the order
    of the text; an anchor link is what the anchor loop makes of its URL, a
    text link is a hoster link. *)
Theorem anchors_before_text (patterns : list RegExp)
    (cache : gmap string UnrestrictedLink) (doc : Document) :
  ∃ fromAnchors fromText,
    scanDocument patterns cache doc = fromAnchors ++ fromText
    ∧ url <$> fromAnchors `sublist_of` anchors doc
    ∧ url <$> fromText `sublist_of` textUrls doc
    ∧ Forall (fun l => l = anchorLink patterns cache (url l)) fromAnchors
    ∧ Forall (fun l => l = textLink cache (url l)) fromText.
Proof.
  unfold scanDocument.
  pose proof (scanAnchors_inv patterns cache (anchors doc)) as HA.
  pose proof (scanTextNodes_inv patterns cache doc) as HT.
  pose proof (scanTextNodes_order patterns cache doc) as HTo.
  assert (HAo : url <$> (foldl (scanAnchor patterns cache) (∅, [])
                           (anchors doc)).2 `sublist_of` anchors doc).
  { apply (foldl_invariant
             (fun hs acc => url <$> acc.2 `sublist_of` hs)).
    - apply sublist_nil_l.
    - intros pre x acc. apply scanAnchor_order. }
  unfold scanTextNodes in *.
  destruct (foldl (scanAnchor patterns cache) (∅, []) (anchors doc))
    as [seenA linksA].
  destruct (foldl (scanTextNode patterns cache) (∅, []) (textNodes doc))
    as [seenT linksT].
  cbn [fst snd] in *.
  assert (HM : ∃ extra,
             (foldl mergeTextLink (seenA, linksA) linksT).2 = linksA ++ extra
             ∧ extra `sublist_of` linksT).
  { apply (foldl_invariant
             (fun done acc =>
                ∃ extra, acc.2 = linksA ++ extra ∧ extra `sublist_of` done)).
    - exists []. now rewrite app_nil_r.
    - intros pre x acc. apply mergeTextLink_order. }
  destruct HM as (extra & Heq & Hsub).
  exists linksA, extra. split; [exact Heq|]. split; [exact HAo|]. split.
  - etransitivity; [|exact HTo]. now apply fmap_sublist.
  - split; apply Forall_forall; intros l Hl.
    + destruct HA as (_ & _ & HAl & _). now destruct (HAl l Hl) as (_ & ? & _).
    + destruct HT as (_ & HTl & _).
      now destruct (HTl l (elem_of_sublist _ _ _ Hl Hsub)) as (? & _).
Qed.

Lemma textUrls_head (doc : Document) (u : string) :
  u ∈ textUrls doc ->
  ∃ c rest, u = String c rest ∧ eqbNoCase c "h" "H" = true.
Proof.
  unfold textUrls, rawTextUrls. intros Hu.
  apply list_elem_of_fmap in Hu as (raw & -> & Hin).
  apply list_elem_of_In, in_flat_map in Hin. destruct Hin as (node & _ & Hnode).
  destruct (acceptNode node); [|destruct Hnode].
  apply list_elem_of_In, matchAllUrls_matched in Hnode as [s Hs].
  apply matchUrlAt_head in Hs as (c & rest & -> & Hc).
  unfold cleanTrailing. cbn [stripTrailing].
  destruct (stripTrailing rest) as [rest' allPunct].
  exists c, rest'. split; [|exact Hc].
  apply eqbNoCase_true in Hc.
  destruct Hc; subst c; now rewrite andb_false_r.
Qed.

Lemma textUrl_scheme (doc : Document) (u : string) :
  u ∈ textUrls doc ->
  u ≠ EmptyString
  ∧ startsWith u "javascript:" = false
  ∧ startsWith u "magnet:" = false.
Proof.
  intros Hu. apply textUrls_head in Hu as (c & rest & -> & Hc).
  apply eqbNoCase_true in Hc. split; [intros H; discriminate H|].
  rewrite !startsWith_cons. destruct Hc; subst c; auto.
Qed.

Lemma scanDocument_wellFormed (patterns : list RegExp)
    (cache : gmap string UnrestrictedLink) (doc : Document)
    (l : DetectedLink) :
  l ∈ scanDocument patterns cache doc -> wellFormed patterns cache l.
Proof.
  destruct (scanDocument_spec patterns cache doc) as (_ & Hdet & Hshape).
  intros Hl.
  assert (Hd : detected patterns doc (url l)).
  { apply Hdet, list_elem_of_fmap. eauto. }
  unfold wellFormed.
  destruct (Hshape l Hl) as [(_ & Helig & Heq)|(Htext & Heq)].
  - unfold eligibleAnchor in Helig. apply andb_true_iff in Helig as [Hne Hjs].
    apply negb_true_iff in Hne, Hjs. apply String.eqb_neq in Hne.
    split; [exact Hne|]. split; [exact Hjs|].
    destruct l as [u h t r]. cbn [url host type unrestrictedLink] in *.
    unfold anchorLink in Heq.
    destruct (startsWith u "magnet:") eqn:Hmag; injection Heq as -> -> ->.
    + split; [unfold extractHost; now rewrite Hmag|].
      split; [taut|]. split; [reflexivity|].
      intros H; discriminate H.
    + split; [reflexivity|].
      split; [split; intros H; discriminate H|].
      split; [intros H; discriminate H|]. intros _. split; [|reflexivity].
      destruct Hd as [(_ & _ & [Hm|Hm])|(_ & Hm)]; [|exact Hm..].
      rewrite Hmag in Hm. discriminate Hm.
  - destruct (textUrl_scheme _ _ Htext) as (Hne & Hjs & Hmag).
    split; [exact Hne|]. split; [exact Hjs|].
    destruct l as [u h t r]. cbn [url host type unrestrictedLink] in *.
    unfold textLink in Heq. injection Heq as -> -> ->.
    split; [reflexivity|].
    split; [rewrite Hmag; split; intros H; discriminate H|].
    split; [intros H; discriminate H|]. intros _. split; [|reflexivity].
    destruct Hd as [(_ & _ & [Hm|Hm])|(_ & Hm)]; [|exact Hm..].
    rewrite Hmag in Hm. discriminate Hm.
Qed.

(** X10. Every link of a scan result is well formed: its URL is neither
    empty nor a [javascript:] one; its host is the one extracted from its
    URL; it is a magnet link exactly when its URL starts with [magnet:],
    and then carries no unrestricted data; a hoster link matches a pattern
    and carries what the cache holds for its URL. *)
Theorem scan_links_wellformed (patterns : list RegExp)
    (cache : gmap string UnrestrictedLink) (doc : Document) :
  Forall (wellFormed patterns cache) (scanDocument patterns cache doc).
Proof. apply Forall_forall. apply scanDocument_wellFormed. Qed.

(** X11. The scan fails open: when the patterns cannot be fetched (no fresh
    cache, a failing reply) it still returns, and what it returns is
    exactly the magnet anchors of the page, an older list in the cache
    notwithstanding. *)
Theorem scan_fails_open (now : Z) (doc : Document) (w : World) :
  cacheFresh now (state w) = false ->
  replyFails (hostsReply (trace w)) ->
  ∃ links w',
    scanPageForLinks now doc w = (inr links, w')
    ∧ state w' = state w
    ∧ Forall (fun l => type l = magnet) links
    ∧ ∀ u, u ∈ url <$> links
           ↔ u ∈ anchors doc ∧ startsWith u "magnet:" = true.
Proof.
  intros Hstale Hfail.
  pose proof (getHostsRegex_failure now w Hstale Hfail) as Hg.
  eexists _, _. split.
  { unfold scanPageForLinks, bind. rewrite Hg. reflexivity. }
  cbn [state]. split; [reflexivity|].
  set (links := scanDocument [] (unrestrictedCache (state w)) doc).
  destruct (scanDocument_spec [] (unrestrictedCache (state w)) doc)
    as (_ & Hdet & _).
  fold links in Hdet.
  assert (Hiff : ∀ u, u ∈ url <$> links
                      ↔ u ∈ anchors doc ∧ startsWith u "magnet:" = true).
  { intros u. rewrite Hdet. unfold detected. simpl. split.
    - intros [(Hin & _ & [Hm|Hm])|(_ & Hm)]; auto; discriminate Hm.
    - intros [Hin Hm]. left. split; [exact Hin|].
      split; [now apply startsWith_magnet|auto]. }
  split; [|exact Hiff].
  apply Forall_forall. intros l Hl.
  pose proof (scanDocument_wellFormed [] (unrestrictedCache (state w)) doc l Hl)
    as (_ & _ & _ & Hty & _).
  apply Hty, Hiff, list_elem_of_fmap. eauto.
Qed.

(** X12. Scanning reads the session and does not write it: the
    processed set, the unrestrict cache, the [isScanning] flag and the
    timer and observer handles are as before, nothing is reported or
    unrestricted; there is no exchange at all when the pattern cache is
    fresh, and one request for the patterns when it is not. *)
Theorem scan_is_read_only (now : Z) (doc : Document) (w : World) :
  scanFrame w (scanPageForLinks now doc w).2
  ∧ (cacheFresh now (state w) = true -> (scanPageForLinks now doc w).2 = w)
  ∧ (cacheFresh now (state w) = false ->
     fetched w (scanPageForLinks now doc w).2).
Proof.
  destruct (scanPageForLinks_eq now doc w) as (ps & w' & Hg & Hs).
  rewrite Hs. cbn [snd].
  pose proof (getHostsRegex_frame now w) as Hframe. rewrite Hg in Hframe.
  split; [exact Hframe|]. split.
  - unfold cacheFresh, getHostsRegex in *.
    destruct (cachedHostsRegex (state w)); [|intros H; discriminate H].
    intros Hfresh. rewrite Hfresh in Hg. unfold ret in Hg.
    now injection Hg as _ <-.
  - intros Hstale.
    rewrite (getHostsRegex_stale _ _ Hstale), fetchHostsRegex_callback in Hg.
    pose proof (hostsCallback_frame now (hostsReply (trace w))
                  (mkWorld (state w)
                     (trace w ++ [GET_HOSTS_REGEX (hostsReply (trace w))])))
      as [_ Htr].
    rewrite Hg in Htr. exact Htr.
Qed.


(** ** The unrestrict cache *)

Lemma call_has_event (u : string) (evs : list Event) :
  u ∈ unrestrictCalls evs -> ∃ r, UNRESTRICT_LINK u r ∈ evs.
Proof.
  induction evs as [|ev evs IH]; intros H; [inversion H|].
  destruct ev as [reply|links|u' r]; simpl in H.
  - destruct (IH H) as [r Hr]. exists r. apply elem_of_cons. auto.
  - destruct (IH H) as [r Hr]. exists r. apply elem_of_cons. auto.
  - apply elem_of_cons in H as [->|H].
    + exists r. apply elem_of_cons. auto.
    + destruct (IH H) as [r' Hr]. exists r'. apply elem_of_cons. auto.
Qed.

(** What a run of the loop does to the cache: the entry of a URL is the
    result its call brought, and as before when its call brought none or
    when it was not called. *)
Lemma LoopRun_cache links hasNew w links' hasNew' w' :
  LoopRun links hasNew w links' hasNew' w' ->
  (∀ u, u ∉ unrestrictCalls (newEvents w w') ->
        unrestrictedCache (state w') !! u = unrestrictedCache (state w) !! u)
  ∧ (∀ u r, UNRESTRICT_LINK u r ∈ newEvents w w' ->
        unrestrictedCache (state w') !! u
        = match unrestrictData r with
          | Some data => Some data
          | None => unrestrictedCache (state w) !! u
          end).
Proof.
  intros Hrun0. loop_induction Hrun0; auto.
  - rewrite newEvents_refl. split; [auto|]. intros u r H. inversion H.
  - destruct IH as [IH1 IH2].
    destruct (LoopRun_trace _ _ _ _ _ _ Hrun) as [Htr _].
    destruct (LoopRun_calls _ _ _ _ _ _ Hrun) as (_ & Hcalls & _).
    rewrite (LoopRun_events_success _ _ _ _ Htr).
    assert (Hrest : ∀ u, u ∈ unrestrictCalls
                               (newEvents (afterSuccess (url l) d w) w') ->
                         url l ≠ u).
    { intros u Hu Heq. apply Hcalls in Hu as [Hno _]. apply Hno. subst u.
      simpl. apply elem_of_union. left. now apply elem_of_singleton. }
    split.
    + intros u Hu. simpl in Hu. rewrite not_elem_of_cons in Hu.
      destruct Hu as [Hne Hu]. rewrite (IH1 u Hu). simpl.
      apply lookup_insert_ne. auto.
    + intros u r Hev. apply elem_of_cons in Hev as [Heq|Hev].
      * injection Heq as -> ->. rewrite Hd, IH1.
        -- simpl. apply lookup_insert_eq.
        -- intros Hu. now apply (Hrest _ Hu).
      * rewrite (IH2 u r Hev). destruct (unrestrictData r); [reflexivity|].
        simpl. apply lookup_insert_ne.
        eapply Hrest, event_in_calls, Hev.
  - destruct IH as [IH1 IH2].
    destruct (LoopRun_trace _ _ _ _ _ _ Hrun) as [Htr _].
    destruct (LoopRun_calls _ _ _ _ _ _ Hrun) as (_ & Hcalls & _).
    rewrite (LoopRun_events_failure _ _ _ Htr).
    split.
    + intros u Hu. simpl in Hu. rewrite not_elem_of_cons in Hu.
      destruct Hu as [Hne Hu]. now rewrite (IH1 u Hu).
    + intros u r Hev. apply elem_of_cons in Hev as [Heq|Hev].
      * injection Heq as -> ->. rewrite Hd, IH1; [reflexivity|].
        intros Hu. apply Hcalls in Hu as [Hno _]. apply Hno.
        simpl. apply elem_of_union. left. now apply elem_of_singleton.
      * now rewrite (IH2 u r Hev).
Qed.

(** The report that may end a pass adds no call and changes no state. *)
Lemma pass_events links hasNew w links' hasNew' w1 (reportIt : bool) :
  LoopRun links hasNew w links' hasNew' w1 ->
  let w' := if reportIt
            then mkWorld (state w1) (trace w1 ++ [REPORT_DETECTED_LINKS links'])
            else w1 in
  state w' = state w1
  ∧ unrestrictCalls (newEvents w w') = unrestrictCalls (newEvents w w1)
  ∧ ∀ u r, UNRESTRICT_LINK u r ∈ newEvents w w'
           ↔ UNRESTRICT_LINK u r ∈ newEvents w w1.
Proof.
  intros Hrun. destruct reportIt; simpl; [|auto].
  destruct (LoopRun_trace _ _ _ _ _ _ Hrun) as [Htr _].
  rewrite (newEvents_report _ _ _ Htr), unrestrictCalls_app. simpl.
  rewrite app_nil_r. split; [reflexivity|]. split; [reflexivity|].
  intros u r. rewrite elem_of_app, list_elem_of_singleton. split; [|auto].
  intros [H|H]; [exact H|discriminate H].
Qed.

(** X13. A pass records its results: afterwards the cache holds, for every
    URL sent, the data its call brought; the entry of a URL whose call
    failed, or that was not sent, is as before. *)
Theorem pass_records_results (links : list DetectedLink) (w : World) :
  ∃ links' hasNew w',
    autoUnrestrictLinks links w = (inr (links', hasNew), w')
    ∧ (∀ u r data,
         UNRESTRICT_LINK u r ∈ newEvents w w' ->
         unrestrictData r = Some data ->
         unrestrictedCache (state w') !! u = Some data)
    ∧ (∀ u r,
         UNRESTRICT_LINK u r ∈ newEvents w w' ->
         unrestrictData r = None ->
         unrestrictedCache (state w') !! u = unrestrictedCache (state w) !! u)
    ∧ (∀ u, u ∉ unrestrictCalls (newEvents w w') ->
         unrestrictedCache (state w') !! u = unrestrictedCache (state w) !! u).
Proof.
  destruct (autoUnrestrictLinks_run links w) as (links' & h & w1 & Hrun & ->).
  eexists _, _, _. split; [reflexivity|].
  destruct (pass_events _ _ _ _ _ _ h Hrun) as (-> & -> & Hev).
  destruct (LoopRun_cache _ _ _ _ _ _ Hrun) as [H1 H2].
  split; [|split; [|exact H1]].
  - intros u r data Hin Hr. apply Hev in Hin. rewrite (H2 u r Hin).
    now rewrite Hr.
  - intros u r Hin Hr. apply Hev in Hin. rewrite (H2 u r Hin).
    now rewrite Hr.
Qed.


Lemma foldl_simulation {A B C} (R : A -> C -> Prop) (f : A -> B -> A)
    (g : C -> B -> C) (l : list B) :
  (∀ a c x, R a c -> R (f a x) (g c x)) ->
  ∀ a c, R a c -> R (foldl f a l) (foldl g c l).
Proof.
  intros Hstep. induction l as [|x l IH]; intros a c Hac; [exact Hac|].
  simpl. apply IH, Hstep, Hac.
Qed.

Lemma scanAnchor_relink (patterns : list RegExp)
    (c1 c2 : gmap string UnrestrictedLink)
    (acc acc' : gset string * list DetectedLink) (href : string) :
  relinked c2 acc acc' ->
  relinked c2 (scanAnchor patterns c1 acc href)
    (scanAnchor patterns c2 acc' href).
Proof.
  destruct acc as [seen links]. unfold relinked. intros ->. cbn [fst snd].
  unfold scanAnchor.
  destruct (_ || _ || _); [reflexivity|].
  destruct (startsWith href "magnet:");
    [cbn [fst snd]; now rewrite fmap_app|].
  destruct (matchesHosterPattern href patterns); [|reflexivity].
  cbn [fst snd]. now rewrite fmap_app.
Qed.

Lemma scanTextUrl_relink (patterns : list RegExp)
    (c1 c2 : gmap string UnrestrictedLink)
    (acc acc' : gset string * list DetectedLink) (u : string) :
  relinked c2 acc acc' ->
  relinked c2 (scanTextUrl patterns c1 acc u) (scanTextUrl patterns c2 acc' u).
Proof.
  destruct acc as [seen links]. unfold relinked. intros ->. cbn [fst snd].
  unfold scanTextUrl.
  destruct (decide (u ∈ seen)); [reflexivity|].
  destruct (matchesHosterPattern (cleanTrailing u) patterns); [|reflexivity].
  cbn [fst snd]. now rewrite fmap_app.
Qed.

Lemma scanTextNode_relink (patterns : list RegExp)
    (c1 c2 : gmap string UnrestrictedLink)
    (acc acc' : gset string * list DetectedLink) (node : TextNode) :
  relinked c2 acc acc' ->
  relinked c2 (scanTextNode patterns c1 acc node)
    (scanTextNode patterns c2 acc' node).
Proof.
  intros Hacc. unfold scanTextNode.
  destruct (negb (acceptNode node)); [exact Hacc|].
  destruct (String.eqb (nodeValue node) EmptyString); [exact Hacc|].
  apply (foldl_simulation (relinked c2)); [|exact Hacc].
  intros a c x. apply scanTextUrl_relink.
Qed.

Lemma mergeTextLink_relink (cache : gmap string UnrestrictedLink)
    (acc acc' : gset string * list DetectedLink) (link : DetectedLink) :
  relinked cache acc acc' ->
  relinked cache (mergeTextLink acc link)
    (mergeTextLink acc' (relink cache link)).
Proof.
  destruct acc as [seen links]. unfold relinked. intros ->. cbn [fst snd].
  unfold mergeTextLink.
  assert (Hurl : url (relink cache link) = url link)
    by (unfold relink; now destruct (type link)).
  rewrite Hurl.
  destruct (decide (url link ∈ seen)); [reflexivity|].
  cbn [fst snd]. now rewrite fmap_app.
Qed.

(** Which links a scan finds does not depend on the unrestrict cache: the
    cache fills the [unrestrictedLink] field of the hoster links, and that
    is all. *)
Lemma scanDocument_relink (patterns : list RegExp)
    (c1 c2 : gmap string UnrestrictedLink) (doc : Document) :
  scanDocument patterns c2 doc = relink c2 <$> scanDocument patterns c1 doc.
Proof.
  unfold scanDocument, scanTextNodes.
  assert (HA : relinked c2
                 (foldl (scanAnchor patterns c1) (∅, []) (anchors doc))
                 (foldl (scanAnchor patterns c2) (∅, []) (anchors doc))).
  { apply (foldl_simulation (relinked c2)); [|reflexivity].
    intros a c x. apply scanAnchor_relink. }
  assert (HT : relinked c2
                 (foldl (scanTextNode patterns c1) (∅, []) (textNodes doc))
                 (foldl (scanTextNode patterns c2) (∅, []) (textNodes doc))).
  { apply (foldl_simulation (relinked c2)); [|reflexivity].
    intros a c x. apply scanTextNode_relink. }
  rewrite HT. cbn [snd]. rewrite foldl_fmap.
  assert (HM : relinked c2
                 (foldl mergeTextLink
                    (foldl (scanAnchor patterns c1) (∅, []) (anchors doc))
                    (foldl (scanTextNode patterns c1) (∅, [])
                       (textNodes doc)).2)
                 (foldl (fun a b => mergeTextLink a (relink c2 b))
                    (foldl (scanAnchor patterns c2) (∅, []) (anchors doc))
                    (foldl (scanTextNode patterns c1) (∅, [])
                       (textNodes doc)).2)).
  { apply (foldl_simulation (relinked c2)); [|exact HA].
    intros a c x. apply mergeTextLink_relink. }
  rewrite HM. reflexivity.
Qed.

(** X14. After a pass over the links of a scan, the list the pass updated
    in place is the list a new scan of the page would give: each result
    written into a link is the one written into the cache. *)
Theorem pass_agrees_with_rescan (patterns : list RegExp) (doc : Document)
    (w : World) :
  ∃ links' hasNew w',
    autoUnrestrictLinks
      (scanDocument patterns (unrestrictedCache (state w)) doc) w
    = (inr (links', hasNew), w')
    ∧ links' = scanDocument patterns (unrestrictedCache (state w')) doc.
Proof.
  set (links := scanDocument patterns (unrestrictedCache (state w)) doc).
  destruct (autoUnrestrictLinks_run links w) as (links' & h & w1 & Hrun & ->).
  eexists _, _, _. split; [reflexivity|].
  destruct (pass_events _ _ _ _ _ _ h Hrun) as (-> & _ & _).
  rewrite (scanDocument_relink patterns (unrestrictedCache (state w))).
  fold links.
  destruct (LoopRun_links _ _ _ _ _ _ Hrun) as [Hlen Hidx].
  destruct (LoopRun_cache _ _ _ _ _ _ Hrun) as [Hkeep Hset].
  destruct (scanDocument_spec patterns (unrestrictedCache (state w)) doc)
    as (Hnd & _ & _).
  fold links in Hnd.
  apply list_eq. intros i. rewrite list_lookup_fmap.
  destruct (links !! i) as [l|] eqn:Hl.
  2:{ simpl. apply lookup_ge_None. rewrite Hlen. now apply lookup_ge_None. }
  simpl. destruct (Hidx i l Hl) as (l' & Hl' & Hcase & _ & Hmag & Hfail).
  rewrite Hl'. f_equal.
  assert (Hwf : wellFormed patterns (unrestrictedCache (state w)) l).
  { apply (scanDocument_wellFormed _ _ doc).
    eapply list_elem_of_lookup_2, Hl. }
  destruct Hwf as (_ & _ & _ & _ & _ & Hhoster).
  unfold relink. destruct (type l) eqn:Hty; [|now apply Hmag].
  destruct (Hhoster eq_refl) as [_ Hfield].
  destruct (decide (url l ∈ unrestrictCalls (newEvents w w1))) as [Hin|Hout].
  - apply call_has_event in Hin as [r Hr]. rewrite (Hset _ _ Hr).
    destruct (unrestrictData r) as [data|] eqn:Hdata.
    + destruct (LoopRun_gained _ _ _ _ _ _ _ _ _ Hrun Hr Hdata)
        as (j & lj & Hj & Hurl & Hj').
      assert (Hij : j = i).
      { apply (NoDup_lookup (url <$> links) j i (url l) Hnd);
          rewrite list_lookup_fmap; [rewrite Hj|rewrite Hl]; simpl;
          congruence. }
      subst j. rewrite Hl in Hj. injection Hj as <-.
      rewrite Hj' in Hl'. injection Hl' as <-.
      unfold withResult. now rewrite Hty.
    + rewrite (Hfail r Hr Hdata), <- Hfield. destruct l; simpl in *.
      now subst.
  - rewrite (Hkeep _ Hout), <- Hfield.
    destruct Hcase as [->|(_ & _ & r & data & Hr & _)].
    + destruct l; simpl in *. now subst.
    + exfalso. eapply Hout, event_in_calls, Hr.
Qed.

Lemma LoopRun_calls_order links hasNew w links' hasNew' w' :
  LoopRun links hasNew w links' hasNew' w' ->
  unrestrictCalls (newEvents w w') `sublist_of` hosterUrls links.
Proof.
  unfold hosterUrls. intros Hrun0. loop_induction Hrun0.
  - rewrite newEvents_refl. apply sublist_nil_l.
  - rewrite filter_cons. destruct (decide (type l = hoster)) as [Hh|_];
      [congruence|exact IH].
  - rewrite filter_cons, decide_True by exact Ht. simpl.
    now apply sublist_cons.
  - destruct (LoopRun_trace _ _ _ _ _ _ Hrun) as [Htr _].
    rewrite (LoopRun_events_success _ _ _ _ Htr).
    rewrite filter_cons, decide_True by exact Ht. simpl.
    now apply sublist_skip.
  - destruct (LoopRun_trace _ _ _ _ _ _ Hrun) as [Htr _].
    rewrite (LoopRun_events_failure _ _ _ Htr).
    rewrite filter_cons, decide_True by exact Ht. simpl.
    now apply sublist_skip.
Qed.

(** X15. A pass changes nothing of a link but its unrestricted data: URL,
    host and type stay, a magnet link is untouched, and the list keeps its
    length and order; the calls are made for hoster links only, in the
    order of the list. *)
Theorem pass_keeps_links (links : list DetectedLink) (w : World) :
  ∃ links' hasNew w',
    autoUnrestrictLinks links w = (inr (links', hasNew), w')
    ∧ Forall2 sameLink links links'
    ∧ unrestrictCalls (newEvents w w') `sublist_of` hosterUrls links.
Proof.
  destruct (autoUnrestrictLinks_run links w) as (links' & h & w1 & Hrun & ->).
  eexists _, _, _. split; [reflexivity|].
  destruct (pass_events _ _ _ _ _ _ h Hrun) as (_ & -> & _).
  split; [|now apply (LoopRun_calls_order _ _ _ _ _ _ Hrun)].
  destruct (LoopRun_links _ _ _ _ _ _ Hrun) as [Hlen Hidx].
  apply Forall2_same_length_lookup_2; [now rewrite Hlen|].
  intros i l l' Hl Hl'.
  destruct (Hidx i l Hl) as (l2 & Hl2 & Hcase & _ & Hmag & _).
  rewrite Hl' in Hl2. injection Hl2 as <-. unfold sameLink.
  destruct Hcase as [->|(_ & _ & r & data & _ & _ & ->)].
  - repeat split; auto.
  - simpl. repeat split; eauto.
Qed.


(** ** Automatic and requested scans *)

Lemma scanning_idle (w : World) :
  isScanning (state w) = false -> scanning false w = w.
Proof.
  destruct w as [[c ts t b o p u] tr]. simpl. intros ->. reflexivity.
Qed.

Lemma hostsCallback_scanning (b : bool) (now : Z) (reply : HostsReply)
    (w : World) :
  hostsCallback now reply (scanning b w)
  = ((hostsCallback now reply w).1, scanning b (hostsCallback now reply w).2).
Proof.
  unfold hostsCallback. destruct (_ || _ || _); [reflexivity|].
  unfold_M. destruct (mapPatterns _); reflexivity.
Qed.

Lemma getHostsRegex_scanning (b : bool) (now : Z) (w : World) :
  getHostsRegex now (scanning b w)
  = ((getHostsRegex now w).1, scanning b (getHostsRegex now w).2).
Proof.
  assert (Hfetch : fetchHostsRegex now (scanning b w)
                   = ((fetchHostsRegex now w).1,
                      scanning b (fetchHostsRegex now w).2)).
  { rewrite !fetchHostsRegex_callback.
    apply (hostsCallback_scanning b now (hostsReply (trace w))
             (mkWorld (state w)
                (trace w ++ [GET_HOSTS_REGEX (hostsReply (trace w))]))). }
  unfold getHostsRegex. cbn [scanning state set_isScanning cachedHostsRegex
                              cachedHostsRegexTimestamp].
  destruct (cachedHostsRegex (state w)); [|exact Hfetch].
  destruct (_ <? _); [reflexivity|exact Hfetch].
Qed.

Lemma getHostsRegex_events (now : Z) (w : World) :
  ∃ evs, trace (getHostsRegex now w).2 = trace w ++ evs
         ∧ Forall isHostsRequest evs.
Proof.
  destruct (cacheFresh now (state w)) eqn:Hfresh.
  - exists []. split; [|constructor]. rewrite app_nil_r.
    unfold cacheFresh, getHostsRegex in *.
    destruct (cachedHostsRegex (state w)); [|discriminate Hfresh].
    now rewrite Hfresh.
  - exists [GET_HOSTS_REGEX (hostsReply (trace w))].
    split; [|repeat constructor].
    rewrite (getHostsRegex_stale _ _ Hfresh), fetchHostsRegex_callback.
    apply (hostsCallback_frame now (hostsReply (trace w))
             (mkWorld (state w)
                (trace w ++ [GET_HOSTS_REGEX (hostsReply (trace w))]))).
Qed.


(** X17. The two preferences gate the automatic scan: with auto-scan off a
    call made when idle changes nothing, not even the log; with
    auto-unrestrict off no link is sent to the unrestrict service, and the
    processed set and the unrestrict cache stay as they are. *)
Theorem preferences_gate_auto_scan (now : Z) (stored : JsVal)
    (doc : Document) (w : World) :
  (isScanning (state w) = false -> fst (getPreferences stored) = false ->
   performAutoScan now stored doc w = (inr tt, w))
  ∧ (snd (getPreferences stored) = false ->
     unrestrictCalls (trace (performAutoScan now stored doc w).2)
     = unrestrictCalls (trace w)
     ∧ processedLinks (state (performAutoScan now stored doc w).2)
       = processedLinks (state w)
     ∧ unrestrictedCache (state (performAutoScan now stored doc w).2)
       = unrestrictedCache (state w)).
Proof.
  split.
  { intros Hidle Hoff.
    rewrite performAutoScan_disabled by assumption.
    now rewrite scanning_idle. }
  intros Hau.
  destruct (isScanning (state w)) eqn:Hidle.
  { rewrite performAutoScan_busy by exact Hidle. auto. }
  destruct (getPreferences stored) as [[|] au] eqn:Hprefs.
  2:{ rewrite performAutoScan_disabled by (try rewrite Hprefs; auto). auto. }
  simpl in Hau. subst au.
  destruct (performAutoScan_enabled now stored doc w false Hidle Hprefs)
    as (ps & w1 & Hg & ->).
  pose proof (getHostsRegex_frame now (scanning true w)) as Hf.
  rewrite Hg in Hf. destruct Hf as (_ & _ & _ & Hp & Hc & Hcalls).
  simpl in Hp, Hc, Hcalls. cbn [snd].
  destruct (scanDocument ps (unrestrictedCache (state w1)) doc)
    as [|link rest]; simpl; [auto|].
  rewrite unrestrictCalls_app. simpl. rewrite app_nil_r. auto.
Qed.

Lemma scanPageForLinks_scanning (b : bool) (now : Z) (doc : Document)
    (w : World) :
  scanPageForLinks now doc (scanning b w)
  = ((scanPageForLinks now doc w).1, scanning b (scanPageForLinks now doc w).2).
Proof.
  unfold scanPageForLinks, bind. rewrite getHostsRegex_scanning.
  destruct (getHostsRegex_total now w) as (ps & w' & ->). reflexivity.
Qed.

(** X18. An automatic scan that finds no link reports nothing: the only
    exchange it may make is the request for the patterns. *)
Theorem empty_scan_not_reported (now : Z) (stored : JsVal) (doc : Document)
    (w : World) :
  (scanPageForLinks now doc w).1 = inr [] ->
  Forall isHostsRequest
    (newEvents w (performAutoScan now stored doc w).2).
Proof.
  intros Hempty.
  destruct (isScanning (state w)) eqn:Hidle.
  { rewrite performAutoScan_busy by exact Hidle. simpl.
    rewrite newEvents_refl. constructor. }
  destruct (getPreferences stored) as [[|] au] eqn:Hprefs.
  2:{ rewrite performAutoScan_disabled by (try rewrite Hprefs; auto).
      rewrite scanning_idle by exact Hidle. simpl.
      rewrite newEvents_refl. constructor. }
  destruct (performAutoScan_enabled now stored doc w au Hidle Hprefs)
    as (ps & w1 & Hg & ->).
  destruct (scanPageForLinks_eq now doc w) as (ps0 & w0 & Hg0 & Hs0).
  rewrite Hs0 in Hempty. simpl in Hempty. injection Hempty as Hempty.
  rewrite getHostsRegex_scanning, Hg0 in Hg. simpl in Hg.
  injection Hg as <- <-.
  cbn [scanning state set_isScanning unrestrictedCache].
  rewrite Hempty. cbn [snd].
  destruct (getHostsRegex_events now w) as (evs & Htr & Hevs).
  rewrite Hg0 in Htr. simpl in Htr.
  rewrite (newEvents_app w _ evs); [exact Hevs|]. exact Htr.
Qed.


(** ** Timers and observers *)

(** X20. In every state the script can reach, at most one debounce timer
    is pending, and it is the one whose handle [scanTimeout] holds. *)
Theorem one_timer_at_most (inputs : list Input) (t0 : Z) (stored0 : JsVal) :
  (size (timers (browser (run inputs (load t0 stored0)))) <= 1)%nat
  ∧ ∀ id d,
      timers (browser (run inputs (load t0 stored0))) !! id = Some d ->
      scanTimeout (state (world (run inputs (load t0 stored0)))) = Some id.
Proof.
  destruct (run_inv inputs _ (load_inv t0 stored0)) as [Hinv _].
  split; [|apply Hinv].
  pose proof (timers_cleared _ Hinv) as Hclear.
  destruct (scanTimeout (state (world (run inputs (load t0 stored0)))))
    as [id|]; [|rewrite Hclear, map_size_empty; lia].
  destruct (timers (browser (run inputs (load t0 stored0))) !! id)
    as [d|] eqn:Hid.
  - rewrite <- (insert_delete_id _ _ _ Hid), Hclear, insert_empty,
      map_size_singleton.
    lia.
  - rewrite delete_id in Hclear by exact Hid.
    rewrite Hclear, map_size_empty. lia.
Qed.

Lemma onScanRequest_browser (s : Sched) :
  browser (onScanRequest s) = browser s ∧ scans (onScanRequest s) = scans s.
Proof.
  unfold onScanRequest. destruct (scanPageForLinks _ _ _) as [[e|links] w];
    auto.
Qed.

Lemma advanceTo_no_timer (t : Z) (s : Sched) :
  timers (browser s) = ∅ ->
  world (advanceTo t s) = world s
  ∧ scans (advanceTo t s) = scans s
  ∧ timers (browser (advanceTo t s)) = ∅
  ∧ observers (browser (advanceTo t s)) = observers (browser s).
Proof.
  intros Hnone. unfold advanceTo. rewrite dueTimers_none.
  - simpl. auto.
  - intros id d. rewrite Hnone, lookup_empty. intros H; discriminate H.
Qed.

Lemma handle_disabled (s : Sched) (i : Input) :
  timers (browser s) = ∅ ->
  observers (browser s) = ∅ ->
  keepsPreferences i ->
  scans (handle s i) = scans s
  ∧ timers (browser (handle s i)) = ∅
  ∧ observers (browser (handle s i)) = ∅.
Proof.
  intros Ht Ho Hi.
  destruct (advanceTo_no_timer (match i with
                                | Mutations t _ | StorageChanged t _ _ _
                                | ScanRequest t | Elapse t => t
                                end) s Ht) as (_ & Hs & Ht' & Ho').
  rewrite Ho in Ho'.
  destruct i as [t ms|t area changes stored|t|t]; cbn [handle].
  - unfold deliverMutations. rewrite Ho', elements_empty. simpl. auto.
  - unfold onStorageChanged. simpl in Hi. rewrite Hi. auto.
  - destruct (onScanRequest_browser (advanceTo t s)) as (-> & ->). auto.
  - auto.
Qed.

(** X21. Once auto-scan is switched off, nothing scans the page by itself
    any more: no mutation, no lapse of time and no scan on request leads to
    a call of [performAutoScan], and no timer or observer is left or set,
    until the preferences change again. *)
Theorem disabled_stays_quiet (stored : JsVal) (s : Sched)
    (inputs : list Input) :
  schedInv s ->
  fst (getPreferences stored) = false ->
  Forall keepsPreferences inputs ->
  scans (run inputs (initAutoScan stored s)) = scans s
  ∧ timers (browser (run inputs (initAutoScan stored s))) = ∅
  ∧ observers (browser (run inputs (initAutoScan stored s))) = ∅.
Proof.
  intros Hinv Hoff Hquiet.
  destruct (initAutoScan_releases stored s Hinv Hoff) as (_ & _ & Ho & Ht).
  assert (Hs : scans (initAutoScan stored s) = scans s).
  { unfold initAutoScan. destruct (getPreferences stored) as [enabled au].
    simpl in Hoff. subst enabled.
    destruct (observer (state (world s)));
      destruct (scanTimeout _); reflexivity. }
  rewrite <- Hs. clear Hs.
  generalize dependent (initAutoScan stored s). clear Hinv s.
  induction Hquiet as [|i inputs Hi _ IH]; intros s Ho Ht; [auto|].
  unfold run. simpl. fold (run inputs (handle s i)).
  destruct (handle_disabled s i Ht Ho Hi) as (Hs' & Ht' & Ho').
  rewrite <- Hs'. now apply IH.
Qed.

(** X22. A batch of mutation records none of which adds a node is ignored:
    it arms no timer and delays none. *)
Theorem mutations_without_additions_ignored (t : Z) (mutations : list nat)
    (s : Sched) :
  ¬ addsNodes mutations ->
  handle s (Mutations t mutations) = advanceTo t s.
Proof.
  unfold addsNodes. intros Hno. apply not_true_is_false in Hno.
  cbn [handle]. unfold deliverMutations.
  induction (elements (observers (browser (advanceTo t s)))) as [|o os IH]
    using rev_ind; [reflexivity|].
  rewrite foldl_app. simpl. rewrite IH. unfold observerCallback.
  now rewrite Hno.
Qed.


(** ** URLs in text, found *)

Lemma lowerAscii_h (c : ascii) :
  lowerAscii c = "h"%char -> eqbNoCase c "h" "H" = true.
Proof.
  destruct c as [[] [] [] [] [] [] [] []]; vm_compute; intros H;
    first [reflexivity|discriminate H].
Qed.

Lemma lowerAscii_t (c : ascii) :
  lowerAscii c = "t"%char -> eqbNoCase c "t" "T" = true.
Proof.
  destruct c as [[] [] [] [] [] [] [] []]; vm_compute; intros H;
    first [reflexivity|discriminate H].
Qed.

Lemma lowerAscii_p (c : ascii) :
  lowerAscii c = "p"%char -> eqbNoCase c "p" "P" = true.
Proof.
  destruct c as [[] [] [] [] [] [] [] []]; vm_compute; intros H;
    first [reflexivity|discriminate H].
Qed.

Lemma lowerAscii_s (c : ascii) :
  lowerAscii c = "s"%char -> eqbNoCase c "s" "S" = true.
Proof.
  destruct c as [[] [] [] [] [] [] [] []]; vm_compute; intros H;
    first [reflexivity|discriminate H].
Qed.

Lemma takeUrlChars_stops (run tail : string) :
  allChars isUrlChar run = true -> urlStops tail ->
  takeUrlChars (run +:+ tail) = (run, tail).
Proof.
  intros Hrun Htail. induction run as [|c run IH].
  - rewrite append_nil_l. destruct tail as [|c tail]; [reflexivity|].
    simpl in Htail. cbn [takeUrlChars]. now rewrite Htail.
  - rewrite append_cons. cbn [allChars] in Hrun.
    apply andb_true_iff in Hrun as [Hc Hrun].
    cbn [takeUrlChars]. now rewrite Hc, IH.
Qed.

Lemma matchColonSlashes_stops (run tail : string) :
  run ≠ EmptyString -> allChars isUrlChar run = true -> urlStops tail ->
  matchColonSlashes ("://" +:+ run +:+ tail) = Some run.
Proof.
  intros Hne Hrun Htail.
  change ("://" +:+ run +:+ tail)
    with (String ":" (String "/" (String "/" (run +:+ tail)))).
  cbn [matchColonSlashes Ascii.eqb Bool.eqb andb].
  rewrite takeUrlChars_stops by assumption.
  destruct run; [now destruct Hne|reflexivity].
Qed.

Lemma append_assoc (a b c : string) : (a +:+ b) +:+ c = a +:+ b +:+ c.
Proof.
  induction a as [|x a IH]; [reflexivity|].
  now rewrite !append_cons, IH.
Qed.

Lemma matchUrlAt_stops (m tail : string) :
  httpUrl m -> urlStops tail -> matchUrlAt (m +:+ tail) = Some m.
Proof.
  intros (Hall & scheme & rest & -> & Hscheme & Hne) Htail.
  rewrite !allChars_app in Hall.
  apply andb_true_iff in Hall as [_ Hall].
  apply andb_true_iff in Hall as [_ Hrest].
  rewrite !append_assoc.
  pose proof (matchColonSlashes_stops rest tail Hne Hrest Htail) as Hrun.
  destruct Hscheme as [Hs|Hs].
  - destruct scheme as [|h [|t1 [|t2 [|p [|c scheme]]]]];
      try discriminate Hs.
    cbn [lowerString] in Hs. injection Hs as Hh Ht1 Ht2 Hp.
    apply lowerAscii_h in Hh. apply lowerAscii_t in Ht1, Ht2.
    apply lowerAscii_p in Hp.
    rewrite !append_cons, append_nil_l.
    change ("://" +:+ rest +:+ tail)
      with (String ":" (String "/" (String "/" (rest +:+ tail)))) in *.
    unfold matchUrlAt. rewrite Hh, Ht1, Ht2, Hp. cbn [andb].
    replace (eqbNoCase ":" "s" "S") with false by reflexivity.
    rewrite !append_nil_l, Hrun. reflexivity.
  - destruct scheme as [|h [|t1 [|t2 [|p [|c [|c2 scheme]]]]]];
      try discriminate Hs.
    cbn [lowerString] in Hs. injection Hs as Hh Ht1 Ht2 Hp Hc.
    apply lowerAscii_h in Hh. apply lowerAscii_t in Ht1, Ht2.
    apply lowerAscii_p in Hp. apply lowerAscii_s in Hc.
    rewrite !append_cons, append_nil_l. unfold matchUrlAt.
    rewrite Hh, Ht1, Ht2, Hp, Hc. cbn [andb].
    change ("://" +:+ rest +:+ tail)
      with (String ":" (String "/" (String "/" (rest +:+ tail)))) in Hrun.
    rewrite ?append_nil_l, Hrun. reflexivity.
Qed.

Lemma matchAllUrls_skip (x tail : string) :
  matchAllUrls (String.length x) (x +:+ tail) = matchAllUrls 0 tail.
Proof.
  induction x as [|c x IH]; [now rewrite append_nil_l|].
  rewrite append_cons. cbn [String.length matchAllUrls]. exact IH.
Qed.

(** X23. A URL that stands in a text up to its end, or up to a white
    space, an angle bracket or a quote, is found as it stands, and the
    search goes on after it: the URLs of such a text are that URL and
    those of the rest. *)
Theorem delimited_url_found (m tail : string) :
  httpUrl m -> urlStops tail ->
  extractUrlsFromText (m +:+ tail) = m :: extractUrlsFromText tail.
Proof.
  intros Hm Htail. unfold extractUrlsFromText.
  pose proof (matchUrlAt_stops m tail Hm Htail) as Hmatch.
  destruct m as [|c m].
  { destruct Hm as (_ & scheme & rest & Heq & _ & _).
    destruct scheme; discriminate Heq. }
  rewrite append_cons in *. cbn [matchAllUrls]. rewrite Hmatch.
  replace (String.length (String c m) - 1)%nat with (String.length m)
    by (cbn [String.length]; lia).
  f_equal. apply matchAllUrls_skip.
Qed.


(** ** The text walk, and the course of an automatic scan *)

(** X24. The text walk finds the hoster URLs of the visited text and
    nothing else: each of its links is a hoster link for a cleaned URL of
    the text that matches a pattern, and every such URL has a link. *)
Theorem text_walk_finds_hoster_urls (patterns : list RegExp)
    (cache : gmap string UnrestrictedLink) (doc : Document) :
  (∀ l, l ∈ scanTextNodes patterns cache doc ->
        l = textLink cache (url l)
        ∧ matchesHosterPattern (url l) patterns = true
        ∧ url l ∈ textUrls doc)
  ∧ (∀ u, u ∈ textUrls doc -> matchesHosterPattern u patterns = true ->
          u ∈ url <$> scanTextNodes patterns cache doc).
Proof.
  destruct (scanTextNodes_inv patterns cache doc) as (_ & Hlinks & Hall).
  split; [exact Hlinks|].
  intros u Hu Hm. unfold textUrls in Hu.
  apply list_elem_of_fmap in Hu as (raw & -> & Hraw). now apply Hall.
Qed.

(** X25. Switching auto-scan on (at load, or when the preferences change)
    scans the page at once, and leaves exactly one observer connected: the
    one there was, or a new one. *)
Theorem enabling_scans_now (stored : JsVal) (s : Sched) :
  schedInv s ->
  fst (getPreferences stored) = true ->
  scans (initAutoScan stored s) = scans s ++ [clock (browser s)]
  ∧ timers (browser (initAutoScan stored s)) = timers (browser s)
  ∧ ∃ o, observer (state (world (initAutoScan stored s))) = Some o
         ∧ observers (browser (initAutoScan stored s)) = {[o]}.
Proof.
  intros [_ Hobs] Hon. unfold initAutoScan.
  destruct (getPreferences stored) as [enabled au]. simpl in Hon.
  subst enabled.
  destruct (callPerformAutoScan_spec s) as (w' & -> & _ & Eo & _).
  cbn [world].
  destruct (observer (state w')) as [o|] eqn:Ho; simpl.
  - split; [reflexivity|]. split; [reflexivity|]. exists o.
    split; [exact Ho|]. apply set_eq. intros x.
    rewrite Hobs, <- Eo, elem_of_singleton.
    split; [intros [= ->]|intros ->]; reflexivity.
  - split; [reflexivity|]. split; [reflexivity|].
    exists (nextObserver (browser s)). split; [reflexivity|].
    apply set_eq. intros x.
    rewrite elem_of_union, Hobs, <- Eo, !elem_of_singleton.
    split; [intros [?|H]; [auto|discriminate H]|auto].
Qed.

(** X26. The course of an automatic scan that finds links: the list found
    is reported first, as it was found; with auto-unrestrict off that is
    all, and with it on every hoster link of the list is a processed one
    at the end. *)
Theorem auto_scan_course (now : Z) (stored : JsVal) (doc : Document)
    (w : World) :
  isScanning (state w) = false ->
  fst (getPreferences stored) = true ->
  (∃ link rest, (scanPageForLinks now doc w).1 = inr (link :: rest)) ->
  ∃ links evs,
    (scanPageForLinks now doc w).1 = inr links
    ∧ trace (performAutoScan now stored doc w).2
      = trace (scanPageForLinks now doc w).2
          ++ REPORT_DETECTED_LINKS links :: evs
    ∧ (snd (getPreferences stored) = false -> evs = [])
    ∧ (snd (getPreferences stored) = true ->
       ∀ l, l ∈ links -> type l = hoster ->
            url l ∈ processedLinks (state (performAutoScan now stored doc w).2)).
Proof.
  intros Hidle Hon (link & rest & Hfound).
  destruct (getPreferences stored) as [enabled au] eqn:Hprefs.
  simpl in Hon. subst enabled.
  destruct (performAutoScan_enabled now stored doc w au Hidle Hprefs)
    as (ps & w1 & Hg & ->).
  destruct (scanPageForLinks_eq now doc w) as (ps0 & w0 & Hg0 & Hs0).
  rewrite Hs0 in *. cbn [fst snd] in *. injection Hfound as Hfound.
  rewrite getHostsRegex_scanning, Hg0 in Hg. simpl in Hg.
  injection Hg as <- <-.
  cbn [scanning state set_isScanning unrestrictedCache] in *.
  rewrite Hfound. exists (link :: rest).
  destruct au.
  - set (w1 := reported (link :: rest) (scanning true w0)).
    destruct (autoUnrestrictLinks_run (link :: rest) w1)
      as (links' & h & w2 & Hrun & ->).
    destruct (LoopRun_trace _ _ _ _ _ _ Hrun) as [Htr _].
    destruct (LoopRun_calls _ _ _ _ _ _ Hrun) as (_ & Hcalls & Hproc).
    exists (newEvents w1 w2
              ++ if h then [REPORT_DETECTED_LINKS links'] else []).
    split; [reflexivity|]. split.
    + destruct h; simpl; rewrite Htr; simpl; rewrite <- ?app_assoc;
        simpl; now rewrite ?app_nil_r.
    + split; [intros H; discriminate H|]. intros _ l Hl Hty.
      assert (Hin : url l ∈ processedLinks (state w2)).
      { apply Hproc.
        destruct (decide (url l ∈ processedLinks (state w1))); [auto|].
        right. apply Hcalls. eauto. }
      destruct h; exact Hin.
  - exists []. split; [reflexivity|]. split; [reflexivity|].
    split; [auto|]. intros H; discriminate H.
Qed.


(** ** The session only grows *)

Lemma grows_refl (w : World) : grows w w.
Proof. unfold grows. auto. Qed.

Lemma grows_trans (w1 w2 w3 : World) :
  grows w1 w2 -> grows w2 w3 -> grows w1 w3.
Proof.
  intros (Hp & Hc & Ht) (Hp' & Hc' & Ht').
  split; [|split]; etransitivity; eassumption.
Qed.

(** A step that leaves the two session sets alone and adds to the log. *)
Lemma grows_same (w w' : World) (evs : list Event) :
  processedLinks (state w') = processedLinks (state w) ->
  unrestrictedCache (state w') = unrestrictedCache (state w) ->
  trace w' = trace w ++ evs ->
  grows w w'.
Proof.
  intros Hp Hc Ht. unfold grows. rewrite Hp, Hc, Ht.
  split; [reflexivity|]. split; [reflexivity|]. now apply prefix_app_r.
Qed.

Lemma autoUnrestrictLinks_grows (links : list DetectedLink) (w : World) :
  sessionInv w -> grows w (autoUnrestrictLinks links w).2.
Proof.
  intros (_ & _ & Hkeys).
  destruct (autoUnrestrictLinks_run links w) as (links' & h & w1 & Hrun & ->).
  cbn [snd].
  destruct (LoopRun_trace _ _ _ _ _ _ Hrun) as [Htr _].
  destruct (LoopRun_calls _ _ _ _ _ _ Hrun) as (_ & Hcalls & Hproc).
  destruct (LoopRun_cache _ _ _ _ _ _ Hrun) as [Hkeep _].
  assert (H1 : grows w w1).
  { split; [|split].
    - intros u Hu. apply Hproc. auto.
    - apply map_subseteq_spec. intros u data Hu.
      rewrite Hkeep; [exact Hu|].
      intros Hcalled. apply Hcalls in Hcalled as [Hno _].
      apply Hno, Hkeys. rewrite Hu. eauto.
    - rewrite Htr. now apply prefix_app_r. }
  destruct h; [|exact H1].
  apply (grows_trans _ w1); [exact H1|].
  now apply (grows_same w1 _ [REPORT_DETECTED_LINKS links']).
Qed.

Lemma performAutoScan_grows (now : Z) (stored : JsVal) (doc : Document)
    (w : World) :
  sessionInv w -> grows w (performAutoScan now stored doc w).2.
Proof.
  intros Hs.
  destruct (isScanning (state w)) eqn:Hidle.
  { rewrite performAutoScan_busy by exact Hidle. apply grows_refl. }
  destruct (getPreferences stored) as [[|] au] eqn:Hprefs.
  2:{ rewrite performAutoScan_disabled by (try rewrite Hprefs; auto).
      rewrite scanning_idle by exact Hidle. apply grows_refl. }
  destruct (performAutoScan_enabled now stored doc w au Hidle Hprefs)
    as (ps & w1 & Hg & ->).
  cbn [snd].
  pose proof (getHostsRegex_frame now (scanning true w)) as Hf.
  destruct (getHostsRegex_events now (scanning true w)) as (evs & Htr & _).
  rewrite Hg in Hf, Htr. cbn [snd] in Hf, Htr.
  assert (Hs1 : sessionInv w1).
  { apply (scanFrame_session (scanning true w)); [exact Hf|].
    now apply sessionInv_scanning. }
  destruct Hf as (_ & _ & _ & Hp & Hc & _). simpl in Hp, Hc, Htr.
  assert (H1 : grows w w1) by (now apply (grows_same w w1 evs)).
  assert (Hflag : ∀ w2, grows w w2 -> grows w (scanning false w2))
    by (intros w2 H; exact H).
  apply Hflag.
  destruct (scanDocument ps (unrestrictedCache (state w1)) doc)
    as [|link rest]; [exact H1|].
  assert (H2 : grows w (reported (link :: rest) w1)).
  { apply (grows_trans _ w1); [exact H1|].
    now apply (grows_same w1 _ [REPORT_DETECTED_LINKS (link :: rest)]). }
  destruct au; [|exact H2].
  apply (grows_trans _ (reported (link :: rest) w1)); [exact H2|].
  apply autoUnrestrictLinks_grows.
  apply (scanFrame_session w1); [apply scanFrame_reported|exact Hs1].
Qed.

Lemma callPerformAutoScan_grows (s : Sched) :
  reachInv s -> grows (world s) (world (callPerformAutoScan s)).
Proof. intros [_ Hs]. now apply performAutoScan_grows. Qed.

Lemma fireTimer_grows (s : Sched) (timer : positive * Z) :
  reachInv s -> grows (world s) (world (fireTimer s timer)).
Proof.
  intros [_ Hs]. unfold fireTimer.
  destruct (timers (browser s) !! timer.1); [|apply grows_refl].
  now apply performAutoScan_grows.
Qed.

Lemma foldl_grows {B} (f : Sched -> B -> Sched) (l : list B) :
  (∀ s x, reachInv s -> reachInv (f s x)) ->
  (∀ s x, reachInv s -> grows (world s) (world (f s x))) ->
  ∀ s, reachInv s -> grows (world s) (world (foldl f s l)).
Proof.
  intros Hinv Hstep. induction l as [|x l IH]; intros s Hs; simpl.
  - apply grows_refl.
  - apply (grows_trans _ (world (f s x))); [now apply Hstep|].
    now apply IH, Hinv.
Qed.

Lemma advanceTo_grows (t : Z) (s : Sched) :
  reachInv s -> grows (world s) (world (advanceTo t s)).
Proof.
  intros Hs. unfold advanceTo. cbn [with_browser world].
  apply foldl_grows; [apply fireTimer_inv|apply fireTimer_grows|exact Hs].
Qed.

Lemma observerCallback_grows (mutations : list nat) (s : Sched) :
  reachInv s -> grows (world s) (world (observerCallback mutations s)).
Proof.
  intros [Hinv _]. unfold observerCallback.
  destruct (existsb _ _); [|apply grows_refl].
  destruct (triggerScan_armed s Hinv)
    as (_ & _ & _ & _ & _ & _ & Htr & Hp & Hc).
  apply (grows_same _ _ []); [exact Hp|exact Hc|].
  now rewrite app_nil_r.
Qed.

Lemma initAutoScan_grows (stored : JsVal) (s : Sched) :
  reachInv s -> grows (world s) (world (initAutoScan stored s)).
Proof.
  intros Hs. unfold initAutoScan.
  destruct (getPreferences stored) as [[|] au].
  - pose proof (callPerformAutoScan_grows s Hs) as H.
    destruct (observer (state (world (callPerformAutoScan s)))); exact H.
  - destruct (observer (state (world s))); simpl;
      destruct (scanTimeout (state (world s)));
      apply (grows_same _ _ []); simpl; auto using app_nil_r.
Qed.

Lemma onScanRequest_grows (s : Sched) :
  reachInv s -> grows (world s) (world (onScanRequest s)).
Proof.
  intros _. unfold onScanRequest.
  destruct (scanPageForLinks_eq (clock (browser s)) (pageAt (clock (browser s)))
              (world s)) as (ps & w1 & Hg & ->).
  pose proof (getHostsRegex_frame (clock (browser s)) (world s)) as Hf.
  destruct (getHostsRegex_events (clock (browser s)) (world s))
    as (evs & Htr & _).
  rewrite Hg in Hf, Htr. destruct Hf as (_ & _ & _ & Hp & Hc & _).
  simpl in *.
  apply (grows_same _ _ (evs ++ [REPORT_DETECTED_LINKS
                                  (scanDocument ps
                                     (unrestrictedCache (state w1))
                                     (pageAt (clock (browser s))))]));
    simpl; [exact Hp|exact Hc|].
  now rewrite Htr, app_assoc.
Qed.

Lemma handle_grows (s : Sched) (i : Input) :
  reachInv s -> grows (world s) (world (handle s i)).
Proof.
  intros Hs.
  pose proof (advanceTo_inv (match i with
                             | Mutations t _ | StorageChanged t _ _ _
                             | ScanRequest t | Elapse t => t
                             end) s Hs) as Hinv.
  pose proof (advanceTo_grows (match i with
                               | Mutations t _ | StorageChanged t _ _ _
                               | ScanRequest t | Elapse t => t
                               end) s Hs) as Hg.
  destruct i as [t ms|t area ch stored|t|t]; cbn [handle];
    [| |now apply (grows_trans _ _ _ Hg), onScanRequest_grows|exact Hg].
  - apply (grows_trans _ _ _ Hg). unfold deliverMutations.
    apply foldl_grows; [|intros s' _; apply observerCallback_grows|exact Hinv].
    intros s' _. apply observerCallback_inv.
  - unfold onStorageChanged. destruct (_ && _); [|exact Hg].
    now apply (grows_trans _ _ _ Hg), initAutoScan_grows.
Qed.

(** X27. The session only grows: whatever happens to the script after it
    has reached a state, a URL marked as processed stays marked, a result
    in the unrestrict cache stays there unchanged, and the log is
    continued, never rewritten. *)
Theorem session_only_grows (inputs more : list Input) (t0 : Z)
    (stored0 : JsVal) :
  grows (world (run inputs (load t0 stored0)))
        (world (run more (run inputs (load t0 stored0)))).
Proof.
  pose proof (run_inv inputs _ (load_inv t0 stored0)) as Hs.
  apply foldl_grows; [apply handle_inv|apply handle_grows|exact Hs].
Qed.


(** ** What is reported *)

Lemma LoopRun_urls links hasNew w links' hasNew' w' :
  LoopRun links hasNew w links' hasNew' w' ->
  url <$> links' = url <$> links.
Proof.
  intros Hrun0. loop_induction Hrun0; rewrite ?fmap_cons, ?IH; reflexivity.
Qed.

Lemma reportOk_unrestrict (evs : list Event) :
  Forall isUnrestrict evs -> Forall reportOk evs.
Proof.
  intros H. apply (Forall_impl _ _ _ H).
  intros [reply|links|u r]; simpl; intros []; auto.
Qed.

Lemma reportOk_hostsRequest (evs : list Event) :
  Forall isHostsRequest evs -> Forall reportOk evs.
Proof.
  intros H. apply (Forall_impl _ _ _ H).
  intros [reply|links|u r]; simpl; intros []; auto.
Qed.

Lemma autoUnrestrictLinks_reports (links : list DetectedLink) (w : World) :
  NoDup (url <$> links) ->
  Forall reportOk (trace w) ->
  Forall reportOk (trace (autoUnrestrictLinks links w).2).
Proof.
  intros Hnd Hw.
  destruct (autoUnrestrictLinks_run links w) as (links' & h & w1 & Hrun & ->).
  cbn [snd].
  destruct (LoopRun_trace _ _ _ _ _ _ Hrun) as [Htr Hevs].
  assert (H1 : Forall reportOk (trace w1)).
  { rewrite Htr. apply Forall_app. split; [exact Hw|].
    now apply reportOk_unrestrict. }
  destruct h; [|exact H1]. simpl. apply Forall_app. split; [exact H1|].
  repeat constructor. simpl. now rewrite (LoopRun_urls _ _ _ _ _ _ Hrun).
Qed.

Lemma getHostsRegex_reports (now : Z) (w : World) :
  Forall reportOk (trace w) ->
  Forall reportOk (trace (getHostsRegex now w).2).
Proof.
  intros Hw. destruct (getHostsRegex_events now w) as (evs & -> & Hevs).
  apply Forall_app. split; [exact Hw|]. now apply reportOk_hostsRequest.
Qed.

Lemma reported_reports (patterns : list RegExp) (doc : Document) (w : World) :
  Forall reportOk (trace w) ->
  Forall reportOk
    (trace (reported (scanDocument patterns (unrestrictedCache (state w)) doc)
              w)).
Proof.
  intros Hw. simpl. apply Forall_app. split; [exact Hw|].
  repeat constructor. simpl. apply scanDocument_spec.
Qed.

Lemma performAutoScan_reports (now : Z) (stored : JsVal) (doc : Document)
    (w : World) :
  Forall reportOk (trace w) ->
  Forall reportOk (trace (performAutoScan now stored doc w).2).
Proof.
  intros Hw.
  destruct (isScanning (state w)) eqn:Hidle.
  { now rewrite performAutoScan_busy by exact Hidle. }
  destruct (getPreferences stored) as [[|] au] eqn:Hprefs.
  2:{ now rewrite performAutoScan_disabled by (try rewrite Hprefs; auto). }
  destruct (performAutoScan_enabled now stored doc w au Hidle Hprefs)
    as (ps & w1 & Hg & ->).
  pose proof (getHostsRegex_reports now (scanning true w) Hw) as H1.
  rewrite Hg in H1. cbn [snd] in *.
  cbn [scanning trace].
  pose proof (reported_reports ps doc w1 H1) as H2.
  destruct (scanDocument_spec ps (unrestrictedCache (state w1)) doc)
    as (Hnd & _ & _).
  destruct (scanDocument ps (unrestrictedCache (state w1)) doc)
    as [|link rest]; [exact H1|].
  destruct au; [|exact H2].
  now apply autoUnrestrictLinks_reports.
Qed.

Lemma fireTimer_reports (s : Sched) (timer : positive * Z) :
  Forall reportOk (trace (world s)) ->
  Forall reportOk (trace (world (fireTimer s timer))).
Proof.
  intros Hs. unfold fireTimer.
  destruct (timers (browser s) !! timer.1); [|exact Hs].
  now apply performAutoScan_reports.
Qed.

Lemma advanceTo_reports (t : Z) (s : Sched) :
  Forall reportOk (trace (world s)) ->
  Forall reportOk (trace (world (advanceTo t s))).
Proof.
  intros Hs. unfold advanceTo. cbn [with_browser world].
  apply (foldl_invariant (fun _ s' => Forall reportOk (trace (world s'))));
    [exact Hs|].
  intros _ timer acc. apply fireTimer_reports.
Qed.

Lemma triggerScan_trace (s : Sched) :
  trace (world (triggerScan s)) = trace (world s).
Proof. unfold triggerScan. now destruct (scanTimeout (state (world s))). Qed.

Lemma deliverMutations_reports (mutations : list nat) (s : Sched) :
  Forall reportOk (trace (world s)) ->
  Forall reportOk (trace (world (deliverMutations mutations s))).
Proof.
  intros Hs. unfold deliverMutations.
  apply (foldl_invariant (fun _ s' => Forall reportOk (trace (world s'))));
    [exact Hs|].
  intros _ _ acc Hacc. unfold observerCallback.
  destruct (existsb _ _); [|exact Hacc]. now rewrite triggerScan_trace.
Qed.

Lemma initAutoScan_reports (stored : JsVal) (s : Sched) :
  Forall reportOk (trace (world s)) ->
  Forall reportOk (trace (world (initAutoScan stored s))).
Proof.
  intros Hs. unfold initAutoScan.
  destruct (getPreferences stored) as [[|] au].
  - assert (H : Forall reportOk (trace (world (callPerformAutoScan s))))
      by now apply performAutoScan_reports.
    destruct (observer (state (world (callPerformAutoScan s)))); exact H.
  - destruct (observer (state (world s))); simpl;
      destruct (scanTimeout (state (world s))); exact Hs.
Qed.

Lemma onScanRequest_reports (s : Sched) :
  Forall reportOk (trace (world s)) ->
  Forall reportOk (trace (world (onScanRequest s))).
Proof.
  intros Hs. unfold onScanRequest.
  destruct (scanPageForLinks_eq (clock (browser s)) (pageAt (clock (browser s)))
              (world s)) as (ps & w1 & Hg & ->).
  pose proof (getHostsRegex_reports (clock (browser s)) (world s) Hs) as H1.
  rewrite Hg in H1. now apply reported_reports.
Qed.

Lemma handle_reports (s : Sched) (i : Input) :
  Forall reportOk (trace (world s)) ->
  Forall reportOk (trace (world (handle s i))).
Proof.
  intros Hs. destruct i as [t ms|t area ch stored|t|t]; cbn [handle].
  - now apply deliverMutations_reports, advanceTo_reports.
  - unfold onStorageChanged. destruct (_ && _).
    + now apply initAutoScan_reports, advanceTo_reports.
    + now apply advanceTo_reports.
  - now apply onScanRequest_reports, advanceTo_reports.
  - now apply advanceTo_reports.
Qed.

(** X28. No list the script ever reports to the background holds a URL
    twice, be it the report of an automatic scan, the second report after
    a pass of auto-unrestrict, or the report of a scan on request. *)
Theorem reports_never_repeat_a_url (inputs : list Input) (t0 : Z)
    (stored0 : JsVal) :
  Forall reportOk (trace (world (run inputs (load t0 stored0)))).
Proof.
  apply (foldl_invariant (fun _ s' => Forall reportOk (trace (world s')))).
  - apply initAutoScan_reports. constructor.
  - intros _ i acc. apply handle_reports.
Qed.

End LinkScanner.

(** * Examples

    The theorems at work on the small host: its engine, its background
    page and its pages. *)

#[local] Abbreviation world0 := (mkWorld string (initialState string) []).

#[local] Abbreviation toyLoad :=
  (load string toyNewRegExp toyTest toyHostname toyHostsReply
        toyUnrestrictReply toyPageAt toyPreferencesAt 0 JUndefined).

#[local] Abbreviation toyRun :=
  (run string toyNewRegExp toyTest toyHostname toyHostsReply
       toyUnrestrictReply toyPageAt toyPreferencesAt).

(** A list with a pattern that does not compile: the caller gets the empty
    list and nothing is cached. *)
Lemma getHostsRegex_never_fails_witness :
  getHostsRegex string toyNewRegExp badHostsReply 0 world0
  = (inr [],
     mkWorld string (initialState string)
       [GET_HOSTS_REGEX (badHostsReply [])]).
Proof.
  destruct (getHostsRegex_never_fails string toyNewRegExp badHostsReply 0 world0)
    as (_ & Hfail & Hbad).
  apply Hfail; [reflexivity|].
  apply (Hbad [JStr "/host-a\.example/"; JStr "/(oops/"] "/(oops/").
  - reflexivity.
  - simpl. auto.
  - reflexivity.
Defined.

(** A list recorded at instant 1000. *)
Lemma ttl_expiry_witness :
  getHostsRegex string toyNewRegExp toyHostsReply (1000 + CACHE_TTL - 1)
    (mkWorld string
       (mkState string (Some ["host-a.example"]) 1000 None false None ∅ ∅) [])
  = (inr ["host-a.example"],
     mkWorld string
       (mkState string (Some ["host-a.example"]) 1000 None false None ∅ ∅) [])
  ∧ fetched string toyHostsReply
      (mkWorld string
         (mkState string (Some ["host-a.example"]) 1000 None false None ∅ ∅) [])
      (snd (getHostsRegex string toyNewRegExp toyHostsReply
              (1000 + CACHE_TTL + 1)
              (mkWorld string
                 (mkState string (Some ["host-a.example"]) 1000 None false
                    None ∅ ∅) []))).
Proof.
  apply (ttl_expiry string toyNewRegExp toyHostsReply 1000); reflexivity.
Defined.

(** A refresh that fails at instant 0, and the next call at instant 5. *)
Lemma failed_refresh_keeps_cache_witness :
  fst (getHostsRegex string toyNewRegExp badHostsReply 0 world0) = inr []
  ∧ state string (snd (getHostsRegex string toyNewRegExp badHostsReply 0 world0))
    = initialState string
  ∧ fetched string badHostsReply
      (snd (getHostsRegex string toyNewRegExp badHostsReply 0 world0))
      (snd (getHostsRegex string toyNewRegExp badHostsReply 5
              (snd (getHostsRegex string toyNewRegExp badHostsReply 0 world0)))).
Proof.
  destruct (failed_refresh_keeps_cache string toyNewRegExp badHostsReply 0 5
              world0) as (H1 & H2 & _ & _ & H5).
  - reflexivity.
  - do 3 right. exists SyntaxError. reflexivity.
  - lia.
  - auto.
Defined.

(** The URL of [toyPage] that is in an anchor and twice in text is reported
    once. *)
Lemma scan_reports_each_url_once_witness :
  ∃ links w',
    scanPageForLinks string toyNewRegExp toyTest toyHostname toyHostsReply
      0 toyPage world0 = (inr links, w')
    ∧ reports "https://host-a.example/file/1" links = 1%nat.
Proof.
  destruct (scan_reports_each_url_once string toyNewRegExp toyTest toyHostname
              toyHostsReply 0 toyPage world0)
    as (ps & links & w' & Hg & Hs & _ & Hone & _).
  exists links, w'. split; [exact Hs|]. apply Hone.
  vm_compute in Hg. injection Hg as <- _.
  left. split; [|split].
  - apply list_elem_of_In. simpl. auto.
  - reflexivity.
  - right. reflexivity.
Defined.

(** The magnet anchor of [toyPage], with no pattern at all. *)
Lemma magnet_anchor_classified_witness :
  (mkLink "magnet:?xt=abc" "magnet" magnet None
     ∈ scanDocument string toyTest toyHostname [] ∅ toyPage
   ∧ ∀ l, l ∈ scanDocument string toyTest toyHostname [] ∅ toyPage ->
          url l = "magnet:?xt=abc" ->
          l = mkLink "magnet:?xt=abc" "magnet" magnet None)
  ∧ ∃ links w',
      scanPageForLinks string toyNewRegExp toyTest toyHostname toyHostsReply
        0 toyPage world0 = (inr links, w')
      ∧ mkLink "magnet:?xt=abc" "magnet" magnet None ∈ links
      ∧ reports "magnet:?xt=abc" links = 1%nat
      ∧ ∀ l, l ∈ links -> url l = "magnet:?xt=abc" ->
             l = mkLink "magnet:?xt=abc" "magnet" magnet None.
Proof.
  apply (magnet_anchor_classified string toyNewRegExp toyTest toyHostname
           toyHostsReply [] ∅ 0 toyPage world0 "magnet:?xt=abc").
  - apply list_elem_of_In. simpl. auto.
  - reflexivity.
Defined.


(** Three hoster links, the call for the second one rejected: the second
    link stays as it was and the third one still gets its call. *)
Lemma unrestrict_failure_isolated_witness :
  ∃ links' hasNew w',
    autoUnrestrictLinks string flakyUnrestrictReply toyLinks world0
    = (inr (links', hasNew), w')
    ∧ links' !! 1%nat = toyLinks !! 1%nat
    ∧ "https://host-a.example/3" ∈ unrestrictCalls (newEvents string world0 w').
Proof.
  destruct (unrestrict_failure_isolated string flakyUnrestrictReply toyLinks
              world0) as (links' & h & w' & Heq & _ & Hall & Hfail).
  exists links', h, w'. split; [exact Heq|].
  pose proof Heq as Hrun. vm_compute in Hrun. injection Hrun as _ _ Hw.
  split.
  - apply (Hfail 1%nat _ SendRejected); [reflexivity| |reflexivity].
    rewrite <- Hw. apply list_elem_of_In. vm_compute. auto.
  - apply (Hall (mkLink "https://host-a.example/3" "host-a.example" hoster None)).
    + apply list_elem_of_In. simpl. auto.
    + reflexivity.
    + apply not_elem_of_empty.
Defined.

(** Three hoster links, every call answered with a result: the list is
    reported again, with the results in it. *)
Lemma second_report_iff_gained_witness :
  ∃ links' hasNew w',
    autoUnrestrictLinks string toyUnrestrictReply toyLinks world0
    = (inr (links', hasNew), w')
    ∧ REPORT_DETECTED_LINKS links' ∈ newEvents string world0 w'.
Proof.
  destruct (second_report_iff_gained string toyTest toyHostname
              toyUnrestrictReply toyLinks world0)
    as (links' & h & w' & calls & Heq & _ & _ & _ & Hreport & Hpayload & Hpos
        & _).
  exists links', h, w'. split; [exact Heq|].
  pose proof Heq as Hrun. vm_compute in Hrun. injection Hrun as Hl _ _.
  assert (Hg : gained calls).
  { apply Hpos.
    exists 0%nat, (mkLink "https://host-a.example/1" "host-a.example" hoster None).
    eexists. split; [reflexivity|]. rewrite <- Hl.
    split; [reflexivity|]. split; [reflexivity|]. simpl. eauto. }
  apply Hreport in Hg as [ls Hls].
  now rewrite <- (Hpayload ls Hls).
Defined.

(** A session on the small host: a mutation, a second of silence, a scan
    request. *)
Lemma unrestrict_at_most_once_witness :
  NoDup
    (unrestrictCalls
       (trace string
          (world string
             (toyRun [Mutations 10 [1%nat]; Elapse 2000; ScanRequest 3000]
                toyLoad)))).
Proof.
  destruct (unrestrict_at_most_once string toyNewRegExp toyTest toyHostname
              toyHostsReply toyUnrestrictReply toyPageAt toyPreferencesAt
              [Mutations 10 [1%nat]; Elapse 2000; ScanRequest 3000]
              0 JUndefined) as [H _].
  exact H.
Defined.

(** Auto-scan switched off after a mutation armed the timer. *)
Lemma one_observer_at_most_witness :
  observer string
    (state string
       (world string
          (initAutoScan string toyNewRegExp toyTest toyHostname toyHostsReply
             toyUnrestrictReply toyPageAt toyPreferencesAt
             (JObj [("autoScanEnabled", JBool false)])
             (toyRun [Mutations 10 [1%nat]] toyLoad)))) = None
  ∧ observers
      (browser string
         (initAutoScan string toyNewRegExp toyTest toyHostname toyHostsReply
            toyUnrestrictReply toyPageAt toyPreferencesAt
            (JObj [("autoScanEnabled", JBool false)])
            (toyRun [Mutations 10 [1%nat]] toyLoad))) = ∅
  ∧ timers
      (browser string
         (initAutoScan string toyNewRegExp toyTest toyHostname toyHostsReply
            toyUnrestrictReply toyPageAt toyPreferencesAt
            (JObj [("autoScanEnabled", JBool false)])
            (toyRun [Mutations 10 [1%nat]] toyLoad))) = ∅.
Proof.
  destruct (one_observer_at_most string toyNewRegExp toyTest toyHostname
              toyHostsReply toyUnrestrictReply toyPageAt toyPreferencesAt
              [Mutations 10 [1%nat]] 0 JUndefined
              (JObj [("autoScanEnabled", JBool false)])) as (_ & _ & _ & Hoff).
  destruct (Hoff eq_refl) as (Hobs & _ & Hnone & Htimers). auto.
Defined.

(** Three notifications at instants 100, 300 and 900, then silence: one
    scan, at instant 1900. *)
Lemma debounce_one_scan_witness :
  scans string
    (toyRun (Mutations 100 [1%nat]
             :: notifications [(300, [0%nat; 2%nat]); (900, [1%nat])]
             ++ [Elapse 5000]) toyLoad)
  = scans string toyLoad ++ [1900].
Proof.
  apply (debounce_one_scan string toyNewRegExp toyTest toyHostname
           toyHostsReply toyUnrestrictReply toyPageAt toyPreferencesAt
           toyLoad 100 [1%nat] [(300, [0%nat; 2%nat]); (900, [1%nat])] 5000).
  - apply (load_inv string toyNewRegExp toyTest toyHostname toyHostsReply
             toyUnrestrictReply toyPageAt toyPreferencesAt 0 JUndefined).
  - exists 1%positive. reflexivity.
  - vm_compute. intros H. discriminate H.
  - intros id d H. vm_compute in H. discriminate H.
  - reflexivity.
  - unfold SCAN_DEBOUNCE_MS, addsNodes. simpl. repeat split; lia.
Defined.


(** The end-to-end example: an anchor to a hoster file, a hoster URL in
    text with a final period, a magnet anchor. *)
Example scan_end_to_end :
  fst (scanPageForLinks string toyNewRegExp toyTest toyHostname toyHostsReply
         0 (toyPageAt 0) world0)
  = inr [mkLink "https://host-a.example/file/1" "host-a.example" hoster None;
         mkLink "magnet:?xt=abc" "magnet" magnet None;
         mkLink "https://host-a.example/file/2" "host-a.example" hoster None].
Proof. vm_compute. reflexivity. Qed.

(** The text walk on its own looks a match up in its seen-set before
    cleaning it and records it after: a URL written twice with a final
    period is listed twice by [scanTextNodes]; the merge in
    [scanPageForLinks] keeps one. *)
Example scanTextNodes_repeats :
  url <$> scanTextNodes string toyTest toyHostname ["host-a.example"] ∅
            (mkDocument []
               [mkTextNode (Some "P")
                  "https://host-a.example/f. https://host-a.example/f."])
  = ["https://host-a.example/f"; "https://host-a.example/f"]
  ∧ url <$> scanDocument string toyTest toyHostname ["host-a.example"] ∅
              (mkDocument []
                 [mkTextNode (Some "P")
                    "https://host-a.example/f. https://host-a.example/f."])
    = ["https://host-a.example/f"].
Proof. split; vm_compute; reflexivity. Qed.


(** An empty list of patterns fetched at instant 0 is what the call at
    instant 5 gets, without another exchange. *)
Lemma fetch_then_cached_witness :
  getHostsRegex string toyNewRegExp emptyHostsReply 5
    (snd (getHostsRegex string toyNewRegExp emptyHostsReply 0 world0))
  = (inr [], snd (getHostsRegex string toyNewRegExp emptyHostsReply 0 world0)).
Proof.
  destruct (fetch_then_cached string toyNewRegExp emptyHostsReply 0 5 world0 [])
    as [_ H].
  - reflexivity.
  - unfold replyOk. repeat split; reflexivity.
  - unfold CACHE_TTL. lia.
  - exact H.
Defined.

(** With a list that does not compile, the scan of [toyPage] gives its
    magnet anchor and no hoster link. *)
Lemma scan_fails_open_witness :
  ∃ links w',
    scanPageForLinks string toyNewRegExp toyTest toyHostname badHostsReply
      0 toyPage world0 = (inr links, w')
    ∧ Forall (fun l => type l = magnet) links
    ∧ "magnet:?xt=abc" ∈ url <$> links.
Proof.
  destruct (scan_fails_open string toyNewRegExp toyTest toyHostname
              badHostsReply 0 toyPage world0)
    as (links & w' & H1 & _ & H3 & H4).
  - reflexivity.
  - do 3 right. exists SyntaxError. reflexivity.
  - exists links, w'. split; [exact H1|]. split; [exact H3|].
    apply H4. split; [|reflexivity].
    apply list_elem_of_In. simpl. auto.
Defined.

(** The automatic scan of a page without links asks for the patterns and
    reports nothing. *)
Lemma empty_scan_not_reported_witness :
  Forall isHostsRequest
    (newEvents string world0
       (performAutoScan string toyNewRegExp toyTest toyHostname toyHostsReply
          toyUnrestrictReply 0 JUndefined emptyPage world0).2).
Proof.
  apply (empty_scan_not_reported string toyNewRegExp toyTest toyHostname
           toyHostsReply toyUnrestrictReply 0 JUndefined emptyPage world0).
  reflexivity.
Defined.

(** Auto-scan is switched off after the load; added nodes, five seconds,
    a scan on request and a change in another storage area follow. *)
Lemma disabled_stays_quiet_witness :
  scans string
    (toyRun [Mutations 10 [1%nat]; Elapse 5000; ScanRequest 6000;
             StorageChanged 7000 "local" true JUndefined]
       (initAutoScan string toyNewRegExp toyTest toyHostname toyHostsReply
          toyUnrestrictReply toyPageAt toyPreferencesAt autoScanOff toyLoad))
  = scans string toyLoad.
Proof.
  destruct (disabled_stays_quiet string toyNewRegExp toyTest toyHostname
              toyHostsReply toyUnrestrictReply toyPageAt toyPreferencesAt
              autoScanOff toyLoad
              [Mutations 10 [1%nat]; Elapse 5000; ScanRequest 6000;
               StorageChanged 7000 "local" true JUndefined])
    as (H & _ & _).
  - exact (proj1 (load_inv string toyNewRegExp toyTest toyHostname
                    toyHostsReply toyUnrestrictReply toyPageAt
                    toyPreferencesAt 0 JUndefined)).
  - reflexivity.
  - repeat constructor.
  - exact H.
Defined.

(** Two records that add no node. *)
Lemma mutations_without_additions_ignored_witness :
  handle string toyNewRegExp toyTest toyHostname toyHostsReply
    toyUnrestrictReply toyPageAt toyPreferencesAt toyLoad
    (Mutations 10 [0%nat; 0%nat])
  = advanceTo string toyNewRegExp toyTest toyHostname toyHostsReply
      toyUnrestrictReply toyPageAt toyPreferencesAt 10 toyLoad.
Proof.
  apply (mutations_without_additions_ignored string toyNewRegExp toyTest
           toyHostname toyHostsReply toyUnrestrictReply toyPageAt
           toyPreferencesAt 10 [0%nat; 0%nat] toyLoad).
  unfold addsNodes. simpl. intros H. discriminate H.
Defined.

(** A URL followed by a space and more text. *)
Lemma delimited_url_found_witness :
  extractUrlsFromText
    ("HTTPS://host-a.example/f" +:+ " and http://b.example/g")
  = "HTTPS://host-a.example/f" :: extractUrlsFromText " and http://b.example/g".
Proof.
  apply (delimited_url_found "HTTPS://host-a.example/f"
           " and http://b.example/g").
  - split; [reflexivity|]. exists "HTTPS", "host-a.example/f".
    split; [reflexivity|]. split; [right; reflexivity|].
    intros H. discriminate H.
  - reflexivity.
Defined.

(** Auto-scan switched on again in the loaded script: a scan at once, and
    the observer of the load. *)
Lemma enabling_scans_now_witness :
  scans string
    (initAutoScan string toyNewRegExp toyTest toyHostname toyHostsReply
       toyUnrestrictReply toyPageAt toyPreferencesAt JUndefined toyLoad)
  = scans string toyLoad ++ [0].
Proof.
  destruct (enabling_scans_now string toyNewRegExp toyTest toyHostname
              toyHostsReply toyUnrestrictReply toyPageAt toyPreferencesAt
              JUndefined toyLoad) as (H & _ & _).
  - exact (proj1 (load_inv string toyNewRegExp toyTest toyHostname
                    toyHostsReply toyUnrestrictReply toyPageAt
                    toyPreferencesAt 0 JUndefined)).
  - reflexivity.
  - exact H.
Defined.

(** The automatic scan of [toyPage] from the initial state. *)
Lemma auto_scan_course_witness :
  ∃ links evs,
    (scanPageForLinks string toyNewRegExp toyTest toyHostname toyHostsReply
       0 toyPage world0).1 = inr links
    ∧ trace string
        (performAutoScan string toyNewRegExp toyTest toyHostname toyHostsReply
           toyUnrestrictReply 0 JUndefined toyPage world0).2
      = trace string
          (scanPageForLinks string toyNewRegExp toyTest toyHostname
             toyHostsReply 0 toyPage world0).2
          ++ REPORT_DETECTED_LINKS links :: evs.
Proof.
  destruct (auto_scan_course string toyNewRegExp toyTest toyHostname
              toyHostsReply toyUnrestrictReply 0 JUndefined toyPage world0)
    as (links & evs & H1 & H2 & _).
  - reflexivity.
  - reflexivity.
  - eexists _, _. reflexivity.
  - exists links, evs. auto.
Defined.
